(** * cat-gpt: the dialogue codec and the watch loop of [ac_parser_encoder.py]

    A shallow embedding of the codec ([parse_ac_text], [encode_ac_text] and
    the normalisers they call), of [ConversationState] and of the body of
    [watch_dialogue], followed by the properties proved about them.

    Conventions of the embedding:
    - a Python [str] is a list of Unicode code points ([str := list N]);
      a [bytes] value is a list of byte values ([bytes := list N]);
    - Python exceptions are values of [exn]; a function that can raise
      returns [res A];
    - the [while] loop of the decoder runs on fuel; [Fuel] is the answer of
      a loop that was given too little of it;
    - dictionaries are [gmap]s built from the source's literals in source
      order, a later binding replacing an earlier one as in Python. *)

From Stdlib Require Import String Ascii NArith ZArith Lia.
From stdpp Require Import base option list gmap.

Local Open Scope N_scope.

(* ===================================================================== *)
(** ** Python values used by the program *)
(* ===================================================================== *)

Module Py.

Abbreviation char := N (only parsing).
Abbreviation str := (list N) (only parsing).
Abbreviation bytes := (list N) (only parsing).

(** An ASCII literal as a Python string. *)
Definition u (s : string) : str := N_of_ascii <$> list_ascii_of_string s.

Inductive exn := IndexError | ValueError | KeyError | TypeError | StructError | OverflowError.

Inductive res (A : Type) :=
| Ok (a : A)
| Raise (e : exn)
| Fuel.
Arguments Ok {A} a.
Arguments Raise {A} e.
Arguments Fuel {A}.

#[export] Instance res_ret : MRet res := fun A a => Ok a.
#[export] Instance res_bind : MBind res := fun A B f x =>
  match x with
  | Ok a => f a
  | Raise e => Raise e
  | Fuel => Fuel
  end.

Definition str_eqb (a b : str) : bool := bool_decide (a = b).

(** [a.startswith(p)] *)
Fixpoint startswith (p s : str) : bool :=
  match p, s with
  | [], _ => true
  | c :: p', x :: s' => (x =? c) && startswith p' s'
  | _ :: _, [] => false
  end.

(** [a.endswith(p)] *)
Definition endswith (p s : str) : bool := startswith (reverse p) (reverse s).

(** [needle in hay] *)
Fixpoint contains (needle hay : str) : bool :=
  startswith needle hay ||
  match hay with
  | [] => false
  | _ :: hay' => contains needle hay'
  end.

(** [str.isspace] on one code point; the same set is the class [\s] of [re]
    on [str] patterns. *)
Definition isspace (c : char) : bool :=
  ((9 <=? c) && (c <=? 13)) || ((28 <=? c) && (c <=? 32)) ||
  (c =? 0x85) || (c =? 0xA0) || (c =? 0x1680) ||
  ((0x2000 <=? c) && (c <=? 0x200A)) ||
  (c =? 0x2028) || (c =? 0x2029) || (c =? 0x202F) || (c =? 0x205F) || (c =? 0x3000).

Fixpoint lstrip (s : str) : str :=
  match s with
  | c :: s' => if isspace c then lstrip s' else s
  | [] => []
  end.

Definition rstrip (s : str) : str := reverse (lstrip (reverse s)).

(** [s.strip()] *)
Definition strip (s : str) : str := rstrip (lstrip s).

(** [s.split(sep)] for a one-character separator: never an empty list. *)
Fixpoint split (sep : char) (s : str) : list str :=
  match s with
  | [] => [[]]
  | c :: s' =>
      match split sep s' with
      | w :: ws => if c =? sep then [] :: w :: ws else (c :: w) :: ws
      | [] => [[c]]
      end
  end.

(** [s.replace(src, dst)] for a one-character [src]. *)
Definition replace (src : char) (dst : str) (s : str) : str :=
  s ≫= (fun c => if c =? src then dst else [c]).

(** [s.upper()]; the program applies it to hexadecimal digits only, where
    it is the ASCII map a-z to A-Z. *)
Definition upper (s : str) : str :=
  (fun c => if (97 <=? c) && (c <=? 122) then c - 32 else c) <$> s.

(** [s.zfill(w)]; the strings it is applied to start with a digit, so no
    sign is moved. *)
Definition zfill (w : nat) (s : str) : str :=
  replicate (w - length s)%nat 48 ++ s.

Definition digit_char (d : N) : char := if d <? 10 then 48 + d else 55 + d.

Fixpoint digits_go (base : N) (fuel : nat) (n : N) (acc : str) : str :=
  match fuel with
  | O => acc
  | S fuel' =>
      let acc' := digit_char (n mod base) :: acc in
      if n / base =? 0 then acc' else digits_go base fuel' (n / base) acc'
  end.

(** [format(n, "X")]: upper-case hexadecimal, no padding. *)
Definition hexX (n : N) : str := digits_go 16 (S (N.size_nat n)) n [].

(** [str(n)] for a non-negative [int]. *)
Definition decimal (n : N) : str := digits_go 10 (S (N.size_nat n)) n [].

(** [f"{n:0wX}"] *)
Definition fmt_0X (w : nat) (n : N) : str := zfill w (hexX n).

Definition is_hex (c : char) : bool :=
  ((48 <=? c) && (c <=? 57)) || ((65 <=? c) && (c <=? 70)) || ((97 <=? c) && (c <=? 102)).

Definition hex_val (c : char) : N :=
  if c <=? 57 then c - 48 else if c <=? 70 then c - 55 else c - 87.

(** [int(s, 16)] on a string of hexadecimal digits. *)
Definition int16 (s : str) : N := foldl (fun acc c => acc * 16 + hex_val c) 0 s.

(** Values passed to [str.format]. *)
Inductive pyval := VInt (n : N) | VStr (s : str).

(** One replacement field: [spec] is the text between the braces. Only the
    specs of this program are interpreted: the empty one and [:0wX] with a
    one-digit width. The code X on a string is Python's [ValueError]. *)
Definition format_field (spec : str) (v : pyval) : res str :=
  match spec, v with
  | [], VStr s => Ok s
  | [], VInt n => Ok (decimal n)
  | [58; 48; w; 88], VInt n =>
      if (49 <=? w) && (w <=? 57) then Ok (fmt_0X (N.to_nat (w - 48)) n) else Raise ValueError
  | _, _ => Raise ValueError
  end.

(** [tpl.format] applied to the unpacked [args], with automatic field numbering. [field] is [Some]
    of the reversed spec read so far while inside braces. *)
Fixpoint format_go (tpl : str) (field : option str) (args : list pyval) : res str :=
  match tpl, field with
  | [], None => Ok []
  | [], Some _ => Raise ValueError
  | c :: tpl', None =>
      if c =? 123 then format_go tpl' (Some []) args
      else if c =? 125 then Raise ValueError
      else r ← format_go tpl' None args; Ok (c :: r)
  | c :: tpl', Some acc =>
      if c =? 125 then
        match args with
        | [] => Raise IndexError
        | v :: args' =>
            s ← format_field (reverse acc) v;
            r ← format_go tpl' None args';
            Ok (s ++ r)
        end
      else format_go tpl' (Some (c :: acc)) args
  end.

Definition format (tpl : str) (args : list pyval) : res str := format_go tpl None args.

(** [struct.pack('>B', v)] *)
Definition pack_B (v : N) : res bytes :=
  if v <? 256 then Ok [v] else Raise StructError.

(** [struct.pack('>H', v)] *)
Definition pack_H (v : N) : res bytes :=
  if v <? 65536 then Ok [v / 256; v mod 256] else Raise StructError.

(** [v.to_bytes(3, 'big')] *)
Definition to_bytes3 (v : N) : res bytes :=
  if v <? 16777216 then Ok [v / 65536; (v / 256) mod 256; v mod 256] else Raise OverflowError.

(** [struct.unpack('>H', b)[0]] *)
Definition unpack_H (b : bytes) : res N :=
  match b with
  | [hi; lo] => Ok (hi * 256 + lo)
  | _ => Raise StructError
  end.

(** [int.from_bytes(b, 'big')] *)
Definition from_bytes (b : bytes) : N := foldl (fun acc x => acc * 256 + x) 0 b.

(** [b[i]] *)
Definition index {A} (l : list A) (i : nat) : res A :=
  match l !! i with
  | Some x => Ok x
  | None => Raise IndexError
  end.

(** [l[a:b]] for [0 <= a <= b]. *)
Definition slice {A} (l : list A) (a b : nat) : list A := take (b - a) (drop a l).

(** A dictionary from its items in source order. *)
Definition dict `{Countable K} {V} (items : list (K * V)) : gmap K V :=
  foldl (fun m kv => <[kv.1 := kv.2]> m) ∅ items.

End Py.
Import Py.

(* ===================================================================== *)
(** ** The fragment of [re] the program uses *)
(* ===================================================================== *)

(** A backtracking matcher with the priorities of Python's [re]: a greedy
    quantifier tries the longer match first, a lazy one the shorter, and
    the first way to complete the whole pattern wins. Quantifiers other
    than [?] apply to single-character classes only, which is all the
    patterns of this program need. *)

Module Re.

Inductive re :=
| Eps                                  (* the empty pattern *)
| Chr (c : char)                       (* a literal character *)
| ChrI (c : char)                      (* a literal character under IGNORECASE *)
| Cls (p : char -> bool)               (* a character class *)
| Seq (a b : re)
| Opt (a : re)                         (* a? *)
| Rep (p : char -> bool) (lo : nat) (hi : option nat) (greedy : bool)
| Grp (i : nat) (a : re)               (* capture group i *)
| Bol                                  (* ^ *)
| Eol.                                 (* $ *)

Definition caps := list (nat * str).

(** [m.group(i)] *)
Fixpoint group (g : caps) (i : nat) : str :=
  match g with
  | [] => []
  | (j, s) :: g' => if Nat.eqb i j then s else group g' i
  end.

(** Unicode IGNORECASE on a literal: the ASCII letter of the other case,
    and for the letter i the two dotted and dotless forms U+0130, U+0131.
    (The letters k and s, which also have non-ASCII partners, are not used
    by any IGNORECASE pattern here but are given their partners too.) *)
Definition lower_ascii (c : char) : char :=
  if (65 <=? c) && (c <=? 90) then c + 32 else c.

Definition eq_ic (c x : char) : bool :=
  let lc := lower_ascii c in
  (lower_ascii x =? lc)
  || ((lc =? 105) && ((x =? 0x130) || (x =? 0x131)))
  || ((lc =? 107) && (x =? 0x212A))
  || ((lc =? 115) && (x =? 0x17F)).

Definition dec_hi (hi : option nat) : option nat := Nat.pred <$> hi.

Definition hi_open (hi : option nat) : bool :=
  match hi with Some O => false | _ => true end.

Definition or_else {A} (x y : option A) : option A :=
  match x with Some _ => x | None => y end.

Section Matcher.
Context {A : Type}.

(** [p{lo,hi}] (greedy) or [p{lo,hi}?] (lazy) followed by [k]. *)
Fixpoint rep (p : char -> bool) (greedy : bool) (lo : nat) (hi : option nat)
    (pos : nat) (s : str) (k : nat -> str -> option A) : option A :=
  let stop := match lo with O => k pos s | S _ => None end in
  let more :=
    match s with
    | c :: s' =>
        if p c && hi_open hi
        then rep p greedy (Nat.pred lo) (dec_hi hi) (S pos) s' k
        else None
    | [] => None
    end in
  if greedy then or_else more stop else or_else stop more.

Definition one (p : char -> bool) (pos : nat) (s : str) (g : caps)
    (k : nat -> str -> caps -> option A) : option A :=
  match s with
  | c :: s' => if p c then k (S pos) s' g else None
  | [] => None
  end.

(** [m r pos s g k]: match [r] at offset [pos], where [s] is the rest of
    the subject, then continue with [k]. *)
Fixpoint m (r : re) (pos : nat) (s : str) (g : caps)
    (k : nat -> str -> caps -> option A) : option A :=
  match r with
  | Eps => k pos s g
  | Chr c => one (N.eqb c) pos s g k
  | ChrI c => one (eq_ic c) pos s g k
  | Cls p => one p pos s g k
  | Seq a b => m a pos s g (fun pos' s' g' => m b pos' s' g' k)
  | Opt a => or_else (m a pos s g k) (k pos s g)
  | Rep p lo hi greedy => rep p greedy lo hi pos s (fun pos' s' => k pos' s' g)
  | Grp i a => m a pos s g (fun pos' s' g' => k pos' s' ((i, take (pos' - pos) s) :: g'))
  | Bol => if Nat.eqb pos 0 then k pos s g else None
  | Eol => match s with
           | [] => k pos s g
           | [10] => k pos s g
           | _ => None
           end
  end.

End Matcher.

(** A match of [r] starting at offset [pos]: the length matched and the
    groups, group 0 being the whole match. *)
Definition match_at (r : re) (pos : nat) (s : str) : option (nat * caps) :=
  m r pos s [] (fun pos' _ g => Some ((pos' - pos)%nat, (0%nat, take (pos' - pos) s) :: g)).

(** [re.match(r, s)] *)
Definition match_ (r : re) (s : str) : option caps := snd <$> match_at r 0 s.

(** [re.search(r, s)] from offset [pos]: start offset and groups of the
    leftmost match. *)
Fixpoint search_from (r : re) (pos : nat) (s : str) : option (nat * caps) :=
  match match_at r pos s with
  | Some (_, g) => Some (pos, g)
  | None =>
      match s with
      | [] => None
      | _ :: s' => search_from r (S pos) s'
      end
  end.

Definition search (r : re) (s : str) : option (nat * caps) := search_from r 0 s.

(** The scanning functions below are used with patterns that start with a
    literal character and so never match the empty string; a match of
    length zero is passed over as no match. [skip] counts the characters
    of the current match still to be consumed. *)

(** [re.sub(r, repl, s, count)]; [count = None] is no limit. *)
Fixpoint sub_go (r : re) (repl : caps -> str) (count : option nat)
    (pos skip : nat) (s : str) : str :=
  match s with
  | [] => []
  | c :: s' =>
      match skip with
      | S skip' => sub_go r repl count (S pos) skip' s'
      | O =>
          match (if hi_open count then match_at r pos s else None) with
          | Some (S n, g) => repl g ++ sub_go r repl (dec_hi count) (S pos) n s'
          | _ => c :: sub_go r repl count (S pos) 0 s'
          end
      end
  end.

Definition sub (r : re) (repl : caps -> str) (s : str) : str :=
  sub_go r repl None 0 0 s.

Definition sub_count (r : re) (repl : caps -> str) (count : nat) (s : str) : str :=
  sub_go r repl (Some count) 0 0 s.

(** [re.split(r, s)] for a pattern with one capture group: the pieces
    between the matches, each match contributing its group 1. [cur] is
    the reversed piece being read. *)
Fixpoint split_go (r : re) (pos skip : nat) (cur : str) (s : str) : list str :=
  match s with
  | [] => [reverse cur]
  | c :: s' =>
      match skip with
      | S skip' => split_go r (S pos) skip' cur s'
      | O =>
          match match_at r pos s with
          | Some (S n, g) => reverse cur :: group g 1 :: split_go r (S pos) n [] s'
          | _ => split_go r (S pos) 0 (c :: cur) s'
          end
      end
  end.

Definition split (r : re) (s : str) : list str := split_go r 0 0 [] s.

(** [r.findall(s)] for a pattern with one capture group. *)
Fixpoint findall_go (r : re) (pos skip : nat) (s : str) : list str :=
  match s with
  | [] => []
  | c :: s' =>
      match skip with
      | S skip' => findall_go r (S pos) skip' s'
      | O =>
          match match_at r pos s with
          | Some (S n, g) => group g 1 :: findall_go r (S pos) n s'
          | _ => findall_go r (S pos) 0 s'
          end
      end
  end.

Definition findall (r : re) (s : str) : list str := findall_go r 0 0 s.

(** Pattern builders. *)
Fixpoint seqs (rs : list re) : re :=
  match rs with
  | [] => Eps
  | [r] => r
  | r :: rs' => Seq r (seqs rs')
  end.

Definition lit (s : string) : re := seqs (Chr <$> u s).
Definition litI (s : string) : re := seqs (ChrI <$> u s).

Definition plus (p : char -> bool) : re := Rep p 1 None true.
Definition star (p : char -> bool) : re := Rep p 0 None true.
Definition star_lazy (p : char -> bool) : re := Rep p 0 None false.
Definition times (p : char -> bool) (lo hi : nat) : re := Rep p lo (Some hi) true.

Definition any (c : char) : bool := true.
Definition dot (c : char) : bool := negb (c =? 10).
Definition not_char (x : char) (c : char) : bool := negb (c =? x).

End Re.
Import Re.

(* ===================================================================== *)
(** ** Tables of [ac_parser_encoder.py] *)
(* ===================================================================== *)

Definition PREFIX_BYTE : N := 0x7F.

Definition CHARACTER_MAP_items : list (N * str) :=
  [(0x00, [0xA1]); (0x01, [0xBF]); (0x02, [0xC4]); (0x03, [0xC0]); (0x04, [0xC1]); (0x05, [0xC2]);
   (0x06, [0xC3]); (0x07, [0xC5]); (0x08, [0xC7]); (0x09, [0xC8]); (0x0A, [0xC9]); (0x0B, [0xCA]);
   (0x0C, [0xCB]); (0x0D, [0xCC]); (0x0E, [0xCD]); (0x0F, [0xCE]); (0x10, [0xCF]); (0x11, [0xD0]);
   (0x12, [0xD1]); (0x13, [0xD2]); (0x14, [0xD3]); (0x15, [0xD4]); (0x16, [0xD5]); (0x17, [0xD6]);
   (0x18, [0xD8]); (0x19, [0xD9]); (0x1A, [0xDA]); (0x1B, [0xDB]); (0x1C, [0xDC]); (0x1D, [0xDF]);
   (0x1E, [0xDE]); (0x1F, [0xE0]); (0x20, u " "); (0x21, u "!"); (0x22, [0x22]); (0x23, [0xE1]);
   (0x24, [0xE2]); (0x25, u "%"); (0x26, u "&"); (0x27, u "'"); (0x28, u "("); (0x29, u ")");
   (0x2A, u "~"); (0x2B, [0x2665]); (0x2C, u ","); (0x2D, u "-"); (0x2E, u "."); (0x2F, [0x266A]);
   (0x30, u "0"); (0x31, u "1"); (0x32, u "2"); (0x33, u "3"); (0x34, u "4"); (0x35, u "5");
   (0x36, u "6"); (0x37, u "7"); (0x38, u "8"); (0x39, u "9"); (0x3A, u ":"); (0x3B, [0x1F322]);
   (0x3C, u "<"); (0x3D, u "="); (0x3E, u ">"); (0x3F, u "?"); (0x40, u "@"); (0x41, u "A");
   (0x42, u "B"); (0x43, u "C"); (0x44, u "D"); (0x45, u "E"); (0x46, u "F"); (0x47, u "G");
   (0x48, u "H"); (0x49, u "I"); (0x4A, u "J"); (0x4B, u "K"); (0x4C, u "L"); (0x4D, u "M");
   (0x4E, u "N"); (0x4F, u "O"); (0x50, u "P"); (0x51, u "Q"); (0x52, u "R"); (0x53, u "S");
   (0x54, u "T"); (0x55, u "U"); (0x56, u "V"); (0x57, u "W"); (0x58, u "X"); (0x59, u "Y");
   (0x5A, u "Z"); (0x5B, [0xE3]); (0x5C, [0x1F4A2]); (0x5D, [0xE4]); (0x5E, [0xE5]); (0x5F, u "_");
   (0x60, [0xE7]); (0x61, u "a"); (0x62, u "b"); (0x63, u "c"); (0x64, u "d"); (0x65, u "e");
   (0x66, u "f"); (0x67, u "g"); (0x68, u "h"); (0x69, u "i"); (0x6A, u "j"); (0x6B, u "k");
   (0x6C, u "l"); (0x6D, u "m"); (0x6E, u "n"); (0x6F, u "o"); (0x70, u "p"); (0x71, u "q");
   (0x72, u "r"); (0x73, u "s"); (0x74, u "t"); (0x75, u "u"); (0x76, u "v"); (0x77, u "w");
   (0x78, u "x"); (0x79, u "y"); (0x7A, u "z"); (0x7B, [0xE8]); (0x7C, [0xE9]); (0x7D, [0xEA]);
   (0x7E, [0xEB]); (0x81, [0xEC]); (0x82, [0xED]); (0x83, [0xEE]); (0x84, [0xEF]);
   (0x85, [0x2022]); (0x86, [0xF0]); (0x87, [0xF1]); (0x88, [0xF2]); (0x89, [0xF3]);
   (0x8A, [0xF4]); (0x8B, [0xF5]); (0x8C, [0xF6]); (0x8D, [0x2070]); (0x8E, [0xF9]);
   (0x8F, [0xFA]); (0x90, [0x30FC]); (0x91, [0xFB]); (0x92, [0xFC]); (0x93, [0xFD]);
   (0x94, [0xFF]); (0x95, [0xFE]); (0x96, [0xDD]); (0x97, [0xA6]); (0x98, [0xA7]);
   (0x99, [0x61; 0x331]); (0x9A, [0x6F; 0x331]); (0x9B, [0x2016]); (0x9C, [0xB5]); (0x9D, [0xB3]);
   (0x9E, [0xB2]); (0x9F, [0xB9]); (0xA0, [0xAF]); (0xA1, [0xAC]); (0xA2, [0xC6]); (0xA3, [0xE6]);
   (0xA4, [0x201E]); (0xA5, [0xBB]); (0xA6, [0xAB]); (0xA7, [0x2600]); (0xA8, [0x2601]);
   (0xA9, [0x2602]); (0xAA, [0x1F32C]); (0xAB, [0x2603]); (0xAE, u "/"); (0xAF, [0x221E]);
   (0xB0, [0x25CB]); (0xB1, [0x1F5D9]); (0xB2, [0x25A1]); (0xB3, [0x25B3]); (0xB4, u "+");
   (0xB5, [0x26A1]); (0xB6, [0x2642]); (0xB7, [0x2640]); (0xB8, [0x1F340]); (0xB9, [0x2605]);
   (0xBA, [0x1F480]); (0xBB, [0x1F62E]); (0xBC, [0x1F604]); (0xBD, [0x1F623]); (0xBE, [0x1F620]);
   (0xBF, [0x1F603]); (0xC0, [0xD7]); (0xC1, [0xF7]); (0xC2, [0x1F528]); (0xC3, [0x1F380]);
   (0xC4, [0x2709]); (0xC5, [0x1F4B0]); (0xC6, [0x1F43E]); (0xC7, [0x1F436]); (0xC8, [0x1F431]);
   (0xC9, [0x1F430]); (0xCA, [0x1F426]); (0xCB, [0x1F42E]); (0xCC, [0x1F437]); (0xCD, [0xA]);
   (0xCE, [0x1F41F]); (0xCF, [0x1F41E]); (0xD0, u ";"); (0xD1, u "#")].

Definition CONTROL_CODES_items : list (N * str) :=
  [(0x00, u "<End Conversation>"); (0x01, u "<Continue>"); (0x02, u "<Clear Text>");
   (0x03, u "<Pause [{:02X}]>"); (0x04, u "<Press A>"); (0x05, u "<Color Line [{:06X}]>");
   (0x06, u "<Instant Skip>"); (0x07, u "<Unskippable>");
   (0x08, u "<Player Emotion [{:02X}] [{}]>"); (0x09, u "<NPC Expression [Cat:{:02X}] [{}]>");
   (0x0A, u "<Set Demo Order [{:02X}, {:02X}, {:02X}]>");
   (0x0B, u "<Set Demo Order [{:02X}, {:02X}, {:02X}]>");
   (0x0C, u "<Set Demo Order [{:02X}, {:02X}, {:02X}]>"); (0x0D, u "<Open Choice Menu>");
   (0x0E, u "<Set Jump [{:04X}]>"); (0x0F, u "<Choice 1 Jump [{:04X}]>");
   (0x10, u "<Choice 2 Jump [{:04X}]>"); (0x11, u "<Choice 3 Jump [{:04X}]>");
   (0x12, u "<Choice 4 Jump [{:04X}]>"); (0x13, u "<Rand Jump 2 [{:04X}, {:04X}]>");
   (0x14, u "<Rand Jump 3 [{:04X}, {:04X}, {:04X}]>");
   (0x15, u "<Rand Jump 4 [{:04X}, {:04X}, {:04X}, {:04X}]>");
   (0x16, u "<Set 2 Choices [{:04X}, {:04X}]>");
   (0x17, u "<Set 3 Choices [{:04X}, {:04X}, {:04X}]>");
   (0x18, u "<Set 4 Choices [{:04X}, {:04X}, {:04X}, {:04X}]>"); (0x19, u "<Force Dialog Switch>");
   (0x1A, u "<Player Name>"); (0x1B, u "<NPC Name>"); (0x1C, u "<Catchphrase>");
   (0x1D, u "<Year>"); (0x1E, u "<Month>"); (0x1F, u "<Day of Week>"); (0x20, u "<Day>");
   (0x21, u "<Hour>"); (0x22, u "<Minute>"); (0x23, u "<Second>"); (0x24, u "<String 0>");
   (0x25, u "<String 1>"); (0x26, u "<String 2>"); (0x27, u "<String 3>"); (0x28, u "<String 4>");
   (0x2F, u "<Town Name>"); (0x50, u "<Color [{:06X}] for [{:02X}] chars>");
   (0x53, u "<Line Type [{:02X}]>"); (0x54, u "<Char Size [{:04X}]>");
   (0x56, u "<Play Music [{}] [{}]>"); (0x57, u "<Stop Music [{}] [{}]>");
   (0x59, u "<Play Sound Effect [{}]>"); (0x5A, u "<Line Size [{:04X}]>"); (0x76, u "<AM/PM>");
   (0x4C, u "<Angry Voice>")].

Definition CODE_ARG_COUNT_items : list (N * nat) :=
  [(0x03, 1%nat); (0x05, 3%nat); (0x08, 3%nat); (0x09, 3%nat); (0x0A, 3%nat); (0x0B, 3%nat);
   (0x0C, 3%nat); (0x0E, 2%nat); (0x0F, 2%nat); (0x10, 2%nat); (0x11, 2%nat); (0x12, 2%nat);
   (0x13, 4%nat); (0x14, 6%nat); (0x15, 8%nat); (0x16, 4%nat); (0x17, 6%nat); (0x18, 8%nat);
   (0x50, 4%nat); (0x53, 1%nat); (0x54, 2%nat); (0x56, 2%nat); (0x57, 2%nat); (0x59, 1%nat);
   (0x5A, 2%nat)].

Definition EXPRESSION_MAP_items : list (N * str) :=
  [(0x00, u "None?"); (0x01, u "Glare"); (0x02, u "Shocked"); (0x03, u "Laugh");
   (0x04, u "Surprised"); (0x05, u "Angry"); (0x06, u "Excited"); (0x07, u "Worried");
   (0x08, u "Scared"); (0x09, u "Cry"); (0x0A, u "Happy"); (0x0B, u "Wondering"); (0x0C, u "Idea");
   (0x0D, u "Sad"); (0x0E, u "Happy Dance"); (0x0F, u "Thinking"); (0x10, u "Depressed");
   (0x11, u "Heartbroken"); (0x12, u "Sinister"); (0x13, u "Tired"); (0x14, u "Love");
   (0x15, u "Smile"); (0x16, u "Scowl"); (0x17, u "Frown"); (0x18, u "Laughing (Sitting)");
   (0x19, u "Shocked (Sitting)"); (0x1A, u "Idea (Sitting)"); (0x1B, u "Surprised (Sitting)");
   (0x1C, u "Angry (Sitting)"); (0x1D, u "Smile (Sitting)"); (0x1E, u "Frown (Sitting)");
   (0x1F, u "Wondering (Sitting)"); (0x20, u "Salute"); (0x21, u "Angry (Resetti)");
   (0x22, u "Reset Expressions (Resetti)"); (0x23, u "Sad (Resetti)");
   (0x24, u "Excitement (Resetti)"); (0x25, u "Jaw Drop (Resetti)"); (0x26, u "Annoyed (Resetti)");
   (0x27, u "Furious (Resetti)"); (0x28, u "Surprised (K.K.)"); (0x29, u "Fortune");
   (0x2A, u "Smile (Resetti)"); (0xFD, u "Reset Expressions (K.K.)");
   (0xFE, u "Reset Expressions (Sitting)"); (0xFF, u "Reset Expressions")].

Definition MUSIC_TRANSITIONS_items : list (N * str) :=
  [(0x00, u "None"); (0x01, u "Undetermined"); (0x02, u "Fade")].

Definition SOUNDEFFECT_LIST_items : list (N * str) :=
  [(0x00, u "Bell Transaction"); (0x01, u "Happy"); (0x02, u "Very Happy"); (0x03, u "Variable 0");
   (0x04, u "Variable 1"); (0x05, u "Annoyed"); (0x06, u "Thunder"); (0x07, u "None")].

Definition MUSIC_LIST_items : list (N * str) :=
  [(0x00, u "Silence"); (0x01, u "Arriving in Town"); (0x02, u "House Selection");
   (0x03, u "House Selected"); (0x04, u "House Selected (2)"); (0x05, u "Resetti");
   (0x06, u "Current Hourly Music"); (0x07, u "Resetti (2)"); (0x08, u "Don Resetti")].

Definition PLAYER_EMOTIONS_items : list (N * str) :=
  [(0x02, u "Surprised"); (0xFD, u "Purple Mist"); (0xFE, u "Scared"); (0xFF, u "Reset Emotion")].

Definition CHARACTER_MAP : gmap N str := dict CHARACTER_MAP_items.
Definition CONTROL_CODES : gmap N str := dict CONTROL_CODES_items.
Definition CODE_ARG_COUNT : gmap N nat := dict CODE_ARG_COUNT_items.
Definition EXPRESSION_MAP : gmap N str := dict EXPRESSION_MAP_items.
Definition MUSIC_TRANSITIONS : gmap N str := dict MUSIC_TRANSITIONS_items.
Definition SOUNDEFFECT_LIST : gmap N str := dict SOUNDEFFECT_LIST_items.
Definition MUSIC_LIST : gmap N str := dict MUSIC_LIST_items.
Definition PLAYER_EMOTIONS : gmap N str := dict PLAYER_EMOTIONS_items.

(** [{v: k for k, v in CHARACTER_MAP.items()}] *)
Definition REVERSE_CHARACTER_MAP : gmap str N :=
  dict ((fun kv => (kv.2, kv.1)) <$> CHARACTER_MAP_items).

(** The pattern [\[.*?\]] that blanks the bracketed arguments of a tag. *)
Definition bracket_re : re := seqs [Chr 91; star_lazy dot; Chr 93].

Definition blank_args (s : str) : str := sub bracket_re (fun _ => u "[{}]") s.

(** [{re.sub(r'\[.*?\]', '[{}]', v): k for k, v in CONTROL_CODES.items()}]
    followed by the two-entry [update]. *)
Definition REVERSE_CONTROL_CODES : gmap str N :=
  dict (((fun kv => (blank_args kv.2, kv.1)) <$> CONTROL_CODES_items) ++
        [(u "<NPC Expression [{}] [{}]>", 0x09); (u "<Player Emotion [{}] [{}]>", 0x08)]).

Definition FEELING_CHATTY_LABEL : str := u "Feeling chatty".

(* ===================================================================== *)
(** ** Normalisation and sanitisation *)
(* ===================================================================== *)

Definition sp : re := plus isspace.
Definition hex (lo hi : nat) : re := times is_hex lo hi.

(** [m.group(i).upper().zfill(w)] *)
Definition hexarg (g : caps) (i w : nat) : str := zfill w (upper (group g i)).

(** The patterns of [_normalize_control_tags], in the order they are applied. *)
Definition closing_tag_re : re := seqs [Chr 60; Chr 47; plus (not_char 62); Chr 62].

Definition npc_expression_re : re :=
  seqs [lit "<NPC"; sp; lit "Expression"; sp; Opt (Chr 91); Opt (lit "Cat:");
        Grp 1 (hex 1 2); Opt (Chr 93); sp; Opt (Chr 91); Grp 2 (hex 1 4); Opt (Chr 93); Chr 62].

Definition player_emotion_re : re :=
  seqs [lit "<Player"; sp; lit "Emotion"; sp; Opt (Chr 91);
        Grp 1 (hex 1 2); Opt (Chr 93); sp; Opt (Chr 91); Grp 2 (hex 1 4); Opt (Chr 93); Chr 62].

(** [<(name)\s+([0-9A-Fa-f]{1,w})>] *)
Definition bare_arg_re (name : string) (w : nat) : re :=
  seqs [Chr 60; Grp 1 (lit name); sp; Grp 2 (hex 1 w); Chr 62].

Definition color_for_re : re :=
  seqs [lit "<Color"; sp; Opt (Chr 91); Grp 1 (hex 6 6); Opt (Chr 93); sp; lit "for"; sp;
        Opt (Chr 91); Grp 2 (hex 1 2); Opt (Chr 93); Chr 62].

Definition color_for_chars_re : re :=
  seqs [lit "<Color"; sp; Opt (Chr 91); Grp 1 (hex 6 6); Opt (Chr 93); sp; lit "for"; sp;
        Opt (Chr 91); Grp 2 (hex 1 2); Opt (Chr 93); sp; lit "char"; Opt (Chr 115); Chr 62].

Definition color_line_re : re :=
  seqs [lit "<Color"; sp; lit "Line"; sp; Opt (Chr 91); Grp 1 (hex 6 6); Opt (Chr 93); Chr 62].

Definition color_bare_re : re := seqs [lit "<Color"; sp; Grp 1 (hex 6 6); Chr 62].

Definition color_bracket_re : re :=
  seqs [lit "<Color"; sp; Chr 91; Grp 1 (hex 6 6); Chr 93; Chr 62].

Definition two_args (name : string) (g : caps) : str :=
  u "<" ++ u name ++ u " [" ++ hexarg g 1 2 ++ u "] [" ++ hexarg g 2 4 ++ u "]>".

Definition one_arg (name : string) (w : nat) (g : caps) : str :=
  u "<" ++ u name ++ u " [" ++ hexarg g 2 w ++ u "]>".

Definition color_for_repl (g : caps) : str :=
  u "<Color [" ++ upper (group g 1) ++ u "] for [" ++ hexarg g 2 2 ++ u "] chars>".

Definition color_line_repl (g : caps) : str :=
  u "<Color Line [" ++ upper (group g 1) ++ u "]>".

Definition _normalize_control_tags (text : str) : str :=
  let text := sub closing_tag_re (fun _ => []) text in
  let text := sub npc_expression_re (two_args "NPC Expression") text in
  let text := sub player_emotion_re (two_args "Player Emotion") text in
  let text := sub (bare_arg_re "Pause" 2) (one_arg "Pause" 2) text in
  let text := sub (bare_arg_re "Line Type" 2) (one_arg "Line Type" 2) text in
  let text := sub (bare_arg_re "Play Sound Effect" 2) (one_arg "Play Sound Effect" 2) text in
  let text := sub (bare_arg_re "Char Size" 4) (one_arg "Char Size" 4) text in
  let text := sub (bare_arg_re "Line Size" 4) (one_arg "Line Size" 4) text in
  let text := sub color_for_re color_for_repl text in
  let text := sub color_for_chars_re color_for_repl text in
  let text := sub color_line_re color_line_repl text in
  let text := sub color_bare_re color_line_repl text in
  let text := sub color_bracket_re color_line_repl text in
  text.

(** The [replacements] of [_normalize_visible_text], in dictionary order. *)
Definition replacements : list (char * str) :=
  [(0x2019, u "'"); (0x2018, u "'"); (0x201C, [0x22]); (0x201D, [0x22]);
   (0x2014, u "-"); (0x2013, u "-"); (0x2026, u "..."); (0xA0, u " ")].

Definition _normalize_visible_text (text : str) : str :=
  foldl (fun text sd => replace sd.1 sd.2 text) text replacements.

Definition keeps (ch : char) : bool :=
  (ch =? 10) || bool_decide (is_Some (REVERSE_CHARACTER_MAP !! [ch]))
  || ((32 <=? ch) && (ch <? 127)).

Definition _sanitize_for_charset (text : str) : str := filter (fun ch => keeps ch = true) text.

(* ===================================================================== *)
(** ** [parse_ac_text] *)
(* ===================================================================== *)

(** What one turn of the [while] loop decides. *)
Inductive ctl :=
| Next (i : nat) (text_buffer : list str)      (* go on at index i *)
| Break (text_buffer : list str).

Definition code_placeholder (command : N) : str := u "<Code 0x" ++ fmt_0X 2 command ++ u ">".
Definition malformed (command : N) : str := u "<Malformed Code 0x" ++ fmt_0X 2 command ++ u ">".
Definition glyph_placeholder (byte : N) : str := u "[?" ++ fmt_0X 2 byte ++ u "]".

(** [range(0, n, 2)] *)
Definition range2 (n : nat) : list nat := (fun k => 2 * k)%nat <$> seq 0 (Nat.div2 (S n)).

(** The [if]/[elif] chain that builds [args_tuple]. *)
Definition args_tuple_of (command : N) (num_args : nat) (args_bytes : bytes) : res (list pyval) :=
  if (command =? 0x08) || (command =? 0x09) then
    first_arg ← index args_bytes 0;
    val ← unpack_H (slice args_bytes 1 3);
    let name :=
      if command =? 0x09
      then default (u "Unknown_" ++ fmt_0X 4 val) (EXPRESSION_MAP !! val)
      else default (u "Unknown_Emotion_" ++ fmt_0X 4 val) (PLAYER_EMOTIONS !! val) in
    Ok [VInt first_arg; VStr name]
  else if (command =? 0x56) || (command =? 0x57) then
    music_id ← index args_bytes 0;
    transition_type ← index args_bytes 1;
    let music_name := default (u "Unknown_Music_" ++ fmt_0X 2 music_id) (MUSIC_LIST !! music_id) in
    let transition_name :=
      default (u "Unknown_Transition_" ++ fmt_0X 2 transition_type)
              (MUSIC_TRANSITIONS !! transition_type) in
    Ok [VStr music_name; VStr transition_name]
  else if Nat.eqb num_args 1 then
    if command =? 0x59 then
      sound_id ← index args_bytes 0;
      Ok [VStr (default (u "Unknown_Sound_" ++ fmt_0X 2 sound_id) (SOUNDEFFECT_LIST !! sound_id))]
    else
      a ← index args_bytes 0; Ok [VInt a]
  else if Nat.eqb num_args 2 then
    v ← unpack_H args_bytes; Ok [VInt v]
  else if Nat.eqb num_args 3 && (command =? 0x05) then
    Ok [VInt (from_bytes args_bytes)]
  else if Nat.eqb num_args 3 then
    a ← index args_bytes 0; b ← index args_bytes 1; c ← index args_bytes 2;
    Ok [VInt a; VInt b; VInt c]
  else if Nat.eqb num_args 4 && (command =? 0x50) then
    d ← index args_bytes 3;
    Ok [VInt (from_bytes (slice args_bytes 0 3)); VInt d]
  else
    mapM (fun j => v ← unpack_H (slice args_bytes j (j + 2)); Ok (VInt v)) (range2 num_args).

(** [try: desc.format(...) except (TypeError, IndexError): desc] *)
Definition format_or_desc (desc : str) (args_tuple : list pyval) : res str :=
  match format desc args_tuple with
  | Raise TypeError | Raise IndexError => Ok desc
  | r => r
  end.

(** The body of the [while] loop at index [i < len(data)]. *)
Definition parse_step (data : bytes) (i : nat) (text_buffer : list str) : res ctl :=
  byte ← index data i;
  if byte =? 0x00 then Ok (Break text_buffer)
  else if byte =? PREFIX_BYTE then
    let i := S i in
    if (length data <=? i)%nat then Ok (Break text_buffer)
    else
      command ← index data i;
      if command =? 0x00 then
        match CONTROL_CODES !! command with
        | Some desc => Ok (Break (text_buffer ++ [desc]))
        | None => Raise KeyError
        end
      else
        let desc := default (code_placeholder command) (CONTROL_CODES !! command) in
        let num_args := default 0%nat (CODE_ARG_COUNT !! command) in
        if (0 <? num_args)%nat then
          let args_bytes := slice data (i + 1) (i + 1 + num_args) in
          if (length args_bytes <? num_args)%nat then
            Ok (Next (i + (1 + length args_bytes)) (text_buffer ++ [malformed command]))
          else
            args_tuple ← args_tuple_of command num_args args_bytes;
            t ← format_or_desc desc args_tuple;
            Ok (Next (i + num_args + 1) (text_buffer ++ [t]))
        else Ok (Next (i + 1) (text_buffer ++ [desc]))
  else
    let char := default (glyph_placeholder byte) (CHARACTER_MAP !! byte) in
    Ok (Next (i + 1) (text_buffer ++ [char])).

(** [while i < len(data): ...] *)
Fixpoint parse_loop (fuel : nat) (data : bytes) (i : nat) (text_buffer : list str)
    : res (list str) :=
  if (i <? length data)%nat then
    match fuel with
    | O => Fuel
    | S fuel' =>
        c ← parse_step data i text_buffer;
        match c with
        | Next i' text_buffer' => parse_loop fuel' data i' text_buffer'
        | Break text_buffer' => Ok text_buffer'
        end
    end
  else Ok text_buffer.

Definition parse_ac_text (data : bytes) : res str :=
  text_buffer ← parse_loop (length data) data 0 [];
  Ok (concat text_buffer).

(* ===================================================================== *)
(** ** [encode_ac_text] *)
(* ===================================================================== *)

Definition tag_re : re := seqs [Grp 1 (seqs [Chr 60; plus (not_char 62); Chr 62])].

Definition arg_pattern : re :=
  seqs [Chr 91; star_lazy (not_char 93); Grp 1 (hex 1 6); Chr 93].

(** The bytes of a recognised tag: prefix, opcode, packed arguments. *)
Definition encode_args (command_byte : N) (args : list N) : res bytes :=
  let num_args_expected := default 0%nat (CODE_ARG_COUNT !! command_byte) in
  if (0 <? num_args_expected)%nat then
    if Nat.eqb num_args_expected 1 then
      a ← index args 0; pack_B a
    else if Nat.eqb num_args_expected 2 then
      a ← index args 0; pack_H a
    else if Nat.eqb num_args_expected 3 && (command_byte =? 0x05) then
      a ← index args 0; to_bytes3 a
    else if Nat.eqb num_args_expected 3 && ((command_byte =? 0x08) || (command_byte =? 0x09)) then
      a ← index args 0; x ← pack_B a;
      b ← index args 1; y ← pack_H b;
      Ok (x ++ y)
    else if Nat.eqb num_args_expected 4 && (command_byte =? 0x50) then
      a ← index args 0; x ← to_bytes3 a;
      b ← index args 1; y ← pack_B b;
      Ok (x ++ y)
    else
      foldl (fun acc arg => ab ← acc; y ← pack_H arg; Ok (ab ++ y)) (Ok []) args
  else Ok [].

Definition encode_tag (token : str) : res bytes :=
  let args := int16 <$> findall arg_pattern token in
  let base_tag := blank_args token in
  match REVERSE_CONTROL_CODES !! base_tag with
  | Some command_byte =>
      arg_bytes ← encode_args command_byte args;
      Ok ([PREFIX_BYTE; command_byte] ++ arg_bytes)
  | None => Ok []
  end.

(** [for char in word: ...] on the pair (encoded, char_count). *)
Definition encode_char (st : bytes * nat) (char : char) : bytes * nat :=
  match REVERSE_CHARACTER_MAP !! [char] with
  | Some byte_val => (st.1 ++ [byte_val], if char =? 10 then 0%nat else S st.2)
  | None => st
  end.

(** One turn of [for word_idx, word in enumerate(words)]. *)
Definition encode_word (st : bytes * nat) (word_idx : nat) (word : str) : bytes * nat :=
  let '(encoded, char_count) := st in
  let word_length := length word in
  let space_needed := if (0 <? word_idx)%nat && (0 <? char_count)%nat then 1%nat else 0%nat in
  let '(encoded, char_count, space_needed) :=
    if (0 <? char_count)%nat && (30 <? char_count + space_needed + word_length)%nat
    then (encoded ++ [0xCD], 0%nat, 0%nat)
    else (encoded, char_count, space_needed) in
  let '(encoded, char_count) :=
    if (0 <? space_needed)%nat then (encoded ++ [0x20], S char_count) else (encoded, char_count) in
  foldl encode_char (encoded, char_count) word.

Definition encode_literal (st : bytes * nat) (token : str) : bytes * nat :=
  let words := Py.split 32 token in
  foldl (fun st iw => encode_word st iw.1 iw.2) st (imap (fun i w => (i, w)) words).

(** One turn of [for token in tokens]. *)
Definition encode_token (st : bytes * nat) (token : str) : res (bytes * nat) :=
  match token with
  | [] => Ok st
  | _ =>
      if startswith (u "<") token && endswith (u ">") token then
        b ← encode_tag token; Ok (st.1 ++ b, st.2)
      else Ok (encode_literal st token)
  end.

Definition encode_ac_text (text : str) : res bytes :=
  let text := _sanitize_for_charset (_normalize_visible_text (_normalize_control_tags text)) in
  let tokens := Re.split tag_re text in
  st ← foldl (fun acc token => st ← acc; encode_token st token) (Ok ([], 0%nat)) tokens;
  Ok (st.1 ++ [0x00]).

(* ===================================================================== *)
(** ** The menu option and [ConversationState] *)
(* ===================================================================== *)

Definition _CONTROL_TAG_RE : re := seqs [Chr 60; plus (not_char 62); Chr 62].

(** [(<Open Choice Menu>)([\s\S]*?)(<Choice 1 Jump \[[0-9A-F]{4}\]>)] under
    IGNORECASE, where the class [0-9A-F] is the class of both cases. *)
Definition open_menu_re : re := litI "<Open Choice Menu>".
Definition choice_one_jump_re : re :=
  seqs [litI "<Choice 1 Jump "; Chr 91; hex 4 4; Chr 93; Chr 62].

Definition _CHOICE_ONE_PATTERN : re :=
  seqs [Grp 1 open_menu_re; Grp 2 (star_lazy any); Grp 3 choice_one_jump_re].

Definition _strip_control_codes (text : str) : str := sub _CONTROL_TAG_RE (fun _ => []) text.

Definition leading_ws_re : re := seqs [Bol; star isspace].
Definition trailing_ws_re : re := seqs [star isspace; Eol].

(** [re.match(r"^\s*", between)] and its [group(0)] *)
Definition leading_ws_of (between : str) : str :=
  match match_ leading_ws_re between with Some h => group h 0 | None => [] end.

(** [re.search(r"\s*$", between)] and its [group(0)] *)
Definition trailing_ws_of (between : str) : str :=
  match search trailing_ws_re between with Some (_, h) => group h 0 | None => [] end.

Definition _replacement (g : caps) : str :=
  let between := group g 2 in
  let leading_ws := leading_ws_of between in
  let trailing_ws := trailing_ws_of between in
  group g 1 ++ leading_ws ++ FEELING_CHATTY_LABEL ++ trailing_ws ++ group g 3.

Definition _inject_feeling_chatty_option (text : str) : option str :=
  match search _CHOICE_ONE_PATTERN text with
  | None => None
  | Some _ => Some (sub_count _CHOICE_ONE_PATTERN _replacement 1 text)
  end.

Definition END_CONVERSATION : str := u "<End Conversation>".
Definition OPEN_CHOICE_MENU : str := u "<Open Choice Menu>".

Record ConversationState := {
  lines_seen : nat;
  last_visible_text : option str;
  ready_for_chatty : bool;
  menu_injected : bool;
  awaiting_choice_resolution : bool;
  chatty_requested : bool;
  menu_skip_logged : bool;
}.

(** The dataclass defaults, which [reset] restores. *)
Definition reset : ConversationState :=
  {| lines_seen := 0; last_visible_text := None; ready_for_chatty := false;
     menu_injected := false; awaiting_choice_resolution := false;
     chatty_requested := false; menu_skip_logged := false |}.

Definition set_lines_seen (v : nat) (s : ConversationState) :=
  {| lines_seen := v; last_visible_text := last_visible_text s;
     ready_for_chatty := ready_for_chatty s; menu_injected := menu_injected s;
     awaiting_choice_resolution := awaiting_choice_resolution s;
     chatty_requested := chatty_requested s; menu_skip_logged := menu_skip_logged s |}.
Definition set_last_visible_text (v : option str) (s : ConversationState) :=
  {| lines_seen := lines_seen s; last_visible_text := v;
     ready_for_chatty := ready_for_chatty s; menu_injected := menu_injected s;
     awaiting_choice_resolution := awaiting_choice_resolution s;
     chatty_requested := chatty_requested s; menu_skip_logged := menu_skip_logged s |}.
Definition set_ready_for_chatty (v : bool) (s : ConversationState) :=
  {| lines_seen := lines_seen s; last_visible_text := last_visible_text s;
     ready_for_chatty := v; menu_injected := menu_injected s;
     awaiting_choice_resolution := awaiting_choice_resolution s;
     chatty_requested := chatty_requested s; menu_skip_logged := menu_skip_logged s |}.
Definition set_menu_injected (v : bool) (s : ConversationState) :=
  {| lines_seen := lines_seen s; last_visible_text := last_visible_text s;
     ready_for_chatty := ready_for_chatty s; menu_injected := v;
     awaiting_choice_resolution := awaiting_choice_resolution s;
     chatty_requested := chatty_requested s; menu_skip_logged := menu_skip_logged s |}.
Definition set_awaiting_choice_resolution (v : bool) (s : ConversationState) :=
  {| lines_seen := lines_seen s; last_visible_text := last_visible_text s;
     ready_for_chatty := ready_for_chatty s; menu_injected := menu_injected s;
     awaiting_choice_resolution := v;
     chatty_requested := chatty_requested s; menu_skip_logged := menu_skip_logged s |}.
Definition set_chatty_requested (v : bool) (s : ConversationState) :=
  {| lines_seen := lines_seen s; last_visible_text := last_visible_text s;
     ready_for_chatty := ready_for_chatty s; menu_injected := menu_injected s;
     awaiting_choice_resolution := awaiting_choice_resolution s;
     chatty_requested := v; menu_skip_logged := menu_skip_logged s |}.
Definition set_menu_skip_logged (v : bool) (s : ConversationState) :=
  {| lines_seen := lines_seen s; last_visible_text := last_visible_text s;
     ready_for_chatty := ready_for_chatty s; menu_injected := menu_injected s;
     awaiting_choice_resolution := awaiting_choice_resolution s;
     chatty_requested := chatty_requested s; menu_skip_logged := v |}.

(** [if visible != self.last_visible_text: ...], the block shared by the two
    branches of [observe_text] that count a line. *)
Definition count_line (visible : str) (self : ConversationState) : ConversationState :=
  let self := set_last_visible_text (Some visible) self in
  let self := set_lines_seen (S (lines_seen self)) self in
  if (2 <=? lines_seen self)%nat then set_ready_for_chatty true self else self.

Definition observe_text (self : ConversationState) (text : str) : ConversationState :=
  if contains END_CONVERSATION text then reset
  else if awaiting_choice_resolution self && negb (contains OPEN_CHOICE_MENU text) then
    let self := set_awaiting_choice_resolution false self in
    let self := set_menu_injected false self in
    let self := set_menu_skip_logged false self in
    let visible_followup := strip (_strip_control_codes text) in
    match visible_followup with
    | [] => self
    | _ =>
        let self := set_chatty_requested true self in
        if bool_decide (Some visible_followup ≠ last_visible_text self)
        then count_line visible_followup self
        else self
    end
  else if contains OPEN_CHOICE_MENU text then
    if negb (ready_for_chatty self) && (1 <=? lines_seen self)%nat
    then set_ready_for_chatty true self
    else self
  else
    let visible := strip (_strip_control_codes text) in
    match visible with
    | [] => self
    | _ =>
        if bool_decide (Some visible ≠ last_visible_text self)
        then set_menu_skip_logged false (count_line visible self)
        else self
    end.

(* ===================================================================== *)
(** ** The body of [watch_dialogue] *)
(* ===================================================================== *)

(** The loop of [watch_dialogue] is embedded one poll of one address at a
    time. What the collaborators answer during a poll (the transport, the
    clock, the text generator) is the [PollInput] of that poll. Time is a
    [Z]: the program only compares and adds time stamps. The speaker name,
    the screenshot and the gossip context only feed the generator and the
    console output and are not modelled. *)

Module Watch.

(** [d[k]], raising [KeyError] for a missing key. *)
Definition getitem `{Countable K} {V} (d : gmap K V) (k : K) : res V :=
  match d !! k with
  | Some v => Ok v
  | None => Raise KeyError
  end.

Record WatchState := {
  last_text_by_addr : gmap N (option str);
  generation_in_progress : gmap N bool;
  suppress_until_by_addr : gmap N Z;
  conversation_state : gmap N ConversationState;
  lock_held : bool;                    (* GLOBAL_GENERATION_LOCK.locked() *)
}.

Definition set_last_text (addr : N) (v : option str) (ws : WatchState) :=
  {| last_text_by_addr := <[addr := v]> (last_text_by_addr ws);
     generation_in_progress := generation_in_progress ws;
     suppress_until_by_addr := suppress_until_by_addr ws;
     conversation_state := conversation_state ws;
     lock_held := lock_held ws |}.
Definition set_in_progress (addr : N) (v : bool) (ws : WatchState) :=
  {| last_text_by_addr := last_text_by_addr ws;
     generation_in_progress := <[addr := v]> (generation_in_progress ws);
     suppress_until_by_addr := suppress_until_by_addr ws;
     conversation_state := conversation_state ws;
     lock_held := lock_held ws |}.
Definition set_suppress_until (addr : N) (v : Z) (ws : WatchState) :=
  {| last_text_by_addr := last_text_by_addr ws;
     generation_in_progress := generation_in_progress ws;
     suppress_until_by_addr := <[addr := v]> (suppress_until_by_addr ws);
     conversation_state := conversation_state ws;
     lock_held := lock_held ws |}.
Definition set_state (addr : N) (v : ConversationState) (ws : WatchState) :=
  {| last_text_by_addr := last_text_by_addr ws;
     generation_in_progress := generation_in_progress ws;
     suppress_until_by_addr := suppress_until_by_addr ws;
     conversation_state := <[addr := v]> (conversation_state ws);
     lock_held := lock_held ws |}.
Definition set_lock (v : bool) (ws : WatchState) :=
  {| last_text_by_addr := last_text_by_addr ws;
     generation_in_progress := generation_in_progress ws;
     suppress_until_by_addr := suppress_until_by_addr ws;
     conversation_state := conversation_state ws;
     lock_held := v |}.

(** The four dictionaries as [watch_dialogue] creates them, the lock free. *)
Definition init (addresses : list N) : WatchState :=
  {| last_text_by_addr := dict ((fun a => (a, None)) <$> addresses);
     generation_in_progress := dict ((fun a => (a, false)) <$> addresses);
     suppress_until_by_addr := dict ((fun a => (a, 0%Z)) <$> addresses);
     conversation_state := dict ((fun a => (a, reset)) <$> addresses);
     lock_held := false |}.

(** The answers of [memory_ipc] during one [write_dialogue_to_address]. *)
Record Transport := {
  probe_ok : bool;                     (* write_memory(addr, b"") is not False *)
  connect_ok : bool;                   (* connect() *)
  write_ok : bool;                     (* write_memory(addr, encoded_bytes) *)
}.

Inductive event :=
| EvWrite (addr : N) (data : bytes)    (* encoded dialogue handed to the transport *)
| EvGenerate (addr : N).               (* a call of generate_dialogue *)

Definition write_dialogue_to_address (t : Transport) (dialogue : str) (addr : N)
    : res (bool * list event) :=
  if negb (probe_ok t) && negb (connect_ok t) then Ok (false, [])
  else
    encoded_bytes ← encode_ac_text dialogue;
    Ok (write_ok t, [EvWrite addr encoded_bytes]).

Record PollInput := {
  raw : bytes;                         (* read_memory(addr, size); [] when falsy *)
  now_ts : Z;                          (* time.time() before the suppression test *)
  inject_io : Transport;               (* for the write of the menu text *)
  loading_io : Transport;              (* for the write of the loading text *)
  llm_text : res str;                  (* generate_dialogue: a text or an exception *)
  generated_io : Transport;            (* for the write of the generated text *)
  now_written : Z;                     (* time.time() after that write *)
}.

Definition loading_text : str :=
  u ".<Pause [0A]>.<Pause [0A]>.<Pause [0A]><Press A><Clear Text>".

(** How far a poll got when [poll_begin] hands over. *)
Inductive phase :=
| Finished                             (* the poll of this address is over *)
| Calling (text : str).                (* generate_dialogue is being called *)

Section Poll.
Variable print_all : bool.
Variable SUPPRESS_SECONDS : Z.

(** The tail of the loop body when no generation was done:
    [if not did_generate: ...]. *)
Definition not_generated (addr : N) (text : str) (state : ConversationState) (ws : WatchState)
    : WatchState :=
  let ws := set_last_text addr (Some text) ws in
  let state :=
    if contains END_CONVERSATION text then reset
    else if negb (awaiting_choice_resolution state) then set_chatty_requested false state
    else state in
  set_state addr state ws.

(** From [did_generate = False] to the call of the generator, or to the end
    of the poll when no generation is started. *)
Definition generation_gate (inp : PollInput) (addr : N) (text : str)
    (state : ConversationState) (ws : WatchState) (evs : list event)
    : res (WatchState * list event * phase) :=
  let should_generate := chatty_requested state && negb (awaiting_choice_resolution state) in
  if should_generate
     && negb (default false (generation_in_progress ws !! addr))
     && negb (lock_held ws)
  then
    let state := set_chatty_requested false state in
    let ws := set_in_progress addr true ws in
    let ws := set_lock true ws in
    '(_, wevs) ← write_dialogue_to_address (loading_io inp) loading_text addr;
    Ok (set_state addr state ws, evs ++ wevs, Calling text)
  else Ok (not_generated addr text state ws, evs, Finished).

(** The loop body for one address up to the call of the generator. *)
Definition poll_begin (inp : PollInput) (addr : N) (ws : WatchState)
    : res (WatchState * list event * phase) :=
  match raw inp with
  | [] => Ok (ws, [], Finished)
  | _ =>
      text ← parse_ac_text (raw inp);
      last ← getitem (last_text_by_addr ws) addr;
      if print_all || bool_decide (Some text ≠ last) then
        state ← getitem (conversation_state ws) addr;
        let state := observe_text state text in
        if (now_ts inp <? default 0 (suppress_until_by_addr ws !! addr))%Z then
          if contains END_CONVERSATION text
          then Ok (set_state addr reset (set_suppress_until addr 0%Z ws), [], Finished)
          else Ok (set_state addr state (set_last_text addr (Some text) ws), [], Finished)
        else if ready_for_chatty state && contains OPEN_CHOICE_MENU text
                && negb (menu_injected state) then
          match _inject_feeling_chatty_option text with
          | Some modified =>
              if negb (bool_decide (modified = [])) && negb (bool_decide (modified = text)) then
                encoded ← encode_ac_text modified;
                predicted ← parse_ac_text encoded;
                '(ok, wevs) ← write_dialogue_to_address (inject_io inp) modified addr;
                if (ok : bool) then
                  let state := set_menu_injected true state in
                  let state := set_awaiting_choice_resolution true state in
                  Ok (set_state addr state (set_last_text addr (Some predicted) ws),
                      wevs, Finished)
                else generation_gate inp addr text state ws wevs
              else generation_gate inp addr text state ws []
          | None => generation_gate inp addr text state ws []
          end
        else if contains OPEN_CHOICE_MENU text && negb (menu_injected state)
                && negb (ready_for_chatty state) && negb (menu_skip_logged state) then
          generation_gate inp addr text (set_menu_skip_logged true state) ws []
        else generation_gate inp addr text state ws []
      else Ok (ws, [], Finished)
  end.

(** The [try] block around the generator call: [Some] of the state after a
    successful generation, [None] when an exception was caught. *)
Definition generate_and_write (inp : PollInput) (addr : N) (ws : WatchState)
    : res (option (WatchState * list event)) :=
  match
    (combined ← llm_text inp;
     '(_, wevs) ← write_dialogue_to_address (generated_io inp) combined addr;
     encoded_combined ← encode_ac_text combined;
     predicted ← parse_ac_text encoded_combined;
     Ok (set_suppress_until addr (now_written inp + SUPPRESS_SECONDS)%Z
           (set_last_text addr (Some predicted) ws), wevs))
  with
  | Ok r => Ok (Some r)
  | Raise _ => Ok None
  | Fuel => Fuel
  end.

(** From the return of the generator to the end of the poll. *)
Definition poll_finish (inp : PollInput) (addr : N) (text : str) (ws : WatchState)
    : res (WatchState * list event) :=
  r ← generate_and_write inp addr ws;
  let '(ws', evs, did_generate) :=
    match r with
    | Some (ws', evs) => (ws', evs, true)
    | None => (ws, [], false)
    end in
  state ← getitem (conversation_state ws') addr;
  let ws' := set_in_progress addr false ws' in
  let state := set_awaiting_choice_resolution false (set_menu_injected false state) in
  let ws' := set_lock false ws' in
  if did_generate then Ok (set_state addr state ws', evs)
  else Ok (not_generated addr text state ws', evs).

(** One whole turn of [for addr in addresses]. *)
Definition poll (inp : PollInput) (addr : N) (ws : WatchState) : res (WatchState * list event) :=
  '(ws1, evs1, ph) ← poll_begin inp addr ws;
  match ph with
  | Finished => Ok (ws1, evs1)
  | Calling text =>
      '(ws2, evs2) ← poll_finish inp addr text ws1;
      Ok (ws2, evs1 ++ [EvGenerate addr] ++ evs2)
  end.

(** The watch loop between two calls it makes, and inside a generator call. *)
Inductive config :=
| Idle (ws : WatchState)
| Generating (addr : N) (text : str) (ws : WatchState).

Inductive step : config -> config -> Prop :=
| step_poll inp addr ws ws' evs :
    poll_begin inp addr ws = Ok (ws', evs, Finished) ->
    step (Idle ws) (Idle ws')
| step_call inp addr ws ws' evs text :
    poll_begin inp addr ws = Ok (ws', evs, Calling text) ->
    step (Idle ws) (Generating addr text ws')
| step_return inp addr text ws ws' evs :
    poll_finish inp addr text ws = Ok (ws', evs) ->
    step (Generating addr text ws) (Idle ws').

End Poll.

End Watch.

(* ===================================================================== *)
(** ** [_read_dialogue_once] *)
(* ===================================================================== *)

(** [range(0, stop, step)]: Python raises [ValueError] for a zero step. *)
Definition range0 (stop step : Z) : res (list Z) :=
  if (step =? 0)%Z then Raise ValueError
  else
    let n := if (0 <? step)%Z then ((stop + step - 1) / step)%Z
             else ((stop + step + 1) / step)%Z in
    Ok ((fun k => (Z.of_nat k * step)%Z) <$> seq 0 (Z.to_nat n)).

Section ReadOnce.
(** [memory_ipc.read_memory(address, size)]: the bytes read, [[]] for an
    answer that is [None] or empty. *)
Variable read_memory : Z -> Z -> bytes.

(** The [for] loop over the offsets, [full_data] being the bytes read so
    far. *)
Fixpoint read_chunks (target_address : Z) (end_markers : list bytes) (chunk_size : Z)
    (offsets : list Z) (full_data : bytes) : bytes :=
  match offsets with
  | [] => full_data
  | i :: offsets' =>
      match read_memory (target_address + i)%Z chunk_size with
      | [] => full_data
      | chunk =>
          let full_data := full_data ++ chunk in
          if existsb (fun marker => contains marker chunk) end_markers
          then full_data
          else read_chunks target_address end_markers chunk_size offsets' full_data
      end
  end.

Definition _read_dialogue_once (target_address : Z) (end_markers : list bytes)
    (max_size chunk_size : Z) : res bytes :=
  offsets ← range0 max_size chunk_size;
  Ok (read_chunks target_address end_markers chunk_size offsets []).

End ReadOnce.

(* ===================================================================== *)
(** ** [dialogue_prompt.py]: the clean-up of a generated text *)
(* ===================================================================== *)

Module Prompt.

Definition CONTROL_SAFE : list str :=
  [u "<Press A>"; u "<Clear Text>"; u "<Pause [0A]>"; u "<Pause [05]>"; u "<Pause [14]>"].

(** [x[:-1]] *)
Definition but_last (x : str) : str := take (length x - 1) x.

(** [<[^>]{1,40}>] *)
Definition angle_block_re : re := seqs [Chr 60; Rep (not_char 62) 1 (Some 40%nat) true; Chr 62].

Definition repl (g : caps) : str :=
  let frag := group g 0 in
  if existsb (fun x => startswith (but_last x) frag) CONTROL_SAFE then frag else [].

Definition _strip_forbidden_codes (s : str) : str := sub angle_block_re repl s.

(** The line boundaries of [str.splitlines]. *)
Definition is_linebreak (c : char) : bool :=
  (c =? 10) || (c =? 11) || (c =? 12) || (c =? 13) || (c =? 0x1C) || (c =? 0x1D)
  || (c =? 0x1E) || (c =? 0x85) || (c =? 0x2028) || (c =? 0x2029).

(** [s.splitlines()]: a carriage return followed by a line feed is one
    boundary, and no empty last line is produced. [cur] is the reversed
    line being read. *)
Fixpoint splitlines_go (cur : str) (s : str) : list str :=
  match s with
  | [] => match cur with [] => [] | _ => [reverse cur] end
  | c :: s' =>
      if c =? 13 then
        match s' with
        | 10 :: s'' => reverse cur :: splitlines_go [] s''
        | _ => reverse cur :: splitlines_go [] s'
        end
      else if is_linebreak c then reverse cur :: splitlines_go [] s'
      else splitlines_go (c :: cur) s'
  end.

Definition splitlines (s : str) : list str := splitlines_go [] s.

(** [s.split()]: the maximal runs of characters that are not whitespace. *)
Fixpoint split_ws_go (cur : str) (s : str) : list str :=
  match s with
  | [] => match cur with [] => [] | _ => [reverse cur] end
  | c :: s' =>
      if isspace c then
        match cur with
        | [] => split_ws_go [] s'
        | _ => reverse cur :: split_ws_go [] s'
        end
      else split_ws_go (c :: cur) s'
  end.

Definition split_ws (s : str) : list str := split_ws_go [] s.

(** [sep.join(l)] *)
Fixpoint join (sep : str) (l : list str) : str :=
  match l with
  | [] => []
  | [x] => x
  | x :: l' => x ++ sep ++ join sep l'
  end.

(** One turn of [for word in t.split()] on the pair (buf, parts). *)
Definition wrap_word (st : str * list str) (word : str) : str * list str :=
  let '(buf, parts) := st in
  if (30 <? length buf + (match buf with [] => 0 | _ => 1 end) + length word)%nat then
    (word, match buf with [] => parts | _ => parts ++ [buf] end)
  else
    (match buf with [] => word | _ => buf ++ u " " ++ word end, parts).

(** What one line of the text adds to [out]. *)
Definition trim_line (line : str) : list str :=
  let t := strip line in
  if (length t <=? 90)%nat then [t]
  else
    let '(buf, parts) := foldl wrap_word ([], []) (split_ws t) in
    match buf with [] => parts | _ => parts ++ [buf] end.

Definition _trim_lines (s : str) : str := join [10] (splitlines s ≫= trim_line).

(** [s.strip(chars)] for one character. *)
Fixpoint lstrip_char (x : char) (s : str) : str :=
  match s with
  | c :: s' => if c =? x then lstrip_char x s' else s
  | [] => []
  end.

Definition strip_char (x : char) (s : str) : str :=
  reverse (lstrip_char x (reverse (lstrip_char x s))).

(** [^```.*?```$] with [re.S]: the backtick is U+0060. *)
Definition fence_re : re :=
  seqs [Bol; Chr 96; Chr 96; Chr 96; star_lazy any; Chr 96; Chr 96; Chr 96; Eol].

Definition ELLIPSIS : char := 0x2026.

Definition _postprocess (text : str) : str :=
  match text with
  | [] => ELLIPSIS :: u "<Press A><Clear Text>"
  | _ =>
      let text := strip text in
      let text := sub fence_re (fun g => strip_char 96 (group g 0)) text in
      let text := _strip_forbidden_codes text in
      let text := _trim_lines text in
      let text := match strip text with [] => [ELLIPSIS] | _ => text end in
      if (contains (u "<Press A>") text || contains [10] text)
         && negb (contains (u "<Clear Text>") text)
      then text ++ u "<Clear Text>"
      else text
  end.

End Prompt.

(* ===================================================================== *)
(** ** [read_dialogue.py]: the basic decoder *)
(* ===================================================================== *)

Module ReadDialogue.

Definition AC_ENCODING_items : list (N * str) :=
  [(0x00, []); (0x20, [0x20]); (0x21, [0x21]); (0x22, [0x22]); (0x23, [0x23]); (0x2C, [0x2C]);
   (0x2E, [0x2E]); (0x3F, [0x3F]); (0x41, [0x41]); (0x42, [0x42]); (0x43, [0x43]); (0x44, [0x44]);
   (0x45, [0x45]); (0x46, [0x46]); (0x47, [0x47]); (0x48, [0x48]); (0x49, [0x49]); (0x4A, [0x4A]);
   (0x4B, [0x4B]); (0x4C, [0x4C]); (0x4D, [0x4D]); (0x4E, [0x4E]); (0x4F, [0x4F]); (0x50, [0x50]);
   (0x51, [0x51]); (0x52, [0x52]); (0x53, [0x53]); (0x54, [0x54]); (0x55, [0x55]); (0x56, [0x56]);
   (0x57, [0x57]); (0x58, [0x58]); (0x59, [0x59]); (0x5A, [0x5A]); (0x61, [0x61]); (0x62, [0x62]);
   (0x63, [0x63]); (0x64, [0x64]); (0x65, [0x65]); (0x66, [0x66]); (0x67, [0x67]); (0x68, [0x68]);
   (0x69, [0x69]); (0x6A, [0x6A]); (0x6B, [0x6B]); (0x6C, [0x6C]); (0x6D, [0x6D]); (0x6E, [0x6E]);
   (0x6F, [0x6F]); (0x70, [0x70]); (0x71, [0x71]); (0x72, [0x72]); (0x73, [0x73]); (0x74, [0x74]);
   (0x75, [0x75]); (0x76, [0x76]); (0x77, [0x77]); (0x78, [0x78]); (0x79, [0x79]); (0x7A, [0x7A]);
   (0x80, [0x2026]); (0x8E, [0x27]); (0x9A, [0x2665])].

Definition AC_ENCODING : gmap N str := dict AC_ENCODING_items.

(** [for b in raw: ...; return ''.join(result)] *)
Fixpoint decode_dialogue (raw : bytes) : str :=
  match raw with
  | [] => []
  | b :: raw' =>
      if b =? 0x00 then []
      else default (u "?") (AC_ENCODING !! b) ++ decode_dialogue raw'
  end.

End ReadDialogue.
(* ===================================================================== *)
(** * Properties *)
(* ===================================================================== *)

Import Watch.

(** ** [ConversationState] *)

(** The visible text of an observation, as [observe_text] computes it. *)
Definition visible_text (text : str) : str := strip (_strip_control_codes text).

Definition is_line (text : str) : Prop :=
  contains END_CONVERSATION text = false /\ contains OPEN_CHOICE_MENU text = false.

(** A control tag as [_CONTROL_TAG_RE] sees it: an opening angle bracket, one
    or more characters other than the closing one, the closing bracket. *)
Definition is_tag (t : str) : Prop :=
  exists body, body <> [] /\ Forall (fun c => c <> 62) body /\ t = 60 :: body ++ [62].

(** The pattern cannot match unless the subject starts with [c]. *)
Fixpoint starts_with (c : char) (r : re) : bool :=
  match r with
  | Chr c' => c' =? c
  | Seq a _ => starts_with c a
  | Grp _ a => starts_with c a
  | _ => false
  end.

(** The function returned a value: no exception, no loop out of fuel. *)
Definition returns {A} (r : res A) : bool :=
  match r with Ok _ => true | _ => false end.

(** The text of one plain byte (neither terminator nor prefix): its glyph,
    or the bracketed placeholder when the table has none. *)
Definition glyph_text (byte : N) : str :=
  default (glyph_placeholder byte) (CHARACTER_MAP !! byte).

Definition plain_byte (byte : N) : Prop := byte <> 0x00 /\ byte <> PREFIX_BYTE.

(** The malformed-code marker tagged with an opcode, as the decoder is to
    print it: the words Malformed Code and the opcode, written 0x and two
    upper-case hexadecimal digits, in angle brackets. *)
Definition HEX_digit (d : N) : char := default 48 (u "0123456789ABCDEF" !! N.to_nat d).

Definition malformed_code_marker (opcode : N) : str :=
  u "<Malformed Code 0x" ++ [HEX_digit (opcode / 16); HEX_digit (opcode mod 16)] ++ u ">".

(** ** Word wrap *)

(** A character of the glyph table: one code point with a byte of its own. *)
Definition has_glyph (c : char) : Prop := is_Some (REVERSE_CHARACTER_MAP !! [c]).

(** The byte of each character, as [encode_ac_text] looks it up. *)
Definition glyphs (w : str) : bytes := (fun c => default 0 (REVERSE_CHARACTER_MAP !! [c])) <$> w.

(** A character of a word: a glyph other than the space, the line break and
    the opening angle bracket of a tag. *)
Definition word_char (c : char) : Prop := has_glyph c /\ c <> 32 /\ c <> 10 /\ c <> 60.

Definition is_word (w : str) : Prop := w <> [] /\ Forall word_char w.

(** Words joined by single spaces. *)
Fixpoint join_words (ws : list str) : str :=
  match ws with
  | [] => []
  | [w] => w
  | w :: ws' => w ++ 32 :: join_words ws'
  end.

(** The wrap rule in the words of the specification, with the guard of the
    code: a word that is not first on its line goes to a new line exactly
    when the line, a space and the word would exceed 30 columns; otherwise it
    follows a space. [col] is the number of characters on the current line,
    at least one. *)
Fixpoint wrap_rest (col : nat) (ws : list str) : bytes :=
  match ws with
  | [] => []
  | w :: ws' =>
      if (30 <? col + 1 + length w)%nat
      then 0xCD :: glyphs w ++ wrap_rest (length w) ws'
      else 0x20 :: glyphs w ++ wrap_rest (col + 1 + length w) ws'
  end.

(** The first word of a text starts the first line and is never preceded by
    a line break, whatever its length. *)
Definition wrap_words (ws : list str) : bytes :=
  match ws with
  | [] => []
  | w :: ws' => glyphs w ++ wrap_rest (length w) ws'
  end.

(** ** The watch loop *)

(** The address is inside a generation: its in-flight flag is set. *)
Definition in_flight (ws : WatchState) (addr : N) : Prop :=
  generation_in_progress ws !! addr = Some true.

(** Between polls no address is in flight and the gate is free; inside a
    generator call the gate is held and the caller alone is in flight. *)
Definition single_flight (c : config) : Prop :=
  match c with
  | Idle ws => lock_held ws = false /\ forall a, ~ in_flight ws a
  | Generating addr _ ws => lock_held ws = true /\ forall a, in_flight ws a <-> a = addr
  end.

(** The addresses in flight in a configuration. *)
Definition flying (c : config) (addr : N) : Prop :=
  match c with
  | Idle ws => in_flight ws addr
  | Generating _ _ ws => in_flight ws addr
  end.

(** The address is watched: the four dictionaries have its entry. *)
Definition watched (ws : WatchState) (addr : N) : Prop :=
  is_Some (last_text_by_addr ws !! addr) /\ is_Some (conversation_state ws !! addr).

(** The bytes the transport holds for a text: its encoding. *)
Definition bytes_of (text : str) : bytes :=
  match encode_ac_text text with Ok b => b | _ => [] end.

Definition io_ok : Transport := {| probe_ok := true; connect_ok := true; write_ok := true |}.

(** A poll that reads [text] at time [now]; every write succeeds and the
    generator, when called, answers [reply]. *)
Definition reads (text : str) (now : Z) (reply : str) : PollInput :=
  {| raw := bytes_of text; now_ts := now; inject_io := io_ok; loading_io := io_ok;
     llm_text := Ok reply; generated_io := io_ok; now_written := now |}.

(** A sequence of polls, each of one address. *)
Definition run (print_all : bool) (SUPPRESS_SECONDS : Z) (ws : WatchState)
    (polls : list (N * PollInput)) : res WatchState :=
  foldl (fun acc p => ws ← acc; r ← poll print_all SUPPRESS_SECONDS p.2 p.1 ws; Ok r.1)
        (Ok ws) polls.

(** What a test reads off the channel of an address. *)
Definition channel (r : res WatchState) (addr : N)
    : option (ConversationState * option str * Z) :=
  match r with
  | Ok ws =>
      state ← conversation_state ws !! addr;
      last ← last_text_by_addr ws !! addr;
      until ← suppress_until_by_addr ws !! addr;
      Some (state, last, until)
  | _ => None
  end.

Definition state_of (r : res WatchState) : WatchState :=
  match r with Ok ws => ws | _ => init [] end.

(** A conversation on address 1: a line, a choice menu (which gets the new
    option), the answer of the player, which starts a generation at time 3
    that returns the text Hi. *)
Definition conversation : list (N * PollInput) :=
  [(1, reads (u "Hello there!") 1 []);
   (1, reads (u "<Open Choice Menu>A<Choice 1 Jump [0001]>") 2 []);
   (1, reads (u "Sure!") 3 (u "Hi"))].

(** ** The menu option *)








(** ** The round trip *)

(** A text as a sequence of items: visible characters and control tags, a
    tag being an opcode of [CONTROL_CODES] with its numeric arguments. *)
Inductive item :=
| Lit (c : char)
| Tag (op : N) (args : list N).

(** The text of a tag as [parse_ac_text] prints it: the description of the
    opcode formatted with the arguments. *)
Definition tag_text (op : N) (args : list N) : str :=
  match CONTROL_CODES !! op with
  | Some desc => match format desc (VInt <$> args) with Ok t => t | _ => [] end
  | None => []
  end.

Definition item_text (it : item) : str :=
  match it with
  | Lit c => [c]
  | Tag op args => tag_text op args
  end.

Definition render (items : list item) : str := concat (item_text <$> items).

(** The opcodes with one numeric argument printed in a bracket of its own. *)
Definition one_number_tags : list N :=
  [0x03; 0x05; 0x0E; 0x0F; 0x10; 0x11; 0x12; 0x53; 0x54; 0x5A].

(** The items of the round trip. A character has a byte of its own in the
    glyph table, other than the terminator byte, and is neither the opening
    angle bracket nor the line break. A tag is one of: an opcode of the
    table without arguments, other than End Conversation; an opcode of
    [one_number_tags] with an argument that fits its bytes; the opcode 0x50
    with a colour of three bytes and a count of one byte. *)
Definition well_formed (it : item) : bool :=
  match it with
  | Lit c =>
      match REVERSE_CHARACTER_MAP !! [c] with
      | Some byte => negb (byte =? 0x00) && negb (c =? 60) && negb (c =? 10)
      | None => false
      end
  | Tag op [] =>
      bool_decide (is_Some (CONTROL_CODES !! op)) && bool_decide (CODE_ARG_COUNT !! op = None)
      && negb (op =? 0x00)
  | Tag op [v] =>
      bool_decide (op ∈ one_number_tags)
      && (v <? 256 ^ N.of_nat (default 0%nat (CODE_ARG_COUNT !! op)))
  | Tag op [rgb; n] => (op =? 0x50) && (rgb <? 0x1000000) && (n <? 0x100)
  | _ => false
  end.

(** The visible characters of a text, in order. *)
Fixpoint visible_chars (items : list item) : str :=
  match items with
  | [] => []
  | Lit c :: items' => c :: visible_chars items'
  | Tag _ _ :: items' => visible_chars items'
  end.

(** The visible characters fit one line of 30 columns and do not start
    with a space. *)
Definition one_line (items : list item) : bool :=
  (length (visible_chars items) <=? 30)%nat && negb (startswith (u " ") (visible_chars items)).

(** The bytes of an item: the byte of the glyph, or the prefix byte, the
    opcode and the packed arguments. *)
Definition item_bytes (it : item) : bytes :=
  match it with
  | Lit c => glyphs [c]
  | Tag op args =>
      PREFIX_BYTE :: op :: match encode_args op args with Ok b => b | _ => [] end
  end.

Definition encoding (items : list item) : bytes := concat (item_bytes <$> items) ++ [0x00].

(** The tokens [encode_ac_text] splits a text of items into: the runs of
    characters, possibly empty, and the tags between them. [cur] is the
    run being read. *)
Fixpoint tokens (cur : str) (items : list item) : list str :=
  match items with
  | [] => [cur]
  | Lit c :: items' => tokens (cur ++ [c]) items'
  | Tag op args :: items' => cur :: tag_text op args :: tokens [] items'
  end.

(** The substitutions of [_normalize_control_tags], in order. *)
Definition normalizers : list (re * (caps -> str)) :=
  [(closing_tag_re, fun _ => []);
   (npc_expression_re, two_args "NPC Expression");
   (player_emotion_re, two_args "Player Emotion");
   (bare_arg_re "Pause" 2, one_arg "Pause" 2);
   (bare_arg_re "Line Type" 2, one_arg "Line Type" 2);
   (bare_arg_re "Play Sound Effect" 2, one_arg "Play Sound Effect" 2);
   (bare_arg_re "Char Size" 4, one_arg "Char Size" 4);
   (bare_arg_re "Line Size" 4, one_arg "Line Size" 4);
   (color_for_re, color_for_repl);
   (color_for_chars_re, color_for_repl);
   (color_line_re, color_line_repl);
   (color_bare_re, color_line_repl);
   (color_bracket_re, color_line_repl)].

(** A substitution leaves a tag alone wherever the tag stands: its pattern
    does not match there, or it matches the tag and rewrites it to itself. *)
Definition keeps_tag (rf : re * (caps -> str)) (t : str) : Prop :=
  forall pos rest,
    match_at rf.1 pos (t ++ rest) = None
    \/ exists g, match_at rf.1 pos (t ++ rest) = Some (length t, g) /\ rf.2 g = t.

(** [k] hexadecimal digits of [n], upper case, most significant first. *)
Fixpoint hexdigits (k : nat) (n : N) : str :=
  match k with
  | O => []
  | S k' => hexdigits k' (n / 16) ++ [digit_char (n mod 16)]
  end.

(** An upper-case hexadecimal digit. *)
Definition is_HEX (c : char) : bool :=
  ((48 <=? c) && (c <=? 57)) || ((65 <=? c) && (c <=? 70)).

(** A printable ASCII character. *)
Definition printable (c : char) : bool := (32 <=? c) && (c <? 127).

(** A character inside a tag: printable, and not an angle bracket. *)
Definition tag_char (c : char) : Prop := c <> 60 /\ c <> 62 /\ printable c = true.

(** ** Reading memory in chunks *)

(** The chunk [_read_dialogue_once] reads in turn [k]. *)
Definition chunk_at (read_memory : Z -> Z -> bytes) (target_address chunk_size : Z) (k : nat)
    : bytes :=
  read_memory (target_address + Z.of_nat k * chunk_size)%Z chunk_size.

(** The chunk holds one of the markers whole. *)
Definition has_marker (end_markers : list bytes) (chunk : bytes) : bool :=
  existsb (fun marker => contains marker chunk) end_markers.

(** The number of turns [range(0, max_size, chunk_size)] allows, for a
    positive chunk size. *)
Definition turns (max_size chunk_size : Z) : nat :=
  Z.to_nat ((max_size + chunk_size - 1) / chunk_size).

(** ** The two decoders *)

(** A byte that [read_dialogue.py] and [ac_parser_encoder.py] decode to the
    same text: both tables have it, with the same entry, and it is not the
    terminator. *)
Definition shared_byte (b : N) : bool :=
  match ReadDialogue.AC_ENCODING !! b, CHARACTER_MAP !! b with
  | Some g, Some g' => bool_decide (g = g') && negb (b =? 0x00)
  | _, _ => false
  end.

(** ** The tags a generated text may keep *)

(** [_strip_forbidden_codes] keeps the item: a character, or a tag whose
    text starts with an entry of [CONTROL_SAFE] less its last character. *)
Definition safe_item (it : item) : bool :=
  match it with
  | Lit _ => true
  | Tag op args =>
      existsb (fun x => startswith (Prompt.but_last x) (tag_text op args)) Prompt.CONTROL_SAFE
  end.
(** The tables are looked up by computation on closed keys only. *)
#[global] Arguments CHARACTER_MAP : simpl never.
#[global] Arguments REVERSE_CHARACTER_MAP : simpl never.
#[global] Arguments CONTROL_CODES : simpl never.
#[global] Arguments REVERSE_CONTROL_CODES : simpl never.
#[global] Arguments CODE_ARG_COUNT : simpl never.
#[global] Arguments EXPRESSION_MAP : simpl never.
#[global] Arguments MUSIC_TRANSITIONS : simpl never.
#[global] Arguments SOUNDEFFECT_LIST : simpl never.
#[global] Arguments MUSIC_LIST : simpl never.
#[global] Arguments PLAYER_EMOTIONS : simpl never.
#[global] Arguments fmt_0X : simpl never.

(** ** The matcher *)


Lemma m_starts_with {A} c r pos s g (k : nat -> str -> caps -> option A) :
  starts_with c r = true -> head s <> Some c -> m r pos s g k = None.
Proof.
  revert pos s g k. induction r; intros pos s g k Hr Hs; try discriminate; cbn in *.
  - apply N.eqb_eq in Hr as ->. destruct s as [|x s]; [done|]. cbn in *.
    destruct (N.eqb_spec c x) as [->|]; [done|done].
  - by apply IHr1.
  - by apply IHr.
Qed.

Lemma match_at_starts_with c r pos s :
  starts_with c r = true -> head s <> Some c -> match_at r pos s = None.
Proof. intros. unfold match_at. by eapply m_starts_with. Qed.

(** Greedy repetition of a class over a run that satisfies it, stopped by a
    character outside the class: when the continuation accepts the whole
    run, that is the match. *)
Lemma rep_greedy_run {A} p lo pos body c rest (k : nat -> str -> option A) x :
  Forall (fun b => p b = true) body -> p c = false -> (lo <= length body)%nat ->
  k (pos + length body)%nat (c :: rest) = Some x ->
  rep p true lo None pos (body ++ c :: rest) k = Some x.
Proof.
  intros Hb Hc. revert lo pos. induction Hb as [|b body Hpb Hb IH]; intros lo pos Hlo Hk; cbn in *.
  - rewrite Hc. cbn. destruct lo; [|lia]. by rewrite Nat.add_0_r in Hk.
  - rewrite Hpb. cbn. rewrite (IH (Nat.pred lo) (S pos)); [done|lia|].
    by replace (S pos + length body)%nat with (pos + S (length body))%nat by lia.
Qed.

(** Scanning: characters of a match already found are passed over. *)
Lemma sub_go_skip r f cnt pos l s :
  sub_go r f cnt pos (length l) (l ++ s) = sub_go r f cnt (pos + length l) 0 s.
Proof.
  revert pos. induction l as [|c l IH]; intros pos; cbn.
  - rewrite Nat.add_0_r. by destruct s.
  - rewrite IH. f_equal. lia.
Qed.

Lemma sub_go_match r f pos c s n g l s' :
  match_at r pos (c :: s) = Some (S n, g) -> s = l ++ s' -> length l = n ->
  sub_go r f None pos 0 (c :: s) = f g ++ sub_go r f None (S pos + n) 0 s'.
Proof.
  intros Hm -> <-. cbn. rewrite Hm. by rewrite sub_go_skip.
Qed.

Lemma sub_go_nomatch r f cnt pos c s :
  match_at r pos (c :: s) = None ->
  sub_go r f cnt pos 0 (c :: s) = c :: sub_go r f cnt (S pos) 0 s.
Proof. intros Hm. cbn. rewrite Hm. by destruct (hi_open cnt). Qed.

(** A pattern that starts with a character the subject does not contain
    leaves it alone. *)
Lemma sub_go_absent c r f cnt pos s :
  starts_with c r = true -> Forall (fun x => x <> c) s -> sub_go r f cnt pos 0 s = s.
Proof.
  intros Hr Hs. revert pos. induction Hs as [|x s Hx Hs IH]; intros pos; [done|].
  rewrite sub_go_nomatch, IH; [done|].
  apply (match_at_starts_with c); [done|]. cbn. congruence.
Qed.

Lemma sub_absent c r f s :
  starts_with c r = true -> Forall (fun x => x <> c) s -> sub r f s = s.
Proof. apply sub_go_absent. Qed.

Lemma split_go_absent c r pos cur s :
  starts_with c r = true -> Forall (fun x => x <> c) s ->
  split_go r pos 0 cur s = [reverse cur ++ s].
Proof.
  intros Hr Hs. revert pos cur. induction Hs as [|x s Hx Hs IH]; intros pos cur; cbn.
  - by rewrite app_nil_r.
  - rewrite (match_at_starts_with c); [|done|cbn; congruence].
    rewrite IH. by rewrite reverse_cons, <- app_assoc.
Qed.

Lemma split_absent c r s :
  starts_with c r = true -> Forall (fun x => x <> c) s -> Re.split r s = [s].
Proof. intros. unfold Re.split. by erewrite split_go_absent. Qed.

(** [_CONTROL_TAG_RE] matches a whole tag at its start. *)
Lemma match_control_tag pos body rest :
  body <> [] -> Forall (fun c => c <> 62) body ->
  match_at _CONTROL_TAG_RE pos (60 :: body ++ 62 :: rest)
  = Some (S (length body + 1), [(0%nat, 60 :: body ++ [62])]).
Proof.
  intros Hne Hb. unfold match_at, _CONTROL_TAG_RE, plus. cbn -[rep].
  erewrite (rep_greedy_run _ 1 (S pos) body 62 rest).
  - done.
  - eapply Forall_impl; [done|]. intros c Hc. unfold not_char. cbn.
    by destruct (N.eqb_spec c 62).
  - done.
  - destruct body; [done|cbn; lia].
  - cbn. replace (S (S (pos + length body)) - pos)%nat with (S (length body + 1)) by lia.
    cbn. do 5 f_equal. change (62 :: rest) with ([62] ++ rest). rewrite app_assoc.
    apply take_app_length'. rewrite length_app. cbn. lia.
Qed.

Lemma strip_control_codes_tags_go pos tags :
  Forall is_tag tags -> sub_go _CONTROL_TAG_RE (fun _ => []) None pos 0 (concat tags) = [].
Proof.
  intros H. revert pos. induction H as [|t tags (body & Hne & Hb & ->) _ IH]; intros pos; [done|].
  cbn [concat]. rewrite <- app_comm_cons, <- app_assoc. cbn [app].
  erewrite (sub_go_match _ _ pos 60 _ _ _ (body ++ [62]) (concat tags)).
  - cbn. apply IH.
  - by apply match_control_tag.
  - by rewrite <- app_assoc.
  - rewrite length_app. cbn. lia.
Qed.

(** A text made of control tags only has no visible text. *)
Lemma visible_text_tags tags : Forall is_tag tags -> visible_text (concat tags) = [].
Proof.
  intros H. unfold visible_text, _strip_control_codes, sub.
  by rewrite strip_control_codes_tags_go.
Qed.
(** ** [_inject_feeling_chatty_option] *)

































Lemma count_line_lines_seen v s : lines_seen (count_line v s) = S (lines_seen s).
Proof. unfold count_line. cbn. by destruct (lines_seen s). Qed.

Lemma count_line_last v s : last_visible_text (count_line v s) = Some v.
Proof. unfold count_line. cbn. by destruct (lines_seen s). Qed.

Lemma count_line_ready v s :
  ready_for_chatty s = true -> ready_for_chatty (count_line v s) = true.
Proof. unfold count_line. cbn. by destruct (lines_seen s). Qed.

(** The counter moves by at most one, and only on a non-empty visible text
    that differs from the recorded one. *)
Lemma lines_seen_step s t :
  lines_seen (observe_text s t) = lines_seen s
  \/ contains END_CONVERSATION t = true
  \/ (lines_seen (observe_text s t) = S (lines_seen s)
      /\ visible_text t <> [] /\ Some (visible_text t) <> last_visible_text s
      /\ contains OPEN_CHOICE_MENU t = false).
Proof.
  unfold observe_text, visible_text.
  destruct (contains END_CONVERSATION t); [by right; left|].
  destruct (awaiting_choice_resolution s) eqn:Ha, (contains OPEN_CHOICE_MENU t) eqn:Ho; cbn.
  - left. by destruct (_ && _).
  - destruct (strip _) as [|c v] eqn:Hv; [by left|].
    case_bool_decide as Hne; [|by left].
    right; right. rewrite count_line_lines_seen. by cbn.
  - left. by destruct (_ && _).
  - destruct (strip _) as [|c v] eqn:Hv; [by left|].
    case_bool_decide as Hne; [|by left].
    right; right. cbn. rewrite count_line_lines_seen. done.
Qed.

(** After a dialogue line (no end marker, no menu marker) with a non-empty
    visible text, that text is the recorded one. *)
Lemma observe_line_records s t :
  is_line t -> visible_text t <> [] ->
  last_visible_text (observe_text s t) = Some (visible_text t).
Proof.
  intros [He Ho] Hv. unfold observe_text, visible_text in *. rewrite He, Ho.
  destruct (awaiting_choice_resolution s); cbn.
  - destruct (strip _) as [|c v] eqn:E; [done|].
    case_bool_decide as Hne; [by rewrite count_line_last|].
    by cbn.
  - destruct (strip _) as [|c v] eqn:E; [done|].
    case_bool_decide as Hne; [by cbn; rewrite count_line_last|].
    done.
Qed.

Lemma observe_end s t : contains END_CONVERSATION t = true -> observe_text s t = reset.
Proof. intros H. unfold observe_text. by rewrite H. Qed.

Lemma observe_keeps_ready s t :
  ready_for_chatty s = true -> contains END_CONVERSATION t = false ->
  ready_for_chatty (observe_text s t) = true.
Proof.
  intros Hr He. unfold observe_text. rewrite He, Hr.
  destruct (awaiting_choice_resolution s), (contains OPEN_CHOICE_MENU t); cbn; try done.
  - destruct (strip _); [done|]. case_bool_decide; [|done]. by apply count_line_ready.
  - destruct (strip _); [done|]. case_bool_decide; [|done]. cbn. by apply count_line_ready.
Qed.

Lemma observe_twice_line s t t2 :
  is_line t -> visible_text t2 = visible_text t ->
  (lines_seen (observe_text (observe_text s t) t2) <= lines_seen (observe_text s t))%nat.
Proof.
  intros Hl Hv.
  destruct (lines_seen_step (observe_text s t) t2) as [->|[He|(_ & Hne & Hlast & _)]]; [done| |].
  - rewrite (observe_end _ _ He). cbn. lia.
  - rewrite Hv in Hne, Hlast. by rewrite (observe_line_records s t) in Hlast.
Qed.

Lemma observe_twice_same s t :
  (lines_seen (observe_text (observe_text s t) t) <= lines_seen (observe_text s t))%nat.
Proof.
  destruct (lines_seen_step (observe_text s t) t) as [->|[He|(_ & Hne & Hlast & Ho)]]; [done| |].
  - rewrite !(observe_end _ _ He). done.
  - destruct (contains END_CONVERSATION t) eqn:He.
    + rewrite !(observe_end _ _ He). done.
    + by apply observe_twice_line.
Qed.

Lemma observe_invisible s t :
  visible_text t = [] -> (lines_seen (observe_text s t) <= lines_seen s)%nat.
Proof.
  intros Hv. destruct (lines_seen_step s t) as [->|[He|(_ & Hne & _)]]; [done| |done].
  rewrite (observe_end _ _ He). cbn. lia.
Qed.

Lemma observe_many_keeps_ready s texts :
  ready_for_chatty s = true ->
  Forall (fun t => contains END_CONVERSATION t = false) texts ->
  ready_for_chatty (foldl observe_text s texts) = true.
Proof.
  intros Hr H. revert s Hr. induction H as [|t texts Ht _ IH]; intros s Hr; [done|].
  cbn. apply IH. by apply observe_keeps_ready.
Qed.

(** C7, as amended. [observe_text] raises [lines_seen] by at most one, and
    only when the stripped visible text is non-empty and differs from the
    recorded [last_visible_text]. A text with no visible text (in particular
    one made of control tags only, and the empty string) never raises it;
    neither does the second of two observations of the same text, nor the
    second of two observations with the same visible text when the first is
    a dialogue line, that is, holds neither the end-of-conversation marker
    nor the open-choice-menu marker. *)
Theorem lines_seen_debounce (s : ConversationState) (t : str) :
  (lines_seen (observe_text s t) <= S (lines_seen s))%nat
  /\ ((lines_seen s < lines_seen (observe_text s t))%nat ->
      visible_text t <> [] /\ Some (visible_text t) <> last_visible_text s)
  /\ (visible_text t = [] -> (lines_seen (observe_text s t) <= lines_seen s)%nat)
  /\ (forall tags, Forall is_tag tags ->
      (lines_seen (observe_text s (concat tags)) <= lines_seen s)%nat)
  /\ (lines_seen (observe_text s []) <= lines_seen s)%nat
  /\ (lines_seen (observe_text (observe_text s t) t) <= lines_seen (observe_text s t))%nat
  /\ (forall t2, is_line t -> visible_text t2 = visible_text t ->
      (lines_seen (observe_text (observe_text s t) t2) <= lines_seen (observe_text s t))%nat).
Proof.
  repeat split.
  - destruct (lines_seen_step s t) as [->|[He|(-> & _)]]; [lia| |lia].
    rewrite (observe_end _ _ He). cbn. lia.
  - destruct (lines_seen_step s t) as [E|[He|(_ & Hne & _)]]; [lia| |done].
    rewrite (observe_end _ _ He) in H. cbn in H. lia.
  - destruct (lines_seen_step s t) as [E|[He|(_ & _ & Hl & _)]]; [lia| |done].
    rewrite (observe_end _ _ He) in H. cbn in H. lia.
  - apply observe_invisible.
  - intros tags Htags. apply observe_invisible. by apply visible_text_tags.
  - by apply observe_invisible.
  - apply observe_twice_same.
  - intros t2. apply observe_twice_line.
Qed.

Lemma lines_seen_debounce_witness :
  is_line (u "Hello there!<Press A>")
  /\ visible_text (u "Hello there!<Clear Text>") = visible_text (u "Hello there!<Press A>")
  /\ (lines_seen (observe_text (observe_text reset (u "Hello there!<Press A>"))
                               (u "Hello there!<Clear Text>"))
      <= lines_seen (observe_text reset (u "Hello there!<Press A>")))%nat.
Proof.
  split; [by vm_compute|]. split; [by vm_compute|].
  apply (lines_seen_debounce reset (u "Hello there!<Press A>")); by vm_compute.
Defined.

(** C7 as stated fails: a menu text and a dialogue line with the same
    visible text, observed one after the other; the second observation
    raises the counter. *)
Lemma lines_seen_same_visible_counterexample :
  visible_text (u "<Open Choice Menu>Hi") = visible_text (u "Hi")
  /\ lines_seen (observe_text reset (u "<Open Choice Menu>Hi")) = 0%nat
  /\ lines_seen (observe_text (observe_text reset (u "<Open Choice Menu>Hi")) (u "Hi")) = 1%nat.
Proof. by vm_compute. Qed.

(** C10. Once [ready_for_chatty] holds in a state reached from the initial
    one by [observe_text] calls, it holds after every further sequence of
    observations without the end-of-conversation marker; an observation
    with the marker resets every field, and it is the only one that clears
    the flag. *)
Theorem ready_for_chatty_sticky (history later : list str) (t : str) :
  ready_for_chatty (foldl observe_text reset history) = true ->
  (Forall (fun x => contains END_CONVERSATION x = false) later ->
   ready_for_chatty (foldl observe_text (foldl observe_text reset history) later) = true)
  /\ (contains END_CONVERSATION t = true ->
      observe_text (foldl observe_text reset history) t = reset)
  /\ (ready_for_chatty (observe_text (foldl observe_text reset history) t) = false ->
      contains END_CONVERSATION t = true).
Proof.
  intros Hr. repeat split.
  - by apply observe_many_keeps_ready.
  - apply observe_end.
  - intros Hf. destruct (contains END_CONVERSATION t) eqn:He; [done|].
    by rewrite observe_keeps_ready in Hf.
Qed.

Lemma ready_for_chatty_sticky_witness :
  ready_for_chatty
    (foldl observe_text (foldl observe_text reset [u "Hello there!<Press A>"; u "How are you?"])
       [u "<Open Choice Menu> Yes<Choice 1 Jump [0001]>"; u "<Clear Text>"; u "Fine."]) = true.
Proof.
  apply (ready_for_chatty_sticky [u "Hello there!<Press A>"; u "How are you?"]
           [u "<Open Choice Menu> Yes<Choice 1 Jump [0001]>"; u "<Clear Text>"; u "Fine."] []).
  - by vm_compute.
  - repeat constructor.
Defined.
(** ** Dictionaries and the glyph table *)

Section Dict.
Context `{Countable K} {V : Type}.
Implicit Types (m : gmap K V) (items : list (K * V)).

Lemma dict_go_notin m items k :
  k ∉ items.*1 -> foldl (fun m kv => <[kv.1 := kv.2]> m) m items !! k = m !! k.
Proof.
  revert m. induction items as [|[k' v'] items IH]; intros m Hk; [done|].
  cbn in *. apply not_elem_of_cons in Hk as [Hne Hk].
  rewrite IH by done. by rewrite lookup_insert_ne.
Qed.

Lemma dict_go_in m items k v :
  NoDup items.*1 -> (k, v) ∈ items ->
  foldl (fun m kv => <[kv.1 := kv.2]> m) m items !! k = Some v.
Proof.
  revert m. induction items as [|[k' v'] items IH]; intros m Hnd Hin.
  - by apply elem_of_nil in Hin.
  - cbn in *. apply NoDup_cons in Hnd as [Hk' Hnd].
    apply elem_of_cons in Hin as [[= -> ->]|Hin].
    + rewrite dict_go_notin by done. apply lookup_insert_eq.
    + by apply IH.
Qed.

(** For a literal without repeated keys the dictionary holds exactly the
    items of the literal. *)
Lemma dict_lookup items k v :
  NoDup items.*1 -> dict items !! k = Some v <-> (k, v) ∈ items.
Proof.
  intros Hnd. split; [|by apply dict_go_in].
  intros Hl. destruct (decide (k ∈ items.*1)) as [Hin|Hout].
  - apply list_elem_of_fmap in Hin as ([k' v'] & -> & Hin). cbn in *.
    pose proof (dict_go_in ∅ _ _ _ Hnd Hin) as Hl'. unfold dict in Hl.
    rewrite Hl in Hl'. by injection Hl' as ->.
  - unfold dict in Hl. by rewrite dict_go_notin in Hl.
Qed.

Lemma dict_lookup_None items k : k ∉ items.*1 -> dict items !! k = None.
Proof. intros Hk. unfold dict. by rewrite dict_go_notin. Qed.

(** A property checked on the literal holds of every binding. *)
Lemma dict_forall (P : K -> V -> bool) items k v :
  NoDup items.*1 -> forallb (fun kv => P kv.1 kv.2) items = true ->
  dict items !! k = Some v -> P k v = true.
Proof.
  intros Hnd Hall Hl. apply dict_lookup in Hl; [|done].
  rewrite forallb_forall in Hall. apply (Hall (k, v)). by apply list_elem_of_In.
Qed.

End Dict.

Lemma CHARACTER_MAP_keys_NoDup : NoDup CHARACTER_MAP_items.*1.
Proof. apply (bool_decide_unpack _). by vm_compute. Qed.

Lemma CHARACTER_MAP_values_NoDup : NoDup CHARACTER_MAP_items.*2.
Proof. apply (bool_decide_unpack _). by vm_compute. Qed.

(** No two bytes of the glyph table decode to the same text. *)
Lemma CHARACTER_MAP_injective b1 b2 g :
  CHARACTER_MAP !! b1 = Some g -> CHARACTER_MAP !! b2 = Some g -> b1 = b2.
Proof.
  intros H1 H2.
  apply (dict_lookup _ _ _ CHARACTER_MAP_keys_NoDup) in H1, H2.
  pose proof CHARACTER_MAP_values_NoDup as Hnd.
  apply list_elem_of_lookup in H1 as [i Hi], H2 as [j Hj].
  assert (i = j) as ->; [|congruence].
  eapply NoDup_lookup; [exact Hnd| |]; rewrite list_lookup_fmap.
  - by rewrite Hi.
  - by rewrite Hj.
Qed.

(** The prefix byte has no glyph, and neither have 0x80, 0xAC, 0xAD and the
    bytes from 0xD2 on. *)
Lemma CHARACTER_MAP_no_prefix : CHARACTER_MAP !! PREFIX_BYTE = None.
Proof. by vm_compute. Qed.

(** The reverse table is the inverse of the glyph table. *)
Lemma REVERSE_CHARACTER_MAP_spec g b :
  REVERSE_CHARACTER_MAP !! g = Some b <-> CHARACTER_MAP !! b = Some g.
Proof.
  unfold REVERSE_CHARACTER_MAP, CHARACTER_MAP.
  rewrite !dict_lookup.
  - rewrite list_elem_of_fmap. split.
    + by intros ([b' g'] & [= -> ->] & Hin).
    + intros Hin. by exists (b, g).
  - apply CHARACTER_MAP_keys_NoDup.
  - rewrite <- list_fmap_compose. apply CHARACTER_MAP_values_NoDup.
Qed.

(** C9, where the code departs from it. Byte 0x00 is the string terminator
    of [parse_ac_text] and [encode_ac_text], yet [CHARACTER_MAP] gives it a
    glyph, the inverted exclamation mark U+00A1. The reverse table therefore
    sends that character to the terminator, and a text that starts with it
    is encoded to bytes that decode to the empty text. *)
Theorem glyph_table_has_terminator_entry :
  CHARACTER_MAP !! 0x00 = Some [0xA1]
  /\ REVERSE_CHARACTER_MAP !! [0xA1] = Some 0x00
  /\ encode_ac_text (0xA1 :: u "Hola!") = Ok [0x00; 0x48; 0x6F; 0x6C; 0x61; 0x21; 0x00]
  /\ parse_ac_text [0x00; 0x48; 0x6F; 0x6C; 0x61; 0x21; 0x00] = Ok [].
Proof. by vm_compute. Qed.
(** ** [parse_ac_text] *)

Lemma returns_Ok {A} (r : res A) : returns r = true -> exists a, r = Ok a.
Proof. destruct r; [eauto|done|done]. Qed.

Lemma CODE_ARG_COUNT_keys_NoDup : NoDup CODE_ARG_COUNT_items.*1.
Proof. apply (bool_decide_unpack _). by vm_compute. Qed.

Lemma index_lt {A} (l : list A) i : (i < length l)%nat -> exists x, l !! i = Some x /\ index l i = Ok x.
Proof.
  intros Hi. destruct (lookup_lt_is_Some_2 l i Hi) as [x Hx]. exists x.
  unfold index. by rewrite Hx.
Qed.

(** Unfold the exception monad and [default], nothing else. *)
Tactic Notation "res_simpl" := cbn [mbind res_bind mret res_ret from_option id].
Tactic Notation "res_simpl" "in" hyp(H) :=
  cbn [mbind res_bind mret res_ret from_option id] in H.

Ltac list_of_length l :=
  repeat (let x := fresh "b" in destruct l as [|x l]; [discriminate|]);
  destruct l; [|discriminate].

(** With all its argument bytes present, a control code of the table is
    formatted without an exception. *)
Lemma format_code_returns command num_args args_bytes :
  CODE_ARG_COUNT !! command = Some num_args -> length args_bytes = num_args ->
  returns (args_tuple ← args_tuple_of command num_args args_bytes;
           format_or_desc (default (code_placeholder command) (CONTROL_CODES !! command))
                          args_tuple) = true.
Proof.
  intros Hc Hl. apply (dict_lookup _ _ _ CODE_ARG_COUNT_keys_NoDup) in Hc.
  unfold CODE_ARG_COUNT_items in Hc.
  repeat (apply elem_of_cons in Hc as [[= -> ->]|Hc];
          [list_of_length args_bytes; by vm_compute|]).
  by apply elem_of_nil in Hc.
Qed.

Lemma length_slice_full {A} (l : list A) a n :
  (length (slice l a (a + n)) <? n)%nat = false -> length (slice l a (a + n)) = n.
Proof.
  intros H. apply Nat.ltb_ge in H. unfold slice in *.
  rewrite length_take in *. lia.
Qed.

(** One turn of the loop returns, and moves forward when it goes on. *)
Lemma parse_step_returns data i text_buffer :
  (i < length data)%nat ->
  exists c, parse_step data i text_buffer = Ok c
            /\ match c with Next i' _ => (i < i')%nat | Break _ => True end.
Proof.
  intros Hi. unfold parse_step.
  destruct (index_lt data i Hi) as (byte & _ & ->). res_simpl.
  destruct (byte =? 0); [by eexists|].
  destruct (byte =? PREFIX_BYTE); [|eexists; split; [done|lazy beta iota; lia]].
  destruct (length data <=? S i)%nat eqn:Hlen; [by eexists|].
  apply Nat.leb_gt in Hlen. destruct (index_lt data (S i) Hlen) as (command & _ & ->). res_simpl.
  destruct (command =? 0) eqn:Hz.
  { apply N.eqb_eq in Hz as ->. by vm_compute; eexists. }
  destruct (CODE_ARG_COUNT !! command) as [num_args|] eqn:Hc; res_simpl;
    [|eexists; split; [done|lazy beta iota; lia]].
  destruct (0 <? num_args)%nat; [|eexists; split; [done|lazy beta iota; lia]].
  destruct (_ <? num_args)%nat eqn:Hshort; [eexists; split; [done|lazy beta iota; lia]|].
  apply length_slice_full in Hshort.
  pose proof (format_code_returns command num_args _ Hc Hshort) as Hr.
  destruct (args_tuple_of _ _ _) as [args_tuple| |]; res_simpl; try done.
  revert Hr. res_simpl. intros Hr.
  destruct (format_or_desc _ _) as [t| |]; res_simpl; try done.
  eexists; split; [done|lazy beta iota; lia].
Qed.

Lemma parse_loop_returns fuel data i text_buffer :
  (length data - i <= fuel)%nat -> exists r, parse_loop fuel data i text_buffer = Ok r.
Proof.
  revert i text_buffer. induction fuel as [|fuel IH]; intros i text_buffer Hf; cbn [parse_loop].
  - destruct (i <? length data)%nat eqn:Hi; [apply Nat.ltb_lt in Hi; lia|by eexists].
  - destruct (i <? length data)%nat eqn:Hi; [|by eexists].
    apply Nat.ltb_lt in Hi.
    destruct (parse_step_returns data i text_buffer Hi) as (c & -> & Hc). res_simpl.
    destruct c as [i' text_buffer'|text_buffer']; [|by eexists].
    apply IH. lia.
Qed.

(** The decoder is total: every buffer decodes to a text. *)
Lemma parse_ac_text_returns data : exists text, parse_ac_text data = Ok text.
Proof.
  unfold parse_ac_text.
  destruct (parse_loop_returns (length data) data 0 []) as [r ->]; [lia|].
  by eexists.
Qed.

(** More fuel than the bytes left does not change the answer. *)
Lemma parse_loop_fuel fuel fuel' data i text_buffer :
  (length data - i <= fuel)%nat -> (length data - i <= fuel')%nat ->
  parse_loop fuel data i text_buffer = parse_loop fuel' data i text_buffer.
Proof.
  revert fuel' i text_buffer. induction fuel as [|fuel IH]; intros fuel' i text_buffer Hf Hf'.
  - destruct fuel'; cbn [parse_loop]; destruct (i <? length data)%nat eqn:Hi; try done;
      apply Nat.ltb_lt in Hi; lia.
  - destruct fuel'; cbn [parse_loop]; destruct (i <? length data)%nat eqn:Hi; try done;
      apply Nat.ltb_lt in Hi; [lia|].
    destruct (parse_step_returns data i text_buffer Hi) as (c & -> & Hc). res_simpl.
    destruct c as [i' text_buffer'|text_buffer']; [|done].
    apply IH; lia.
Qed.

Lemma index_Some {A} (l : list A) i x : l !! i = Some x -> index l i = Ok x.
Proof. intros H. unfold index. by rewrite H. Qed.

Lemma CODE_ARG_COUNT_nonzero command num_args :
  CODE_ARG_COUNT !! command = Some num_args -> (command =? 0) = false /\ (0 < num_args)%nat.
Proof.
  intros Hc.
  pose proof (dict_forall (fun k v => negb (k =? 0) && (0 <? v)%nat) _ _ _
                CODE_ARG_COUNT_keys_NoDup eq_refl Hc) as H.
  apply andb_prop in H as [H1 H2]. apply negb_true_iff in H1. apply Nat.ltb_lt in H2. done.
Qed.

(** At a prefix byte followed by an opcode with too few argument bytes left,
    the loop body emits the marker and moves to the end of the buffer. *)
Lemma parse_step_malformed data i text_buffer command num_args :
  data !! i = Some PREFIX_BYTE -> data !! S i = Some command ->
  CODE_ARG_COUNT !! command = Some num_args ->
  (length data - (i + 2) < num_args)%nat ->
  parse_step data i text_buffer
  = Ok (Next (length data) (text_buffer ++ [malformed command])).
Proof.
  intros Hp Hc Hn Hshort. unfold parse_step.
  rewrite (index_Some _ _ _ Hp). res_simpl.
  change (PREFIX_BYTE =? 0) with false. rewrite N.eqb_refl. cbv iota.
  pose proof (lookup_lt_Some _ _ _ Hc) as Hlt.
  destruct (Nat.leb_spec (length data) (S i)) as [|_]; [lia|].
  rewrite (index_Some _ _ _ Hc). res_simpl.
  destruct (CODE_ARG_COUNT_nonzero _ _ Hn) as [-> Hpos]. rewrite Hn. res_simpl.
  destruct (Nat.ltb_spec 0 num_args) as [_|]; [|lia].
  assert (length (slice data (S i + 1) (S i + 1 + num_args)) = length data - (i + 2))%nat as Hl.
  { unfold slice. rewrite length_take, length_drop. lia. }
  rewrite Hl. destruct (Nat.ltb_spec (length data - (i + 2)) num_args) as [_|]; [|lia].
  do 2 f_equal. lia.
Qed.

Lemma parse_loop_malformed fuel data i text_buffer command num_args :
  data !! i = Some PREFIX_BYTE -> data !! S i = Some command ->
  CODE_ARG_COUNT !! command = Some num_args ->
  (length data - (i + 2) < num_args)%nat ->
  parse_loop (S fuel) data i text_buffer = Ok (text_buffer ++ [malformed command]).
Proof.
  intros Hp Hc Hn Hshort. cbn [parse_loop].
  pose proof (lookup_lt_Some _ _ _ Hp) as Hlt.
  destruct (Nat.ltb_spec i (length data)) as [_|]; [|lia].
  rewrite (parse_step_malformed _ _ _ _ _ Hp Hc Hn Hshort). res_simpl.
  destruct fuel; cbn [parse_loop]; by rewrite Nat.ltb_irrefl.
Qed.

(** At a prefix byte that ends the buffer the loop stops with what it has. *)
Lemma parse_loop_bare_prefix fuel data i text_buffer :
  data !! i = Some PREFIX_BYTE -> S i = length data ->
  parse_loop (S fuel) data i text_buffer = Ok text_buffer.
Proof.
  intros Hp Hend. cbn [parse_loop].
  destruct (Nat.ltb_spec i (length data)) as [_|]; [|lia].
  unfold parse_step. rewrite (index_Some _ _ _ Hp). res_simpl.
  change (PREFIX_BYTE =? 0) with false. rewrite N.eqb_refl. cbv iota.
  rewrite <- Hend. by rewrite Nat.leb_refl.
Qed.

Lemma parse_step_plain data i text_buffer byte :
  data !! i = Some byte -> plain_byte byte ->
  parse_step data i text_buffer = Ok (Next (i + 1) (text_buffer ++ [glyph_text byte])).
Proof.
  intros Hb [H0 Hp]. unfold parse_step. rewrite (index_Some _ _ _ Hb). res_simpl.
  apply N.eqb_neq in H0, Hp. by rewrite H0, Hp.
Qed.

(** The loop over a run of plain bytes. *)
Lemma parse_loop_plain fuel before run rest text_buffer :
  Forall plain_byte run ->
  parse_loop (length run + fuel) (before ++ run ++ rest) (length before) text_buffer
  = parse_loop fuel (before ++ run ++ rest) (length before + length run)
               (text_buffer ++ (glyph_text <$> run)).
Proof.
  intros Hrun. revert before text_buffer.
  induction Hrun as [|b run Hb Hrun IH]; intros before text_buffer.
  - cbn. by rewrite Nat.add_0_r, app_nil_r.
  - change ((b :: run) ++ rest) with (b :: run ++ rest). cbn [length Nat.add parse_loop].
    destruct (Nat.ltb_spec (length before) (length (before ++ b :: run ++ rest))) as [_|Hge].
    2:{ rewrite !length_app in Hge. cbn in Hge. lia. }
    rewrite (parse_step_plain _ _ _ b); [|by apply list_lookup_middle|done]. res_simpl.
    specialize (IH (before ++ [b]) (text_buffer ++ [glyph_text b])).
    rewrite <- !app_assoc, length_app in IH. cbn in IH.
    rewrite IH. by replace (length before + 1 + length run)%nat
      with (length before + S (length run))%nat by lia.
Qed.

Lemma parse_ac_text_plain_then run tail r :
  Forall plain_byte run ->
  parse_loop (length tail) (run ++ tail) (length run) (glyph_text <$> run) = Ok r ->
  parse_ac_text (run ++ tail) = Ok (concat r).
Proof.
  intros Hrun Hr. unfold parse_ac_text. rewrite length_app.
  pose proof (parse_loop_plain (length tail) [] run tail [] Hrun) as Hp.
  cbn [app length Nat.add] in Hp. rewrite Hp, Hr. done.
Qed.

(** The marker the loop appends is the malformed-code marker of the opcode,
    for every opcode that takes arguments. *)
Lemma malformed_is_marker command num_args :
  CODE_ARG_COUNT !! command = Some num_args -> malformed command = malformed_code_marker command.
Proof.
  intros Hc.
  assert (forallb (fun kv : N * nat =>
                     bool_decide (malformed kv.1 = malformed_code_marker kv.1))
                  CODE_ARG_COUNT_items = true) as Hall by (vm_compute; reflexivity).
  pose proof (dict_forall (fun k v => bool_decide (malformed k = malformed_code_marker k))
                _ _ _ CODE_ARG_COUNT_keys_NoDup Hall Hc) as H.
  by apply bool_decide_eq_true_1 in H.
Qed.

(** C3. Where the scan meets a prefix byte followed by an opcode whose
    declared argument count exceeds the bytes left, one turn of the loop
    appends the malformed-code marker of that opcode, the text
    Malformed Code 0x and the two upper-case hexadecimal digits of the
    opcode in angle brackets, and moves the index to the end of the buffer
    (past the opcode and the bytes present), and the loop ends there with
    the text read so far and the marker. Where the scan meets a prefix byte
    that is the last byte of the buffer, the loop ends with the text read so
    far. After a run of plain bytes the whole decoder returns, without an
    exception, the glyphs of the run followed by the marker, respectively
    the glyphs of the run alone. *)
Theorem parse_malformed_recovery (data pre args : bytes) (i fuel : nat)
    (text_buffer : list str) (command : N) (num_args : nat) :
  CODE_ARG_COUNT !! command = Some num_args ->
  (data !! i = Some PREFIX_BYTE -> data !! S i = Some command ->
   (length data - (i + 2) < num_args)%nat ->
   parse_step data i text_buffer
   = Ok (Next (length data) (text_buffer ++ [malformed_code_marker command]))
   /\ parse_loop (S fuel) data i text_buffer
      = Ok (text_buffer ++ [malformed_code_marker command]))
  /\ (data !! i = Some PREFIX_BYTE -> S i = length data ->
      parse_loop (S fuel) data i text_buffer = Ok text_buffer)
  /\ (Forall plain_byte pre -> (length args < num_args)%nat ->
      parse_ac_text (pre ++ PREFIX_BYTE :: command :: args)
      = Ok (concat (glyph_text <$> pre) ++ malformed_code_marker command))
  /\ (Forall plain_byte pre ->
      parse_ac_text (pre ++ [PREFIX_BYTE]) = Ok (concat (glyph_text <$> pre))).
Proof.
  intros Hn. rewrite <- (malformed_is_marker _ _ Hn). repeat split.
  - by eapply parse_step_malformed.
  - by eapply parse_loop_malformed.
  - apply parse_loop_bare_prefix.
  - intros Hpre Hshort.
    erewrite parse_ac_text_plain_then; [|done|].
    2:{ apply (parse_loop_malformed _ _ _ _ command num_args); [| |done|].
        - by apply list_lookup_middle.
        - rewrite (lookup_app_r pre) by lia.
          by replace (S (length pre) - length pre)%nat with 1%nat by lia.
        - rewrite length_app. cbn. lia. }
    rewrite concat_app. cbn. by rewrite app_nil_r.
  - intros Hpre.
    erewrite parse_ac_text_plain_then; [done|done|].
    apply parse_loop_bare_prefix; [by apply list_lookup_middle|].
    rewrite length_app. cbn. lia.
Qed.

Lemma parse_malformed_recovery_witness :
  parse_ac_text (u "Hi" ++ PREFIX_BYTE :: 0x15 :: [1; 2; 3]) = Ok (u "Hi<Malformed Code 0x15>")
  /\ parse_ac_text (u "Hi" ++ PREFIX_BYTE :: 0x5A :: [1]) = Ok (u "Hi<Malformed Code 0x5A>")
  /\ parse_ac_text (u "Hi" ++ [PREFIX_BYTE]) = Ok (u "Hi").
Proof.
  assert (CODE_ARG_COUNT !! 0x15 = Some 8%nat) as Hn by (by vm_compute).
  assert (CODE_ARG_COUNT !! 0x5A = Some 2%nat) as Hn' by (by vm_compute).
  assert (Forall plain_byte (u "Hi")) as Hp by (repeat constructor; by vm_compute).
  destruct (parse_malformed_recovery [] (u "Hi") [1; 2; 3] 0 0 [] 0x15 8 Hn) as (_ & _ & H3 & H4).
  destruct (parse_malformed_recovery [] (u "Hi") [1] 0 0 [] 0x5A 2 Hn') as (_ & _ & H3' & _).
  split; [|split].
  - rewrite (H3 Hp) by (cbn; lia). vm_compute. reflexivity.
  - rewrite (H3' Hp) by (cbn; lia). vm_compute. reflexivity.
  - rewrite (H4 Hp). vm_compute. reflexivity.
Defined.

(** ** [encode_ac_text] raises *)

(** C2, where the code departs from it. [parse_ac_text] is total (lemma
    [parse_ac_text_returns]), but [encode_ac_text] raises on a tag the
    decoder itself produces: the decoded sound-effect tag names its argument,
    [arg_pattern] finds no hexadecimal argument in it, and [args[0]] is an
    [IndexError]. An argument too wide for its field is a [struct.error]. *)
Theorem encode_ac_text_raises :
  parse_ac_text [0x7F; 0x59; 0x06; 0x00] = Ok (u "<Play Sound Effect [Thunder]>")
  /\ encode_ac_text (u "<Play Sound Effect [Thunder]>") = Raise IndexError
  /\ encode_ac_text (u "<Pause []>") = Raise IndexError
  /\ encode_ac_text (u "<Pause [123]>") = Raise StructError.
Proof. by vm_compute. Qed.

(** ** The round trip fails on tags the decoder prints *)

(** C1, where the code departs from it. The canonical display form of a
    recognized tag, as [parse_ac_text] prints it, is not always encoded to
    the bytes it came from. [arg_pattern] takes from each bracket only the
    last run of hexadecimal digits before the closing bracket: of the two
    addresses of a Rand Jump 2 tag the first is lost, and the bytes decode
    to the malformed-code marker; of the three values of a Set Demo Order
    tag only the last is kept; in a tag that names its argument, the last
    letter of the name is read as a number when it is a hexadecimal digit,
    so the expression Glare comes back as Happy Dance. *)
Theorem round_trip_fails_on_canonical_tags :
  parse_ac_text [0x7F; 0x13; 0x00; 0x01; 0x00; 0x02; 0x00] = Ok (u "<Rand Jump 2 [0001, 0002]>")
  /\ encode_ac_text (u "<Rand Jump 2 [0001, 0002]>") = Ok [0x7F; 0x13; 0x00; 0x02; 0x00]
  /\ parse_ac_text [0x7F; 0x13; 0x00; 0x02; 0x00] = Ok (u "<Malformed Code 0x13>")
  /\ parse_ac_text [0x7F; 0x0A; 0x01; 0x02; 0x03; 0x00] = Ok (u "<Set Demo Order [01, 02, 03]>")
  /\ encode_ac_text (u "<Set Demo Order [01, 02, 03]>") = Ok [0x7F; 0x0C; 0x00; 0x03; 0x00]
  /\ parse_ac_text [0x7F; 0x0C; 0x00; 0x03; 0x00] = Ok (u "<Set Demo Order [00, 03, 00]>")
  /\ parse_ac_text [0x7F; 0x09; 0x01; 0x00; 0x01; 0x00] = Ok (u "<NPC Expression [Cat:01] [Glare]>")
  /\ encode_ac_text (u "<NPC Expression [Cat:01] [Glare]>") = Ok [0x7F; 0x09; 0x01; 0x00; 0x0E; 0x00]
  /\ parse_ac_text [0x7F; 0x09; 0x01; 0x00; 0x0E; 0x00]
     = Ok (u "<NPC Expression [Cat:01] [Happy Dance]>").
Proof. by vm_compute. Qed.
(** ** [encode_ac_text] on plain text *)

Lemma replace_absent src dst (s : str) :
  Forall (fun c => c <> src) s -> replace src dst s = s.
Proof.
  unfold replace. induction 1 as [|c s Hc _ IH]; [done|].
  cbn. apply N.eqb_neq in Hc. rewrite Hc. cbn. by f_equal.
Qed.

(** No glyph is one of the typographic characters that
    [_normalize_visible_text] rewrites. *)
Lemma has_glyph_not_replaced c sd : has_glyph c -> sd ∈ replacements -> c <> sd.1.
Proof.
  intros [b Hb] Hsd ->. unfold replacements in Hsd.
  repeat (apply elem_of_cons in Hsd as [->|Hsd]; [by vm_compute in Hb|]).
  by apply elem_of_nil in Hsd.
Qed.

Lemma normalize_visible_text_glyphs (s : str) :
  Forall (fun c => forall sd, sd ∈ replacements -> c <> sd.1) s ->
  _normalize_visible_text s = s.
Proof.
  intros Hs. unfold _normalize_visible_text.
  induction replacements as [|sd l IH] in Hs |- *; [done|].
  cbn [foldl]. rewrite replace_absent.
  - apply IH. eapply Forall_impl; [done|]. intros c Hc sd' Hsd'. apply Hc. by right.
  - eapply Forall_impl; [done|]. intros c Hc. apply Hc. by left.
Qed.

Lemma sanitize_kept (s : str) :
  Forall (fun c => keeps c = true) s -> _sanitize_for_charset s = s.
Proof.
  unfold _sanitize_for_charset. induction 1 as [|c s Hc _ IH]; [done|].
  rewrite filter_cons_True by done. by f_equal.
Qed.

Lemma has_glyph_keeps c : has_glyph c -> keeps c = true.
Proof.
  intros Hc. unfold keeps. rewrite (bool_decide_eq_true_2 _ Hc).
  by rewrite orb_true_r.
Qed.

(** A text without an opening angle bracket has no tag to normalise. *)
Lemma normalize_control_tags_plain (s : str) :
  Forall (fun c => c <> 60) s -> _normalize_control_tags s = s.
Proof.
  intros Hs. unfold _normalize_control_tags. cbv zeta.
  rewrite (sub_absent 60 closing_tag_re) by (reflexivity || assumption).
  rewrite (sub_absent 60 npc_expression_re) by (reflexivity || assumption).
  rewrite (sub_absent 60 player_emotion_re) by (reflexivity || assumption).
  rewrite (sub_absent 60 (bare_arg_re "Pause" 2)) by (reflexivity || assumption).
  rewrite (sub_absent 60 (bare_arg_re "Line Type" 2)) by (reflexivity || assumption).
  rewrite (sub_absent 60 (bare_arg_re "Play Sound Effect" 2)) by (reflexivity || assumption).
  rewrite (sub_absent 60 (bare_arg_re "Char Size" 4)) by (reflexivity || assumption).
  rewrite (sub_absent 60 (bare_arg_re "Line Size" 4)) by (reflexivity || assumption).
  rewrite (sub_absent 60 color_for_re) by (reflexivity || assumption).
  rewrite (sub_absent 60 color_for_chars_re) by (reflexivity || assumption).
  rewrite (sub_absent 60 color_line_re) by (reflexivity || assumption).
  rewrite (sub_absent 60 color_bare_re) by (reflexivity || assumption).
  by rewrite (sub_absent 60 color_bracket_re) by (reflexivity || assumption).
Qed.

Lemma encode_char_glyph enc cc c :
  has_glyph c ->
  encode_char (enc, cc) c
  = (enc ++ glyphs [c], if c =? 10 then 0%nat else S cc).
Proof. intros [b Hb]. unfold encode_char, glyphs. cbn. by rewrite Hb. Qed.

Lemma encode_chars_word enc cc w :
  Forall word_char w ->
  foldl encode_char (enc, cc) w = (enc ++ glyphs w, (cc + length w)%nat).
Proof.
  intros Hw. revert enc cc. induction Hw as [|c w (Hg & _ & Hnl & _) _ IH]; intros enc cc.
  - cbn. by rewrite app_nil_r, Nat.add_0_r.
  - cbn [foldl]. rewrite encode_char_glyph by done.
    apply N.eqb_neq in Hnl. rewrite Hnl, IH.
    unfold glyphs. rewrite fmap_cons, <- app_assoc. cbn. f_equal. lia.
Qed.

(** One word, in any state of the line: a line break or a space or nothing,
    then the bytes of the word and nothing in between. *)
Lemma encode_word_word enc cc idx w :
  Forall word_char w ->
  encode_word (enc, cc) idx w
  = let space_needed := if (0 <? idx)%nat && (0 <? cc)%nat then 1%nat else 0%nat in
    if (0 <? cc)%nat && (30 <? cc + space_needed + length w)%nat
    then (enc ++ [0xCD] ++ glyphs w, length w)
    else (enc ++ replicate space_needed 0x20 ++ glyphs w, (cc + space_needed + length w)%nat).
Proof.
  intros Hw. unfold encode_word. cbv zeta.
  destruct (0 <? idx)%nat, (0 <? cc)%nat; cbn [andb].
  all: repeat match goal with |- context [(30 <? ?x)%nat] => destruct (30 <? x)%nat end.
  all: cbn [Nat.ltb Nat.leb replicate].
  all: rewrite encode_chars_word by done.
  all: rewrite <- ?app_assoc; f_equal; lia.
Qed.

Lemma split_word w : Forall word_char w -> Py.split 32 w = [w].
Proof.
  induction 1 as [|c w (_ & Hsp & _) _ IH]; [done|].
  cbn. rewrite IH. apply N.eqb_neq in Hsp. by rewrite Hsp.
Qed.

Lemma split_cons_inv sep (s : str) : exists w ws, Py.split sep s = w :: ws.
Proof.
  destruct s as [|c s]; cbn; [by eexists _, _|].
  destruct (Py.split sep s); [by eexists _, _|]. destruct (c =? sep); by eexists _, _.
Qed.

Lemma split_app_sep (w rest : str) :
  Forall (fun c => c <> 32) w -> Py.split 32 (w ++ 32 :: rest) = w :: Py.split 32 rest.
Proof.
  induction 1 as [|c w Hsp _ IH].
  - cbn. by destruct (split_cons_inv 32 rest) as (? & ? & ->).
  - cbn [app Py.split]. rewrite IH. apply N.eqb_neq in Hsp. by rewrite Hsp.
Qed.

Lemma split_join_words_all ws :
  ws <> [] -> Forall is_word ws -> Py.split 32 (join_words ws) = ws.
Proof.
  intros Hne Hws. induction Hws as [|w ws [_ Hw] Hws IH]; [done|].
  destruct ws as [|w' ws]; [by apply split_word|].
  change (join_words (w :: w' :: ws)) with (w ++ 32 :: join_words (w' :: ws)).
  rewrite split_app_sep, IH; [done|done|].
  eapply Forall_impl; [done|]. by intros c (_ & ? & _).
Qed.

(** The words after the first one, the line holding [cc >= 1] characters. *)
Lemma encode_words_rest enc cc k ws :
  (0 < cc)%nat -> Forall is_word ws ->
  (foldl (fun st iw => encode_word st iw.1 iw.2) (enc, cc)
         (imap (fun i w => (S (k + i), w)) ws)).1
  = enc ++ wrap_rest cc ws.
Proof.
  intros Hcc Hws. revert enc cc k Hcc.
  induction Hws as [|w ws [Hne Hw] _ IH]; intros enc cc k Hcc.
  - cbn. by rewrite app_nil_r.
  - cbn [imap foldl wrap_rest fst snd]. rewrite encode_word_word by done. cbv zeta.
    replace (0 <? S (k + 0))%nat with true by done.
    destruct (Nat.ltb_spec 0 cc) as [_|]; [|lia]. cbn [andb].
    assert (0 < length w)%nat by (destruct w; [done|cbn; lia]).
    rewrite (imap_ext _ (fun i w => (S (S k + i), w))) by (intros; cbn; f_equal; lia).
    destruct (30 <? cc + 1 + length w)%nat.
    + rewrite IH by lia. by rewrite <- !app_assoc.
    + rewrite IH by lia. by rewrite <- !app_assoc.
Qed.

Lemma encode_literal_words ws :
  ws <> [] -> Forall is_word ws ->
  (encode_literal ([], 0%nat) (join_words ws)).1 = wrap_words ws.
Proof.
  intros Hne Hws. unfold encode_literal. rewrite split_join_words_all by done.
  destruct Hws as [|w ws [Hw0 Hw] Hws]; [done|].
  cbn [imap foldl fst snd wrap_words]. rewrite encode_word_word by done. cbv zeta.
  change (0 <? 0)%nat with false. cbn [andb replicate app Nat.add].
  rewrite (imap_ext _ (fun i w => (S (0 + i), w))) by done.
  rewrite encode_words_rest; [done| |done]. destruct w; [done|cbn; lia].
Qed.

Lemma join_words_plain ws :
  Forall is_word ws ->
  Forall (fun c => has_glyph c /\ c <> 60) (join_words ws).
Proof.
  induction 1 as [|w ws [_ Hw] Hws IH]; [done|].
  assert (Forall (fun c => has_glyph c /\ c <> 60) w) as Hw'.
  { eapply Forall_impl; [done|]. by intros c (? & _ & _ & ?). }
  destruct ws as [|w' ws]; [done|]. cbn [join_words].
  apply Forall_app. split; [done|]. constructor; [|done].
  split; [|done]. by vm_compute; eexists.
Qed.

(** A non-empty text of glyphs without a tag is encoded as one literal run. *)
Lemma encode_ac_text_plain (s : str) :
  s <> [] -> Forall (fun c => has_glyph c /\ c <> 60) s ->
  encode_ac_text s = Ok ((encode_literal ([], 0%nat) s).1 ++ [0x00]).
Proof.
  intros Hne Hs. unfold encode_ac_text.
  rewrite normalize_control_tags_plain by (eapply Forall_impl; [done|]; by intros c []).
  rewrite normalize_visible_text_glyphs.
  2:{ eapply Forall_impl; [done|]. intros c [Hc _] sd. by apply has_glyph_not_replaced. }
  rewrite sanitize_kept.
  2:{ eapply Forall_impl; [done|]. intros c [Hc _]. by apply has_glyph_keeps. }
  rewrite (split_absent 60) by (done || (eapply Forall_impl; [done|]; by intros c [])).
  cbn [foldl]. res_simpl. unfold encode_token.
  destruct s as [|c s]; [done|].
  apply Forall_cons in Hs as [[_ Hc] _]. cbn [startswith u].
  apply N.eqb_neq in Hc.
  change (startswith (u "<") (c :: s)) with ((c =? 60) && true).
  by rewrite Hc.
Qed.

Lemma encode_ac_text_words ws :
  Forall is_word ws -> encode_ac_text (join_words ws) = Ok (wrap_words ws ++ [0x00]).
Proof.
  intros Hws. destruct ws as [|w ws]; [by vm_compute|].
  rewrite encode_ac_text_plain.
  - by rewrite encode_literal_words.
  - apply Forall_cons in Hws as [[Hne _] _]. destruct w; [done|]. by destruct ws.
  - by apply join_words_plain.
Qed.

(** The line-break byte belongs to the line-break character alone. *)
Lemma glyphs_no_break w : Forall word_char w -> 0xCD ∉ glyphs w.
Proof.
  intros Hw Hin. unfold glyphs in Hin. apply list_elem_of_fmap in Hin as (c & Hc & Hin).
  rewrite Forall_forall in Hw. destruct (Hw c Hin) as ([b Hb] & _ & Hnl & _).
  rewrite Hb in Hc. cbn in Hc. subst b.
  apply REVERSE_CHARACTER_MAP_spec in Hb.
  assert (CHARACTER_MAP !! 0xCD = Some [10]) as Hb' by (by vm_compute).
  rewrite Hb in Hb'. by injection Hb'.
Qed.

(** C8, as amended. A run of word characters without a space is encoded to
    its own bytes and is never split, whatever its length (so at 30
    characters). Two words of 31 characters in all, space included, are
    split at the space, which the line-break byte replaces, and nowhere
    else. In general, for words joined by single spaces, a line-break byte is
    emitted before a word exactly when the current line is not empty and the
    line, a space and the word would exceed 30 columns ([wrap_words]); the
    first word of a line is never preceded by a line break. *)
Theorem word_wrap (ws : list str) (w w1 w2 : str) :
  (Forall word_char w ->
   encode_ac_text w = Ok (glyphs w ++ [0x00]) /\ (0xCD ∉ glyphs w))
  /\ (is_word w1 -> is_word w2 -> (length w1 + 1 + length w2 = 31)%nat ->
      encode_ac_text (w1 ++ 32 :: w2) = Ok (glyphs w1 ++ 0xCD :: glyphs w2 ++ [0x00])
      /\ (0xCD ∉ glyphs w1) /\ (0xCD ∉ glyphs w2))
  /\ (Forall is_word ws ->
      encode_ac_text (join_words ws) = Ok (wrap_words ws ++ [0x00])).
Proof.
  split; [|split].
  - intros Hw. split; [|by apply glyphs_no_break].
    destruct w as [|c w]; [by vm_compute|].
    pose proof (encode_ac_text_words [c :: w]) as E.
    cbn [join_words wrap_words wrap_rest] in E. rewrite app_nil_r in E.
    apply E. constructor; [by split|constructor].
  - intros Hw1 Hw2 Hlen. split; [|split; apply glyphs_no_break; [apply Hw1|apply Hw2]].
    pose proof (encode_ac_text_words [w1; w2]) as E.
    cbn [join_words wrap_words wrap_rest] in E. rewrite Hlen in E.
    change (30 <? 31)%nat with true in E. cbv iota in E.
    rewrite app_nil_r, <- app_assoc in E. apply E.
    constructor; [done|]. constructor; [done|constructor].
  - apply encode_ac_text_words.
Qed.

Lemma word_wrap_witness :
  encode_ac_text (u "abcdefghijklmnopqrstuvwxyz0123")
  = Ok (glyphs (u "abcdefghijklmnopqrstuvwxyz0123") ++ [0x00])
  /\ encode_ac_text (u "abcdefghijklmno" ++ 32 :: u "ABCDEFGHIJKLMNO")
     = Ok (glyphs (u "abcdefghijklmno") ++ 0xCD :: glyphs (u "ABCDEFGHIJKLMNO") ++ [0x00])
  /\ encode_ac_text (join_words [u "Hello"; u "there!"])
     = Ok (wrap_words [u "Hello"; u "there!"] ++ [0x00]).
Proof.
  assert (forall w : str,
            forallb (fun c => bool_decide (has_glyph c) && negb (c =? 32)
                              && negb (c =? 10) && negb (c =? 60)) w = true ->
            Forall word_char w) as Hwc.
  { intros w Hw. apply Forall_forall. intros c Hc. rewrite forallb_forall in Hw.
    apply list_elem_of_In, Hw in Hc.
    repeat (apply andb_prop in Hc as [Hc ?]).
    repeat split; [by apply bool_decide_eq_true_1 in Hc|..];
      apply N.eqb_neq; by apply negb_true_iff. }
  destruct (word_wrap [u "Hello"; u "there!"] (u "abcdefghijklmnopqrstuvwxyz0123")
              (u "abcdefghijklmno") (u "ABCDEFGHIJKLMNO")) as (H1 & H2 & H3).
  split; [apply H1; apply Hwc; by vm_compute|].
  split; [apply H2; [split; [done|apply Hwc; by vm_compute]..|done]|].
  apply H3.
  constructor; [split; [done|apply Hwc; by vm_compute]|].
  constructor; [split; [done|apply Hwc; by vm_compute]|constructor].
Defined.

(** C8 as stated fails: a word of 31 characters at the start of a line
    would exceed the 30 columns, and no line break is emitted; the guard
    [char_count > 0] of the code excludes the empty line. *)
Lemma word_wrap_first_word_counterexample :
  (30 <? 0 + 0 + length (replicate 31 97))%nat = true
  /\ encode_ac_text (replicate 31 97) = Ok (replicate 31 0x61 ++ [0x00])
  /\ (0xCD ∉ replicate 31 0x61 ++ [0x00]).
Proof.
  split; [done|]. split; [by vm_compute|].
  apply (bool_decide_unpack _). by vm_compute.
Qed.
(** ** The watch loop *)

(** Case analysis on a computation in the exception monad that returned. *)
Ltac res_inv H :=
  res_simpl in H;
  repeat (first
    [ discriminate H
    | match type of H with
      | context [match ?x with _ => _ end] =>
          let E := fresh "E" in destruct x eqn:E; res_simpl in H
      | context [if ?b then _ else _] =>
          let E := fresh "E" in destruct b eqn:E; res_simpl in H
      end ]).

Lemma generation_gate_flags inp addr text state ws evs ws' evs' ph :
  generation_gate inp addr text state ws evs = Ok (ws', evs', ph) ->
  match ph with
  | Finished =>
      generation_in_progress ws' = generation_in_progress ws
      /\ lock_held ws' = lock_held ws /\ evs' = evs
  | Calling text' =>
      generation_in_progress ws' = <[addr := true]> (generation_in_progress ws)
      /\ lock_held ws' = true /\ lock_held ws = false
      /\ default false (generation_in_progress ws !! addr) = false
      /\ (chatty_requested state && negb (awaiting_choice_resolution state)) = true
      /\ text' = text
  end.
Proof.
  unfold generation_gate. intros H.
  destruct (chatty_requested state && negb (awaiting_choice_resolution state)) eqn:Hs;
    destruct (default false (generation_in_progress ws !! addr)) eqn:Hg;
    destruct (lock_held ws) eqn:Hl; cbn [andb negb] in H;
    try (injection H as <- <- <-; by rewrite ?Hl).
  destruct (write_dialogue_to_address _ _ _) as [[ok wevs]| |]; res_simpl in H; try done.
  by injection H as <- <- <-.
Qed.

Lemma poll_begin_flags print_all inp addr ws ws' evs ph :
  poll_begin print_all inp addr ws = Ok (ws', evs, ph) ->
  match ph with
  | Finished =>
      generation_in_progress ws' = generation_in_progress ws /\ lock_held ws' = lock_held ws
  | Calling _ =>
      generation_in_progress ws' = <[addr := true]> (generation_in_progress ws)
      /\ lock_held ws' = true /\ lock_held ws = false
      /\ default false (generation_in_progress ws !! addr) = false
  end.
Proof.
  unfold poll_begin. intros H.
  destruct (raw inp); [by injection H as <- <- <-|].
  destruct (parse_ac_text _) as [text| |]; res_simpl in H; try done.
  destruct (getitem (last_text_by_addr ws) addr) as [last| |]; res_simpl in H; try done.
  destruct (print_all || _); [|by injection H as <- <- <-].
  destruct (getitem (conversation_state ws) addr) as [state| |]; res_simpl in H; try done.
  destruct (_ <? _)%Z.
  { destruct (contains END_CONVERSATION text); by injection H as <- <- <-. }
  assert (forall state evs0,
            generation_gate inp addr text state ws evs0 = Ok (ws', evs, ph) ->
            match ph with
            | Finished =>
                generation_in_progress ws' = generation_in_progress ws
                /\ lock_held ws' = lock_held ws
            | Calling _ =>
                generation_in_progress ws' = <[addr := true]> (generation_in_progress ws)
                /\ lock_held ws' = true /\ lock_held ws = false
                /\ default false (generation_in_progress ws !! addr) = false
            end) as Hgate.
  { intros st evs0 Hg. apply generation_gate_flags in Hg.
    destruct ph; [by destruct Hg as (? & ? & _)|by destruct Hg as (? & ? & ? & ? & _)]. }
  destruct (_ && _ && _).
  - destruct (_inject_feeling_chatty_option text) as [modified|]; [|by eapply Hgate].
    destruct (_ && _); [|by eapply Hgate].
    destruct (encode_ac_text modified) as [encoded| |]; res_simpl in H; try done.
    destruct (parse_ac_text encoded) as [predicted| |]; res_simpl in H; try done.
    destruct (write_dialogue_to_address _ _ _) as [[ok wevs]| |]; res_simpl in H; try done.
    destruct ok; [by injection H as <- <- <-|by eapply Hgate].
  - destruct (_ && _ && _ && _); by eapply Hgate.
Qed.

Lemma write_dialogue_events t dialogue addr ok evs :
  write_dialogue_to_address t dialogue addr = Ok (ok, evs) ->
  (ok = false /\ evs = [])
  \/ exists encoded, encode_ac_text dialogue = Ok encoded /\ ok = write_ok t
                     /\ evs = [EvWrite addr encoded].
Proof.
  unfold write_dialogue_to_address. intros H.
  destruct (_ && _); [left; by injection H as <- <-|].
  destruct (encode_ac_text dialogue) as [encoded| |]; res_simpl in H; try done.
  right. exists encoded. by injection H as <- <-.
Qed.

(** A generation that succeeded: the generator returned a text, the text
    could be encoded, and the state records the re-decoded text and the new
    suppression deadline. *)
Lemma generate_and_write_Some SUPPRESS_SECONDS inp addr ws ws1 evs1 :
  generate_and_write SUPPRESS_SECONDS inp addr ws = Ok (Some (ws1, evs1)) ->
  exists combined encoded predicted,
    llm_text inp = Ok combined /\ encode_ac_text combined = Ok encoded
    /\ parse_ac_text encoded = Ok predicted
    /\ ws1 = set_suppress_until addr (now_written inp + SUPPRESS_SECONDS)%Z
               (set_last_text addr (Some predicted) ws)
    /\ (evs1 = [] \/ evs1 = [EvWrite addr encoded]).
Proof.
  unfold generate_and_write. intros H.
  destruct (llm_text inp) as [combined| |]; res_simpl in H; try done.
  destruct (write_dialogue_to_address _ _ _) as [[ok wevs]| |] eqn:Hw; res_simpl in H; try done.
  destruct (encode_ac_text combined) as [encoded| |] eqn:He; res_simpl in H; try done.
  destruct (parse_ac_text encoded) as [predicted| |] eqn:Hp; res_simpl in H; try done.
  injection H as <- <-. exists combined, encoded, predicted. repeat split; try done.
  apply write_dialogue_events in Hw as [[_ ->]|(enc & He' & _ & ->)]; [by left|].
  right. rewrite He in He'. by injection He' as ->.
Qed.

Lemma poll_finish_flags SUPPRESS_SECONDS inp addr text ws ws' evs :
  poll_finish SUPPRESS_SECONDS inp addr text ws = Ok (ws', evs) ->
  generation_in_progress ws' = <[addr := false]> (generation_in_progress ws)
  /\ lock_held ws' = false.
Proof.
  unfold poll_finish. intros H.
  destruct (generate_and_write _ _ _ _) as [[[ws1 evs1]|]| |] eqn:Hr; res_simpl in H; try done.
  - apply generate_and_write_Some in Hr as (? & ? & ? & _ & _ & _ & -> & _).
    destruct (getitem _ _) as [state| |]; res_simpl in H; try done.
    by injection H as <- <-.
  - destruct (getitem _ _) as [state| |]; res_simpl in H; try done.
    by injection H as <- <-.
Qed.

Lemma dict_go_lookup_inv `{Countable K} {V} (m : gmap K V) items k v :
  foldl (fun m kv => <[kv.1 := kv.2]> m) m items !! k = Some v ->
  (k, v) ∈ items \/ m !! k = Some v.
Proof.
  revert m. induction items as [|[k' v'] items IH]; intros m Hl; [by right|].
  cbn in Hl. apply IH in Hl as [Hin|Hl]; [left; by right|].
  destruct (decide (k' = k)) as [->|Hne].
  - rewrite lookup_insert_eq in Hl. injection Hl as ->. left. by left.
  - rewrite lookup_insert_ne in Hl by done. by right.
Qed.

Lemma init_single_flight addresses : single_flight (Idle (init addresses)).
Proof.
  split; [done|]. intros a Ha. unfold in_flight, init in Ha. cbn in Ha.
  apply dict_go_lookup_inv in Ha as [Hin|Ha]; [|done].
  by apply list_elem_of_fmap in Hin as (? & [=] & _).
Qed.

Lemma step_single_flight print_all SUPPRESS_SECONDS c c' :
  step print_all SUPPRESS_SECONDS c c' -> single_flight c -> single_flight c'.
Proof.
  destruct 1 as [inp addr ws ws' evs Hp|inp addr ws ws' evs text Hp|inp addr text ws ws' evs Hp];
    intros [Hl Hf]; cbn.
  - apply poll_begin_flags in Hp as [Hg Hl']. unfold in_flight in *.
    rewrite Hl', Hg. done.
  - apply poll_begin_flags in Hp as (Hg & Hl' & _ & _). unfold in_flight in *.
    split; [done|]. intros a. rewrite Hg. split.
    + intros Ha. destruct (decide (addr = a)) as [->|Hne]; [done|].
      rewrite lookup_insert_ne in Ha by done. by apply Hf in Ha.
    + intros ->. apply lookup_insert_eq.
  - apply poll_finish_flags in Hp as [Hg Hl']. unfold in_flight in *.
    split; [done|]. intros a. rewrite Hg. intros Ha.
    destruct (decide (addr = a)) as [->|Hne].
    + by rewrite lookup_insert_eq in Ha.
    + rewrite lookup_insert_ne in Ha by done. apply Hf in Ha. congruence.
Qed.

Lemma single_flight_unique c a b : single_flight c -> flying c a -> flying c b -> a = b.
Proof.
  destruct c as [ws|addr text ws]; intros [_ Hf] Ha Hb; cbn in *.
  - by apply Hf in Ha.
  - apply Hf in Ha, Hb. congruence.
Qed.

(** C4. In every configuration the watch loop reaches from its start, by
    polls of any addresses in any order and with any answers of the
    collaborators, at most one address is inside a generator call: between
    polls the gate is free and no in-flight flag is set, and during a
    generator call the gate is held and the flag of the calling address is
    the only one set. *)
Theorem single_flight_generation (print_all : bool) (SUPPRESS_SECONDS : Z)
    (addresses : list N) (c : config) :
  rtc (step print_all SUPPRESS_SECONDS) (Idle (init addresses)) c ->
  single_flight c /\ (forall a b, flying c a -> flying c b -> a = b).
Proof.
  intros Hr.
  assert (single_flight c) as Hc.
  { revert c Hr. apply rtc_ind_r; [apply init_single_flight|].
    intros c c' _ Hstep Hc. by eapply step_single_flight. }
  split; [done|]. intros a b. by apply single_flight_unique.
Qed.

Lemma single_flight_generation_witness :
  exists ws, flying (Generating 1 (u "Sure!") ws) 1
             /\ single_flight (Generating 1 (u "Sure!") ws).
Proof.
  eexists. split; [|eapply (single_flight_generation false 25 [1; 2])].
  2:{ eapply rtc_l; [eapply (step_poll _ _ (reads (u "Hello there!") 1 []) 1);
                     vm_compute; reflexivity|].
      eapply rtc_l; [eapply (step_poll _ _
                       (reads (u "<Open Choice Menu>A<Choice 1 Jump [0001]>") 2 []) 1);
                     vm_compute; reflexivity|].
      eapply rtc_l; [eapply (step_call _ _ (reads (u "Sure!") 3 (u "Hi")) 1);
                     vm_compute; reflexivity|].
      apply rtc_refl. }
  by vm_compute.
Defined.

Lemma getitem_Some `{Countable K} {V} (d : gmap K V) k v : d !! k = Some v -> getitem d k = Ok v.
Proof. intros E. unfold getitem. by rewrite E. Qed.

(** A poll inside the suppression window of its address. *)
Lemma suppressed_poll_begin print_all inp addr ws last state until :
  last_text_by_addr ws !! addr = Some last ->
  conversation_state ws !! addr = Some state ->
  suppress_until_by_addr ws !! addr = Some until ->
  (now_ts inp < until)%Z ->
  exists text, parse_ac_text (raw inp) = Ok text /\
    poll_begin print_all inp addr ws
    = Ok (if bool_decide (raw inp = []) || negb (print_all || bool_decide (Some text <> last))
          then ws
          else if contains END_CONVERSATION text
               then set_state addr reset (set_suppress_until addr 0%Z ws)
               else set_state addr (observe_text state text)
                              (set_last_text addr (Some text) ws),
          [], Finished).
Proof.
  intros Hlast Hstate Huntil Hnow.
  destruct (parse_ac_text_returns (raw inp)) as [text Htext]. exists text. split; [done|].
  unfold poll_begin. destruct (raw inp) as [|b r] eqn:Hraw; [done|].
  rewrite Htext, (getitem_Some _ _ _ Hlast). res_simpl.
  rewrite (bool_decide_eq_false_2 (b :: r = [])) by done. cbn [orb].
  destruct (print_all || _); [|done]. cbn [negb].
  rewrite (getitem_Some _ _ _ Hstate), Huntil. res_simpl.
  apply Z.ltb_lt in Hnow. rewrite Hnow.
  by destruct (contains END_CONVERSATION text).
Qed.

Lemma poll_Finished print_all SUPPRESS_SECONDS inp addr ws ws' evs :
  poll_begin print_all inp addr ws = Ok (ws', evs, Finished) ->
  poll print_all SUPPRESS_SECONDS inp addr ws = Ok (ws', evs).
Proof. intros H. unfold poll. by rewrite H. Qed.

(** After a generation that succeeded, the address holds the re-decoded
    generated text as last text and the new deadline. *)
Lemma poll_finish_generated SUPPRESS_SECONDS inp addr text ws ws' evs combined encoded predicted :
  llm_text inp = Ok combined -> encode_ac_text combined = Ok encoded ->
  parse_ac_text encoded = Ok predicted ->
  poll_finish SUPPRESS_SECONDS inp addr text ws = Ok (ws', evs) ->
  last_text_by_addr ws' !! addr = Some (Some predicted)
  /\ suppress_until_by_addr ws' !! addr = Some (now_written inp + SUPPRESS_SECONDS)%Z
  /\ is_Some (conversation_state ws' !! addr).
Proof.
  intros Hllm Henc Hdec. unfold poll_finish, generate_and_write.
  rewrite Hllm. res_simpl. unfold write_dialogue_to_address. rewrite Henc.
  destruct (_ && _); res_simpl; rewrite Hdec; res_simpl; intros H.
  - destruct (getitem _ _) as [state| |]; res_simpl in H; try done.
    injection H as <- <-. cbn. by rewrite !lookup_insert_eq.
  - destruct (getitem _ _) as [state| |]; res_simpl in H; try done.
    injection H as <- <-. cbn. by rewrite !lookup_insert_eq.
Qed.

(** C5, as amended. While the suppression window of an address is active, a
    poll of it triggers no injection and no generation: it writes nothing,
    calls no generator and leaves the gate and the in-flight flags alone.
    The state of the channel is not frozen, though: when the decoded text
    differs from the last text (or every tick is printed), [observe_text]
    has been applied to it before the window is tested, and the text becomes
    the last text; a text with the end-of-conversation marker instead clears
    the window and resets the state. A poll that decodes to the last text is
    skipped whole when only changes are printed. In particular, after a
    generation that succeeded, a poll before the deadline that reads back
    the bytes just written triggers no second generation. *)
Theorem suppression_window (print_all : bool) (SUPPRESS_SECONDS : Z) (inp inp0 : PollInput)
    (addr : N) (ws ws0 : WatchState) (last : option str) (state : ConversationState)
    (until : Z) (text0 combined predicted : str) (encoded : bytes) (evs0 : list event) :
  (last_text_by_addr ws !! addr = Some last ->
   conversation_state ws !! addr = Some state ->
   suppress_until_by_addr ws !! addr = Some until ->
   (now_ts inp < until)%Z ->
   exists text ws',
     parse_ac_text (raw inp) = Ok text
     /\ poll print_all SUPPRESS_SECONDS inp addr ws = Ok (ws', [])
     /\ poll_begin print_all inp addr ws = Ok (ws', [], Finished)
     /\ generation_in_progress ws' = generation_in_progress ws
     /\ lock_held ws' = lock_held ws
     /\ ws' = if bool_decide (raw inp = []) || negb (print_all || bool_decide (Some text <> last))
              then ws
              else if contains END_CONVERSATION text
                   then set_state addr reset (set_suppress_until addr 0%Z ws)
                   else set_state addr (observe_text state text)
                                  (set_last_text addr (Some text) ws))
  /\ (llm_text inp0 = Ok combined -> encode_ac_text combined = Ok encoded ->
      parse_ac_text encoded = Ok predicted ->
      poll_finish SUPPRESS_SECONDS inp0 addr text0 ws0 = Ok (ws, evs0) ->
      raw inp = encoded -> (now_ts inp < now_written inp0 + SUPPRESS_SECONDS)%Z ->
      exists ws',
        poll print_all SUPPRESS_SECONDS inp addr ws = Ok (ws', [])
        /\ (print_all = false -> ws' = ws)).
Proof.
  split.
  - intros Hlast Hstate Huntil Hnow.
    destruct (suppressed_poll_begin print_all inp addr ws last state until Hlast Hstate Huntil Hnow)
      as (text & Htext & Hp).
    eexists text, _. split; [done|]. split; [by apply poll_Finished|]. split; [done|].
    apply poll_begin_flags in Hp as [Hg Hl]. done.
  - intros Hllm Henc Hdec Hfin Hraw Hnow.
    destruct (poll_finish_generated _ _ _ _ _ _ _ _ _ _ Hllm Henc Hdec Hfin)
      as (Hlast & Huntil & [state' Hstate]).
    destruct (suppressed_poll_begin print_all inp addr ws _ _ _ Hlast Hstate Huntil Hnow)
      as (text & Htext & Hp).
    eexists. split; [by apply poll_Finished|].
    intros ->. rewrite Hraw, Hdec in Htext. injection Htext as <-.
    rewrite (bool_decide_eq_false_2 (Some predicted <> Some predicted)) by (by intros []).
    by rewrite orb_true_r.
Qed.

Lemma suppression_window_witness :
  exists ws',
    poll false 25 (reads (u "Next line") 10 []) 1
         (state_of (run false 25 (init [1; 2]) conversation)) = Ok (ws', [])
    /\ lock_held ws' = false.
Proof.
  destruct (suppression_window false 25 (reads (u "Next line") 10 [])
              (reads [] 0 []) 1 (state_of (run false 25 (init [1; 2]) conversation))
              (init []) (Some (u "Hi"))
              {| lines_seen := 2; last_visible_text := Some (u "Sure!");
                 ready_for_chatty := true; menu_injected := false;
                 awaiting_choice_resolution := false; chatty_requested := false;
                 menu_skip_logged := false |}
              28 [] [] [] [] []) as [H _].
  destruct H as (text & ws' & _ & Hp & _ & _ & Hl & _); [by vm_compute..|].
  exists ws'. split; [exact Hp|]. rewrite Hl. by vm_compute.
Defined.

(** C5 as stated fails: inside the suppression window the state of the
    channel is mutated. After the generation at time 3 the window of address
    1 lasts until 28; the poll at time 10 reads a new line, and
    [observe_text] counts it. *)
Lemma suppression_mutates_state_counterexample :
  (fun x : ConversationState * option str * Z => (lines_seen x.1.1, x.2))
    <$> channel (run false 25 (init [1; 2]) conversation) 1 = Some (2%nat, 28%Z)
  /\ (now_ts (reads (u "Next line") 10 []) < 28)%Z
  /\ (fun x : ConversationState * option str * Z => (lines_seen x.1.1, x.2))
       <$> channel (run false 25 (init [1; 2])
                        (conversation ++ [(1, reads (u "Next line") 10 [])])) 1
     = Some (3%nat, 28%Z).
Proof. by vm_compute. Qed.





(** ** Hexadecimal fields *)

Lemma size_nat_gt n : n < 2 ^ N.of_nat (N.size_nat n).
Proof.
  destruct n as [|p]; [done|]. cbn [N.size_nat].
  induction p as [p IH|p IH|]; cbn [Pos.size_nat]; [| |done].
  - rewrite Nat2N.inj_succ, N.pow_succ_r'. lia.
  - rewrite Nat2N.inj_succ, N.pow_succ_r'. lia.
Qed.

(** Quotient and remainder as numbers, for linear arithmetic. *)
Ltac divmod n b :=
  let Hd := fresh "Hd" in
  let Hm := fresh "Hm" in
  assert (n = b * (n / b) + n mod b) as Hd by (by apply N.div_mod);
  assert (n mod b < b) as Hm by (by apply N.mod_lt);
  generalize dependent (n mod b); generalize dependent (n / b); intros.

Lemma pow_2_16 k : 2 ^ N.of_nat k <= 16 ^ N.of_nat k.
Proof. apply N.pow_le_mono_l. lia. Qed.

Lemma hexdigits_length k n : length (hexdigits k n) = k.
Proof.
  revert n. induction k as [|k IH]; intros n; [done|].
  cbn [hexdigits]. rewrite length_app, IH. cbn. lia.
Qed.

Lemma hexdigits_0 d : hexdigits d 0 = replicate d 48.
Proof.
  induction d as [|d IH]; [done|].
  cbn [hexdigits]. change (0 / 16) with 0. rewrite IH.
  change [digit_char (0 mod 16)] with [48]. by rewrite <- replicate_cons_app.
Qed.

Lemma hexdigits_pad d j n :
  n < 16 ^ N.of_nat j -> hexdigits (d + j) n = replicate d 48 ++ hexdigits j n.
Proof.
  revert n. induction j as [|j IH]; intros n Hn.
  - cbn in Hn. assert (n = 0) as -> by lia.
    rewrite Nat.add_0_r, hexdigits_0. cbn. by rewrite app_nil_r.
  - rewrite Nat.add_succ_r. cbn [hexdigits]. rewrite IH, app_assoc; [done|].
    rewrite Nat2N.inj_succ, N.pow_succ_r' in Hn.
    apply N.Div0.div_lt_upper_bound. lia.
Qed.

(** The digits [format(n, "X")] writes: as many as the number needs. *)
Lemma digits_go_hex fuel n acc :
  n < 16 ^ N.of_nat (S fuel) ->
  exists j, (1 <= j <= S fuel)%nat /\ digits_go 16 (S fuel) n acc = hexdigits j n ++ acc
            /\ n < 16 ^ N.of_nat j /\ (j = 1%nat \/ 16 ^ N.of_nat (j - 1) <= n).
Proof.
  revert n acc. induction fuel as [|fuel IH]; intros n acc Hn.
  - exists 1%nat. change (16 ^ N.of_nat 1) with 16 in *.
    cbn [digits_go hexdigits]. rewrite N.div_small by done. cbn.
    repeat split; first [lia | by left].
  - cbn [digits_go]. destruct (N.eqb_spec (n / 16) 0) as [Hz|Hz].
    + exists 1%nat. cbn [hexdigits]. change (16 ^ N.of_nat 1) with 16.
      apply N.div_small_iff in Hz; [|done]. repeat split; first [lia | by left].
    + destruct (IH (n / 16) (digit_char (n mod 16) :: acc)) as (j & Hj & Hd & Hlt & Hge).
      { rewrite Nat2N.inj_succ, N.pow_succ_r' in Hn.
        apply N.Div0.div_lt_upper_bound. lia. }
      exists (S j). cbn [digits_go] in Hd. rewrite Hd. cbn [hexdigits].
      rewrite <- app_assoc. repeat split; try lia.
      * rewrite Nat2N.inj_succ, N.pow_succ_r'.
        clear Hd Hge Hz. divmod n 16. lia.
      * right. replace (S j - 1)%nat with j by lia.
        clear Hd Hlt. destruct Hge as [->|Hge].
        -- change (16 ^ N.of_nat 1) with 16. divmod n 16. lia.
        -- replace j with (S (j - 1)) at 1 by lia.
           rewrite Nat2N.inj_succ, N.pow_succ_r'. divmod n 16. lia.
Qed.

Lemma fmt_0X_hexdigits w n :
  (0 < w)%nat -> n < 16 ^ N.of_nat w -> fmt_0X w n = hexdigits w n.
Proof.
  intros Hw Hn. unfold fmt_0X, hexX, zfill.
  destruct (digits_go_hex (N.size_nat n) n []) as (j & Hj & -> & Hlt & Hge).
  { pose proof (size_nat_gt n). pose proof (pow_2_16 (N.size_nat n)).
    rewrite Nat2N.inj_succ, N.pow_succ_r'. lia. }
  rewrite app_nil_r, hexdigits_length.
  assert (j <= w)%nat as Hjw.
  { destruct Hge as [->|Hge]; [lia|].
    destruct (Nat.le_gt_cases j w) as [|Hgt]; [done|].
    assert (16 ^ N.of_nat w <= 16 ^ N.of_nat (j - 1)); [|lia].
    apply N.pow_le_mono_r; lia. }
  rewrite <- hexdigits_pad by done. f_equal. lia.
Qed.

Lemma hex_val_digit_char x : x < 16 -> hex_val (digit_char x) = x.
Proof.
  intros Hx. unfold hex_val, digit_char.
  destruct (N.ltb_spec x 10).
  - destruct (N.leb_spec (48 + x) 57); lia.
  - destruct (N.leb_spec (55 + x) 57); [lia|].
    destruct (N.leb_spec (55 + x) 70); lia.
Qed.

Lemma int16_snoc s c : int16 (s ++ [c]) = int16 s * 16 + hex_val c.
Proof. unfold int16. by rewrite foldl_app. Qed.

Lemma int16_hexdigits k n : int16 (hexdigits k n) = n mod 16 ^ N.of_nat k.
Proof.
  revert n. induction k as [|k IH]; intros n.
  - cbn. by rewrite N.mod_1_r.
  - cbn [hexdigits]. rewrite int16_snoc, IH, hex_val_digit_char by (apply N.mod_lt; lia).
    rewrite Nat2N.inj_succ, N.pow_succ_r', N.Div0.mod_mul_r.
    generalize ((n / 16) mod 16 ^ N.of_nat k), (n mod 16). lia.
Qed.

Lemma is_HEX_digit_char x : x < 16 -> is_HEX (digit_char x) = true.
Proof.
  intros Hx. unfold is_HEX, digit_char.
  destruct (N.ltb_spec x 10).
  - destruct (N.leb_spec 48 (48 + x)); [|lia]. destruct (N.leb_spec (48 + x) 57); [done|lia].
  - destruct (N.leb_spec 65 (55 + x)); [|lia]. destruct (N.leb_spec (55 + x) 70); [|lia].
    by rewrite orb_true_r.
Qed.

Lemma hexdigits_HEX k n : Forall (fun c => is_HEX c = true) (hexdigits k n).
Proof.
  revert n. induction k as [|k IH]; intros n; [done|].
  cbn [hexdigits]. apply Forall_app. split; [done|].
  constructor; [|done]. apply is_HEX_digit_char, N.mod_lt. lia.
Qed.

(** A number that fits [w] digits: the field has these digits, all upper-case
    hexadecimal, and reads back as the number. *)
Lemma fmt_0X_spec w n :
  (0 < w)%nat -> n < 16 ^ N.of_nat w ->
  length (fmt_0X w n) = w /\ Forall (fun c => is_HEX c = true) (fmt_0X w n)
  /\ int16 (fmt_0X w n) = n.
Proof.
  intros Hw Hn. rewrite fmt_0X_hexdigits by done.
  split; [apply hexdigits_length|]. split; [apply hexdigits_HEX|].
  rewrite int16_hexdigits. by apply N.mod_small.
Qed.
(** ** The round trip: decoding *)

Lemma CONTROL_CODES_keys_NoDup : NoDup CONTROL_CODES_items.*1.
Proof. apply (bool_decide_unpack _). by vm_compute. Qed.

(** One turn of the loop at a control code of the table whose argument
    bytes are all present. *)
Lemma parse_step_code before command ab rest buf desc t :
  command <> 0 -> CONTROL_CODES !! command = Some desc ->
  default 0%nat (CODE_ARG_COUNT !! command) = length ab ->
  (if (0 <? length ab)%nat
   then (args_tuple ← args_tuple_of command (length ab) ab; format_or_desc desc args_tuple) = Ok t
   else t = desc) ->
  parse_step (before ++ PREFIX_BYTE :: command :: ab ++ rest) (length before) buf
  = Ok (Next (length before + (2 + length ab)) (buf ++ [t])).
Proof.
  intros H0 Hd Hn Ht. unfold parse_step.
  rewrite (index_Some _ (length before) PREFIX_BYTE) by (by apply list_lookup_middle). res_simpl.
  change (PREFIX_BYTE =? 0) with false. rewrite N.eqb_refl. cbv iota.
  destruct (Nat.leb_spec (length (before ++ PREFIX_BYTE :: command :: ab ++ rest))
              (S (length before))) as [Hle|_].
  { rewrite length_app in Hle. cbn in Hle. lia. }
  rewrite (index_Some _ (S (length before)) command).
  2:{ change (before ++ PREFIX_BYTE :: command :: ab ++ rest)
        with (before ++ [PREFIX_BYTE] ++ command :: ab ++ rest).
      rewrite app_assoc. apply list_lookup_middle. rewrite length_app. cbn. lia. }
  res_simpl. apply N.eqb_neq in H0. rewrite H0, Hd, Hn. res_simpl.
  assert (slice (before ++ PREFIX_BYTE :: command :: ab ++ rest)
            (S (length before) + 1) (S (length before) + 1 + length ab) = ab) as ->.
  { unfold slice.
    change (before ++ PREFIX_BYTE :: command :: ab ++ rest)
      with (before ++ [PREFIX_BYTE; command] ++ ab ++ rest).
    rewrite app_assoc, drop_app_length' by (rewrite length_app; cbn; lia).
    apply take_app_length'. lia. }
  destruct (0 <? length ab)%nat eqn:Hpos.
  - rewrite Nat.ltb_irrefl.
    destruct (args_tuple_of command (length ab) ab) as [args_tuple| |]; try done.
    res_simpl in Ht. res_simpl. rewrite Ht. res_simpl. do 2 f_equal. lia.
  - subst t. apply Nat.ltb_ge in Hpos. do 2 f_equal. lia.
Qed.

(** The tags of the round trip, case by case. *)
Lemma well_formed_tag_cases op args :
  well_formed (Tag op args) = true ->
  (args = [] /\ exists desc, (op, desc) ∈ CONTROL_CODES_items
                             /\ CODE_ARG_COUNT !! op = None /\ op <> 0)
  \/ (exists v, args = [v] /\ op ∈ one_number_tags
                /\ v < 256 ^ N.of_nat (default 0%nat (CODE_ARG_COUNT !! op)))
  \/ (exists rgb n, args = [rgb; n] /\ op = 0x50 /\ rgb < 0x1000000 /\ n < 0x100).
Proof.
  intros H. destruct args as [|v [|n [|? ?]]]; cbn [well_formed] in H; [| | |done].
  - left. split; [done|].
    apply andb_prop in H as [H H0]. apply andb_prop in H as [Hd Hc].
    apply bool_decide_eq_true_1 in Hd as [desc Hd], Hc.
    apply (dict_lookup _ _ _ CONTROL_CODES_keys_NoDup) in Hd.
    exists desc. repeat split; [done|done|].
    intros ->. discriminate.
  - right. left. exists v. apply andb_prop in H as [Hin Hv].
    apply bool_decide_eq_true_1 in Hin. apply N.ltb_lt in Hv. done.
  - right. right. exists v, n.
    apply andb_prop in H as [H Hn]. apply andb_prop in H as [Hop Hv].
    apply N.eqb_eq in Hop. apply N.ltb_lt in Hv, Hn. done.
Qed.

(** Enumerate the opcodes of a well-formed tag: the goal is left once for
    each opcode, the bound on the argument being a numeral. *)
Ltac plain_tag_cases Hin Hc H0 :=
  unfold CONTROL_CODES_items in Hin;
  repeat (apply elem_of_cons in Hin as [[= -> ->]|Hin];
          [first [by vm_compute in Hc | done | clear Hc H0]|]);
  [..|by apply elem_of_nil in Hin].

Ltac one_number_cases Hin Hv :=
  unfold one_number_tags in Hin;
  repeat (apply elem_of_cons in Hin as [->|Hin];
          [match type of Hv with
           | _ < ?b => let n := eval vm_compute in b in
                       replace b with n in Hv by (vm_compute; reflexivity)
           end|]);
  [..|by apply elem_of_nil in Hin].

Lemma unpack_pack_H v : v / 256 * 256 + v mod 256 = v.
Proof. divmod v 256. lia. Qed.

Lemma from_to_bytes3 v : (v / 65536 * 256 + (v / 256) mod 256) * 256 + v mod 256 = v.
Proof.
  change 65536 with (256 * 256). rewrite <- N.Div0.div_div.
  divmod (v / 256) 256. divmod v 256. lia.
Qed.

Lemma pack_B_fits v : v < 256 -> pack_B v = Ok [v].
Proof. intros H. unfold pack_B. apply N.ltb_lt in H. by rewrite H. Qed.

Lemma pack_H_fits v : v < 65536 -> pack_H v = Ok [v / 256; v mod 256].
Proof. intros H. unfold pack_H. apply N.ltb_lt in H. by rewrite H. Qed.

Lemma to_bytes3_fits v :
  v < 16777216 -> to_bytes3 v = Ok [v / 65536; (v / 256) mod 256; v mod 256].
Proof. intros H. unfold to_bytes3. apply N.ltb_lt in H. by rewrite H. Qed.

Lemma format_or_desc_Ok desc args t :
  format desc args = Ok t -> format_or_desc desc args = Ok t.
Proof. intros H. unfold format_or_desc. by rewrite H. Qed.

(** The description of a well-formed tag takes its arguments. *)
Lemma tag_text_format op args :
  well_formed (Tag op args) = true ->
  exists desc, CONTROL_CODES !! op = Some desc /\ op <> 0
               /\ format desc (VInt <$> args) = Ok (tag_text op args).
Proof.
  intros H. unfold tag_text.
  apply well_formed_tag_cases in H
    as [(-> & desc & Hin & Hc & H0)|[(v & -> & Hin & Hv)|(rgb & n & -> & -> & Hrgb & Hn)]].
  - apply (dict_lookup _ _ _ CONTROL_CODES_keys_NoDup) in Hin as Hd.
    fold CONTROL_CODES in Hd. rewrite Hd. exists desc. do 2 (split; [done|]).
    plain_tag_cases Hin Hc H0; by vm_compute.
  - one_number_cases Hin Hv.
    all: destruct (CONTROL_CODES !! _) as [desc|] eqn:Hd; vm_compute in Hd; [|discriminate].
    all: injection Hd as <-; eexists; do 2 (split; [done|]).
    all: match goal with |- ?f = _ => destruct f as [t| |] eqn:F end; [done| |].
    all: vm_compute in F; discriminate.
  - destruct (CONTROL_CODES !! _) as [desc|] eqn:Hd; vm_compute in Hd; [|discriminate].
    injection Hd as <-; eexists; do 2 (split; [done|]).
    match goal with |- ?f = _ => destruct f as [t| |] eqn:F end; [done| |].
    all: vm_compute in F; discriminate.
Qed.

(** The packed arguments of a well-formed tag, and what [parse_ac_text]
    reads in them. *)
Lemma encode_args_tag op args :
  well_formed (Tag op args) = true ->
  exists ab, encode_args op args = Ok ab
             /\ default 0%nat (CODE_ARG_COUNT !! op) = length ab
             /\ if (0 <? length ab)%nat
                then args_tuple_of op (length ab) ab = Ok (VInt <$> args)
                else args = [].
Proof.
  intros H.
  apply well_formed_tag_cases in H
    as [(-> & desc & Hin & Hc & H0)|[(v & -> & Hin & Hv)|(rgb & n & -> & -> & Hrgb & Hn)]].
  - exists []. unfold encode_args. by rewrite Hc.
  - one_number_cases Hin Hv.
    all: try (exists [v]; split; [|by vm_compute];
              change (encode_args ?op [v]) with (pack_B v); by apply pack_B_fits).
    all: try (exists [v / 256; v mod 256]; split;
              [change (encode_args ?op [v]) with (pack_H v); by apply pack_H_fits|];
              split; [by vm_compute|];
              change (Ok [VInt (v / 256 * 256 + v mod 256)] = Ok (VInt <$> [v]));
              by rewrite unpack_pack_H).
    exists [v / 65536; (v / 256) mod 256; v mod 256]. split; [|split; [by vm_compute|]].
    + change (encode_args ?op [v]) with (to_bytes3 v). by apply to_bytes3_fits.
    + change (Ok [VInt (((0 * 256 + v / 65536) * 256 + (v / 256) mod 256) * 256 + v mod 256)]
              = Ok (VInt <$> [v])).
      change (0 * 256 + v / 65536) with (v / 65536). by rewrite from_to_bytes3.
  - exists [rgb / 65536; (rgb / 256) mod 256; rgb mod 256; n]. split; [|split; [by vm_compute|]].
    + change (encode_args 0x50 [rgb; n])
        with (x ← to_bytes3 rgb; y ← pack_B n; Ok (x ++ y)).
      rewrite to_bytes3_fits, pack_B_fits by done. done.
    + change (Ok [VInt (((0 * 256 + rgb / 65536) * 256 + (rgb / 256) mod 256) * 256
                        + rgb mod 256); VInt n]
              = Ok (VInt <$> [rgb; n])).
      change (0 * 256 + rgb / 65536) with (rgb / 65536). by rewrite from_to_bytes3.
Qed.

(** One turn of the loop at the bytes of a well-formed tag. *)
Lemma parse_step_tag before op args rest buf :
  well_formed (Tag op args) = true ->
  parse_step (before ++ item_bytes (Tag op args) ++ rest) (length before) buf
  = Ok (Next (length before + length (item_bytes (Tag op args))) (buf ++ [tag_text op args])).
Proof.
  intros H. destruct (tag_text_format _ _ H) as (desc & Hd & H0 & Hf).
  destruct (encode_args_tag _ _ H) as (ab & Ha & Hn & Ht).
  unfold item_bytes. rewrite Ha. cbn [app length].
  apply (parse_step_code _ _ _ _ _ desc); [done|done|done|].
  destruct (0 <? length ab)%nat.
  - rewrite Ht. res_simpl. by apply format_or_desc_Ok.
  - subst args. cbn [fmap list_fmap] in Hf.
    unfold tag_text. rewrite Hd. cbn [fmap list_fmap].
    destruct (well_formed_tag_cases _ _ H)
      as [(_ & desc' & Hin & Hc & _)|[(v & [=] & _)|(rgb & n & [=] & _)]].
    apply (dict_lookup _ _ _ CONTROL_CODES_keys_NoDup) in Hin as Hd'.
    fold CONTROL_CODES in Hd'. rewrite Hd in Hd'. injection Hd' as <-.
    plain_tag_cases Hin Hc H0; by vm_compute.
Qed.

Lemma parse_step_lit before c rest buf :
  well_formed (Lit c) = true ->
  parse_step (before ++ item_bytes (Lit c) ++ rest) (length before) buf
  = Ok (Next (length before + length (item_bytes (Lit c))) (buf ++ [[c]])).
Proof.
  intros H. cbn [well_formed] in H. unfold item_bytes, glyphs. cbn [fmap list_fmap].
  destruct (REVERSE_CHARACTER_MAP !! [c]) as [byte|] eqn:Hb; [|done].
  apply andb_prop in H as [H _]. apply andb_prop in H as [H0 _].
  apply negb_true_iff, N.eqb_neq in H0.
  apply REVERSE_CHARACTER_MAP_spec in Hb. cbn [default from_option id app length].
  rewrite (parse_step_plain _ _ _ byte); [|by apply list_lookup_middle|].
  - unfold glyph_text. by rewrite Hb.
  - split; [done|]. intros ->. by rewrite CHARACTER_MAP_no_prefix in Hb.
Qed.

Lemma parse_step_item before it rest buf :
  well_formed it = true ->
  parse_step (before ++ item_bytes it ++ rest) (length before) buf
  = Ok (Next (length before + length (item_bytes it)) (buf ++ [item_text it])).
Proof. destruct it; [apply parse_step_lit|apply parse_step_tag]. Qed.

Lemma item_bytes_length it : (0 < length (item_bytes it))%nat.
Proof. destruct it; cbn; lia. Qed.

(** The loop over the bytes of well-formed items and the terminator;
    [rest] is whatever follows the terminator in the buffer. *)
Lemma parse_loop_items fuel before items rest buf :
  Forall (fun it => well_formed it = true) items ->
  (length (concat (item_bytes <$> items)) < fuel)%nat ->
  parse_loop fuel (before ++ concat (item_bytes <$> items) ++ 0x00 :: rest) (length before) buf
  = Ok (buf ++ (item_text <$> items)).
Proof.
  intros Hwf. revert fuel before buf.
  induction Hwf as [|it items Hit _ IH]; intros fuel before buf Hfuel.
  - destruct fuel as [|fuel]; [lia|]. cbn [parse_loop fmap list_fmap concat app].
    destruct (Nat.ltb_spec (length before) (length (before ++ 0 :: rest))) as [_|Hge].
    2:{ rewrite length_app in Hge. cbn in Hge. lia. }
    unfold parse_step. rewrite (index_Some _ (length before) 0) by (by apply list_lookup_middle).
    res_simpl. cbn. by rewrite app_nil_r.
  - destruct fuel as [|fuel]; [lia|]. cbn [parse_loop].
    rewrite fmap_cons. cbn [concat]. rewrite <- app_assoc.
    pose proof (item_bytes_length it) as Hpos.
    rewrite fmap_cons in Hfuel. cbn [concat] in Hfuel. rewrite length_app in Hfuel.
    destruct (Nat.ltb_spec (length before)
                (length (before ++ item_bytes it ++ concat (item_bytes <$> items) ++ 0 :: rest)))
      as [_|Hge].
    2:{ rewrite !length_app in Hge. lia. }
    rewrite parse_step_item by done. res_simpl.
    specialize (IH fuel (before ++ item_bytes it) (buf ++ [item_text it])).
    rewrite <- app_assoc, length_app in IH.
    rewrite IH by lia. by rewrite <- app_assoc.
Qed.

(** Decoding the bytes of well-formed items gives their text back, whatever
    follows the terminator. *)
Lemma parse_ac_text_items items rest :
  Forall (fun it => well_formed it = true) items ->
  parse_ac_text (concat (item_bytes <$> items) ++ 0x00 :: rest) = Ok (render items).
Proof.
  intros Hwf. unfold parse_ac_text.
  rewrite (parse_loop_items _ [] items rest []); [done|done|].
  rewrite length_app. cbn. lia.
Qed.

Lemma parse_ac_text_encoding items :
  Forall (fun it => well_formed it = true) items ->
  parse_ac_text (encoding items) = Ok (render items).
Proof. apply parse_ac_text_items. Qed.
(** ** The round trip: the patterns of the encoder *)

#[local] Arguments N.eqb : simpl nomatch.

Lemma is_HEX_cases d : is_HEX d = true -> d ∈ u "0123456789ABCDEF".
Proof.
  intros H. assert (d < 71) as Hlt.
  { unfold is_HEX in H. apply orb_prop in H as [H|H]; apply andb_prop in H as [_ H];
      apply N.leb_le in H; lia. }
  rewrite <- (N2Nat.id d) in *. generalize dependent (N.to_nat d). intros k H Hlt.
  do 71 (destruct k as [|k]; [first [by vm_compute in H | vm_compute; set_solver]|]). lia.
Qed.

(** What the patterns and the filters of the encoder see in an upper-case
    hexadecimal digit. *)
Lemma HEX_facts d :
  is_HEX d = true ->
  is_hex d = true /\ isspace d = false /\ (93 =? d) = false /\ (62 =? d) = false
  /\ (91 =? d) = false /\ dot d = true /\ not_char 93 d = true /\ upper [d] = [d]
  /\ printable d = true /\ d <> 60 /\ d <> 62 /\ d <> 91.
Proof.
  intros H%is_HEX_cases. vm_compute in H.
  repeat (apply elem_of_cons in H as [->|H]; [by vm_compute|]). by apply elem_of_nil in H.
Qed.

Lemma upper_HEX s : Forall (fun d => is_HEX d = true) s -> upper s = s.
Proof.
  induction 1 as [|d s Hd _ IH]; [done|].
  apply HEX_facts in Hd as (_ & _ & _ & _ & _ & _ & _ & Hu & _).
  unfold upper in *. rewrite fmap_cons, IH. cbn [fmap list_fmap] in Hu. by injection Hu as ->.
Qed.

(** Greedy repetition over a run that satisfies the class and fits the
    upper bound, stopped by a character outside the class. *)
Lemma rep_greedy_run_hi {A} p lo hi pos body c rest (k : nat -> str -> option A) x :
  Forall (fun b => p b = true) body -> p c = false -> (lo <= length body)%nat ->
  (forall h, hi = Some h -> (length body <= h)%nat) ->
  k (pos + length body)%nat (c :: rest) = Some x ->
  rep p true lo hi pos (body ++ c :: rest) k = Some x.
Proof.
  intros Hb Hc. revert lo hi pos.
  induction Hb as [|b body Hpb Hb IH]; intros lo hi pos Hlo Hhi Hk; cbn in *.
  - rewrite Hc. cbn. destruct lo; [|lia]. by rewrite Nat.add_0_r in Hk.
  - rewrite Hpb. assert (hi_open hi = true) as ->.
    { destruct hi as [[|h]|]; try done. specialize (Hhi 0%nat eq_refl). lia. }
    cbn. rewrite (IH (Nat.pred lo) (dec_hi hi) (S pos)); [done|lia| |].
    + intros h Hh. destruct hi as [h'|]; [|done]. injection Hh as <-.
      specialize (Hhi h' eq_refl). lia.
    + by replace (S pos + length body)%nat with (pos + S (length body))%nat by lia.
Qed.

(** A lazy repetition stops at once where the continuation accepts. *)
Lemma rep_lazy_now {A} p hi pos s (k : nat -> str -> option A) x :
  k pos s = Some x -> rep p false 0 hi pos s k = Some x.
Proof. intros Hk. destruct s; cbn; by rewrite Hk. Qed.

(** A lazy repetition goes on over a run the continuation refuses. *)
Lemma rep_lazy_until {A} p pos body rest (k : nat -> str -> option A) x :
  Forall (fun b => p b = true /\ forall pos' s', k pos' (b :: s') = None) body ->
  k (pos + length body)%nat rest = Some x ->
  rep p false 0 None pos (body ++ rest) k = Some x.
Proof.
  intros Hb. revert pos. induction Hb as [|b body [Hpb Hkb] Hb IH]; intros pos Hk.
  - rewrite Nat.add_0_r in Hk. by apply rep_lazy_now.
  - cbn. rewrite Hkb, Hpb. cbn. apply IH.
    by replace (S pos + length body)%nat with (pos + S (length body))%nat by lia.
Qed.

Lemma take_app_cons {A} (l : list A) x rest n :
  n = length l -> take n (l ++ x :: rest) = l.
Proof. intros ->. by rewrite take_app_length. Qed.

(** [arg_pattern] at a bracket holding one to six hexadecimal digits. *)
Lemma match_arg_pattern pos ds rest :
  Forall (fun d => is_HEX d = true) ds -> (1 <= length ds <= 6)%nat ->
  exists g, match_at arg_pattern pos (91 :: ds ++ 93 :: rest) = Some (S (length ds + 1), g)
            /\ group g 1 = ds.
Proof.
  intros Hds Hlen. unfold match_at, arg_pattern, star_lazy, hex, times. cbn -[rep].
  eexists. split.
  - apply rep_lazy_now. eapply rep_greedy_run_hi.
    + eapply Forall_impl; [done|]. by intros d (? & _)%HEX_facts.
    + done.
    + lia.
    + intros h [= <-]. lia.
    + cbn. replace (S (S (pos + length ds)) - pos)%nat with (S (length ds + 1)) by lia.
      reflexivity.
  - cbn. apply take_app_cons. lia.
Qed.

(** [bracket_re] at a bracket holding hexadecimal digits. *)
Lemma match_bracket_re pos ds rest :
  Forall (fun d => is_HEX d = true) ds ->
  exists g, match_at bracket_re pos (91 :: ds ++ 93 :: rest) = Some (S (length ds + 1), g).
Proof.
  intros Hds. unfold match_at, bracket_re, star_lazy. cbn -[rep].
  eexists. eapply rep_lazy_until.
  - eapply Forall_impl; [done|]. intros d (_ & _ & H93 & _ & _ & Hdot & _)%HEX_facts.
    split; [done|]. intros pos' s'. cbn. by rewrite H93.
  - cbn. replace (S (S (pos + length ds)) - pos)%nat with (S (length ds + 1)) by lia.
    reflexivity.
Qed.

(** [tag_re] at a tag. *)
Lemma match_tag_re pos body rest :
  body <> [] -> Forall (fun c => c <> 62) body ->
  match_at tag_re pos (60 :: body ++ 62 :: rest)
  = Some (S (length body + 1), [(0%nat, 60 :: body ++ [62]); (1%nat, 60 :: body ++ [62])]).
Proof.
  intros Hne Hb. unfold match_at, tag_re, plus. cbn -[rep].
  erewrite (rep_greedy_run _ 1 (S pos) body 62 rest).
  - done.
  - eapply Forall_impl; [done|]. intros c Hc. unfold not_char. cbn.
    by destruct (N.eqb_spec c 62).
  - done.
  - destruct body; [done|cbn; lia].
  - cbn. replace (S (S (pos + length body)) - pos)%nat with (S (length body + 1)) by lia.
    cbn. change (62 :: rest) with ([62] ++ rest). rewrite app_assoc.
    rewrite take_app_length' by (rewrite length_app; cbn; lia). done.
Qed.

(** Scanning with [findall] and [split]. *)
Lemma findall_go_skip r pos l s :
  findall_go r pos (length l) (l ++ s) = findall_go r (pos + length l) 0 s.
Proof.
  revert pos. induction l as [|c l IH]; intros pos; cbn.
  - rewrite Nat.add_0_r. by destruct s.
  - rewrite IH. f_equal. lia.
Qed.

Lemma findall_go_prefix c r pos pre s :
  starts_with c r = true -> Forall (fun x => x <> c) pre ->
  findall_go r pos 0 (pre ++ s) = findall_go r (pos + length pre) 0 s.
Proof.
  intros Hr Hpre. revert pos. induction Hpre as [|x pre Hx _ IH]; intros pos; cbn.
  - by rewrite Nat.add_0_r.
  - rewrite (match_at_starts_with c); [|done|cbn; congruence].
    rewrite IH. f_equal. lia.
Qed.

Lemma findall_go_absent c r pos s :
  starts_with c r = true -> Forall (fun x => x <> c) s -> findall_go r pos 0 s = [].
Proof.
  intros Hr Hs. rewrite <- (app_nil_r s). by rewrite (findall_go_prefix c).
Qed.

(** One bracketed argument of a tag, as [arg_pattern.findall] reads it. *)
Lemma findall_bracket pos pre ds rest :
  Forall (fun x => x <> 91) pre ->
  Forall (fun d => is_HEX d = true) ds -> (1 <= length ds <= 6)%nat ->
  findall_go arg_pattern pos 0 (pre ++ 91 :: ds ++ 93 :: rest)
  = ds :: findall_go arg_pattern (pos + length pre + length ds + 2) 0 rest.
Proof.
  intros Hpre Hds Hlen. rewrite (findall_go_prefix 91) by done.
  destruct (match_arg_pattern (pos + length pre) ds rest Hds Hlen) as (g & Hm & Hg).
  cbn [findall_go]. rewrite Hm, Hg. f_equal.
  change (ds ++ 93 :: rest) with (ds ++ [93] ++ rest). rewrite app_assoc.
  replace (length ds + 1)%nat with (length (ds ++ [93])) by (rewrite length_app; cbn; lia).
  rewrite findall_go_skip. f_equal. rewrite length_app. cbn. lia.
Qed.

Lemma sub_go_prefix c r f cnt pos pre s :
  starts_with c r = true -> Forall (fun x => x <> c) pre ->
  sub_go r f cnt pos 0 (pre ++ s) = pre ++ sub_go r f cnt (pos + length pre) 0 s.
Proof.
  intros Hr Hpre. revert pos. induction Hpre as [|x pre Hx _ IH]; intros pos.
  - cbn. by rewrite Nat.add_0_r.
  - cbn [app]. rewrite sub_go_nomatch by (apply (match_at_starts_with c); [done|cbn; congruence]).
    rewrite IH.
    by replace (S pos + length pre)%nat with (pos + length (x :: pre))%nat by (cbn; lia).
Qed.

(** One bracketed argument of a tag, as [blank_args] rewrites it. *)
Lemma sub_bracket f pos pre ds rest :
  Forall (fun x => x <> 91) pre -> Forall (fun d => is_HEX d = true) ds ->
  exists g,
    sub_go bracket_re f None pos 0 (pre ++ 91 :: ds ++ 93 :: rest)
    = pre ++ f g ++ sub_go bracket_re f None (pos + length pre + length ds + 2) 0 rest.
Proof.
  intros Hpre Hds. rewrite (sub_go_prefix 91) by done.
  destruct (match_bracket_re (pos + length pre) ds rest Hds) as (g & Hm).
  exists g. f_equal.
  rewrite (sub_go_match _ _ _ _ _ _ _ (ds ++ [93]) rest Hm).
  - do 2 f_equal. lia.
  - by rewrite <- app_assoc.
  - rewrite length_app. cbn. lia.
Qed.

Lemma split_go_skip r pos cur l s :
  split_go r pos (length l) cur (l ++ s) = split_go r (pos + length l) 0 cur s.
Proof.
  revert pos. induction l as [|c l IH]; intros pos; cbn.
  - rewrite Nat.add_0_r. by destruct s.
  - rewrite IH. f_equal. lia.
Qed.
(** ** The round trip: the text of a tag *)

(** The text of a tag with one argument or of the colour tag, its digits
    set apart. *)
Ltac prefix_before l :=
  lazymatch l with
  | (91%N :: _) => constr:(@nil N)
  | (?c :: ?r) => let p := prefix_before r in constr:(c :: p)
  end.

Ltac numerals :=
  repeat match goal with
         | |- context [u ?s] => let x := eval vm_compute in (u s) in change (u s) with x
         end.

Ltac list_norm := repeat first [progress cbn [app] | rewrite <- app_assoc].

Ltac one_number_shape op v Hv :=
  let d := eval vm_compute in (CONTROL_CODES !! op) in
  lazymatch d with
  | Some ?l =>
      let P := prefix_before l in
      let w := eval vm_compute in (2 * default 0%nat (CODE_ARG_COUNT !! op))%nat in
      let Hshape := fresh "Hshape" in
      assert (tag_text op [v] = P ++ 91 :: fmt_0X w v ++ [93; 62]) as Hshape
        by (vm_compute; reflexivity);
      let Hlen := fresh "Hlen" in
      let HHEX := fresh "HHEX" in
      let Hint := fresh "Hint" in
      destruct (fmt_0X_spec w v) as (Hlen & HHEX & Hint); [lia|exact Hv|];
      rewrite Hshape; clear Hshape;
      generalize dependent (fmt_0X w v); intros ds Hlen HHEX Hint
  end.

Lemma color_text rgb n :
  tag_text 0x50 [rgb; n]
  = u "<Color " ++ 91 :: fmt_0X 6 rgb ++ 93 :: u " for " ++ 91 :: fmt_0X 2 n ++ 93 :: u " chars>".
Proof. vm_compute. reflexivity. Qed.

Lemma HEX_tag_chars ds : Forall (fun d => is_HEX d = true) ds -> Forall tag_char ds.
Proof.
  intros H. eapply Forall_impl; [done|].
  intros d (_ & _ & _ & _ & _ & _ & _ & _ & ? & ? & ? & _)%HEX_facts. done.
Qed.

Ltac closed_tag_chars :=
  repeat first [apply Forall_nil_2 | apply Forall_cons_2; [by vm_compute|]].

(** A tag starts with an opening angle bracket, ends with the closing one
    and holds printable characters other than these two in between. *)
Lemma tag_text_is_tag op args :
  well_formed (Tag op args) = true ->
  exists body, tag_text op args = 60 :: body ++ [62] /\ body <> [] /\ Forall tag_char body.
Proof.
  intros H.
  apply well_formed_tag_cases in H
    as [(-> & desc & Hin & Hc & H0)|[(v & -> & Hin & Hv)|(rgb & n & -> & -> & Hrgb & Hn)]].
  - plain_tag_cases Hin Hc H0.
    all: lazymatch goal with |- context [tag_text ?op []] =>
           let t := eval vm_compute in (tag_text op []) in
           lazymatch t with
           | (60%N :: ?r) => let b := eval vm_compute in (removelast r) in exists b
           end
         end.
    all: split; [vm_compute; reflexivity|]; split; [done|]; closed_tag_chars.
  - one_number_cases Hin Hv.
    all: lazymatch goal with |- context [tag_text ?op [?x]] => one_number_shape op x Hv end.
    all: lazymatch goal with |- context [(60%N :: ?P) ++ _] =>
           exists (P ++ 91 :: ds ++ [93])
         end.
    all: split; [cbn [app]; by rewrite <- ?app_assoc|].
    all: split; [done|].
    all: apply Forall_app; split; [closed_tag_chars|].
    all: apply Forall_cons_2; [by vm_compute|].
    all: apply Forall_app; split; [by apply HEX_tag_chars|closed_tag_chars].
  - rewrite color_text.
    destruct (fmt_0X_spec 6 rgb) as (_ & H6 & _); [lia|done|].
    destruct (fmt_0X_spec 2 n) as (_ & H2 & _); [lia|done|].
    exists (u "Color " ++ 91 :: fmt_0X 6 rgb ++ 93 :: u " for " ++ 91 :: fmt_0X 2 n
            ++ 93 :: u " chars").
    split; [|split; [done|]].
    + numerals. by list_norm.
    + apply Forall_app; split; [closed_tag_chars|].
      apply Forall_cons_2; [by vm_compute|].
      apply Forall_app; split; [by apply HEX_tag_chars|].
      apply Forall_cons_2; [by vm_compute|].
      apply Forall_app; split; [closed_tag_chars|].
      apply Forall_cons_2; [by vm_compute|].
      apply Forall_app; split; [by apply HEX_tag_chars|].
      apply Forall_cons_2; [by vm_compute|]. closed_tag_chars.
Qed.

Ltac no_bracket := repeat first [apply Forall_nil_2 | apply Forall_cons_2; [done|]]; fail.

(** [encode_ac_text] finds the opcode and the arguments of a tag in its
    text. *)
Lemma encode_tag_text op args :
  well_formed (Tag op args) = true ->
  encode_tag (tag_text op args) = Ok (item_bytes (Tag op args)).
Proof.
  intros H. destruct (encode_args_tag _ _ H) as (ab & Hab & _).
  unfold item_bytes. rewrite Hab.
  apply well_formed_tag_cases in H
    as [(-> & desc & Hin & Hc & H0)|[(v & -> & Hin & Hv)|(rgb & n & -> & -> & Hrgb & Hn)]].
  - assert (ab = []) as ->.
    { unfold encode_args in Hab. rewrite Hc in Hab. by injection Hab. }
    clear Hab. plain_tag_cases Hin Hc H0; vm_compute; reflexivity.
  - one_number_cases Hin Hv.
    all: lazymatch goal with |- context [tag_text ?op [?x]] => one_number_shape op x Hv end.
    all: unfold encode_tag, findall, blank_args, sub; cbv zeta.
    all: rewrite findall_bracket by (first [solve [no_bracket] | done | lia]).
    all: rewrite (findall_go_absent 91) by (first [done | solve [no_bracket]]).
    all: match goal with
         | |- context [sub_go bracket_re ?f None 0 0 (?pre ++ 91 :: ?d ++ 93 :: ?rest)] =>
             destruct (sub_bracket f 0 pre d rest) as (g & ->); [solve [no_bracket]|done|]
         end.
    all: rewrite (sub_go_absent 91) by (first [done | solve [no_bracket]]).
    all: cbn [fmap list_fmap]; rewrite Hint.
    all: match goal with
         | |- context [REVERSE_CONTROL_CODES !! ?t] =>
             let r := eval vm_compute in (REVERSE_CONTROL_CODES !! t) in
             replace (REVERSE_CONTROL_CODES !! t) with r by (vm_compute; reflexivity)
         end.
    all: by rewrite Hab.
  - rewrite color_text.
    destruct (fmt_0X_spec 6 rgb) as (L6 & H6 & I6); [lia|done|].
    destruct (fmt_0X_spec 2 n) as (L2 & H2 & I2); [lia|done|].
    generalize dependent (fmt_0X 6 rgb). intros d6 L6 H6 I6.
    generalize dependent (fmt_0X 2 n). intros d2 L2 H2 I2.
    unfold encode_tag, findall, blank_args, sub; cbv zeta. numerals.
    rewrite findall_bracket by (first [solve [no_bracket] | done | lia]).
    rewrite findall_bracket by (first [solve [no_bracket] | done | lia]).
    rewrite (findall_go_absent 91) by (first [done | solve [no_bracket]]).
    match goal with
    | |- context [sub_go bracket_re ?f None 0 0 (?pre ++ 91 :: ?d ++ 93 :: ?rest)] =>
        destruct (sub_bracket f 0 pre d rest) as (g & ->); [solve [no_bracket]|done|]
    end.
    match goal with
    | |- context [sub_go bracket_re ?f None ?pos 0 (?pre ++ 91 :: ?d ++ 93 :: ?rest)] =>
        destruct (sub_bracket f pos pre d rest) as (g' & ->); [solve [no_bracket]|done|]
    end.
    rewrite (sub_go_absent 91) by (first [done | solve [no_bracket]]).
    cbn [fmap list_fmap]; rewrite I6, I2.
    match goal with
    | |- context [REVERSE_CONTROL_CODES !! ?t] =>
        let r := eval vm_compute in (REVERSE_CONTROL_CODES !! t) in
        replace (REVERSE_CONTROL_CODES !! t) with r by (vm_compute; reflexivity)
    end.
    by rewrite Hab.
Qed.
(** ** The round trip: the normaliser leaves the tags alone *)

Ltac hex_facts :=
  repeat match goal with
  | H : Forall (fun d => is_HEX d = true) (_ :: _) |- _ =>
      let H1 := fresh in
      apply Forall_cons in H as [H1 H]; cbv beta in H1;
      apply HEX_facts in H1 as (? & ? & ? & ? & ? & ? & ? & _)
  end.

(** Run a pattern on a subject whose characters are numerals or digits
    with their facts among the hypotheses. *)
Ltac run_match :=
  cbn; repeat (progress (repeat match goal with H : _ = _ |- _ => rewrite !H end); cbn).

Ltac count_S a b :=
  lazymatch a with
  | b => constr:(O)
  | S ?a' => let n := count_S a' b in constr:(S n)
  end.

Ltac fix_sub :=
  repeat match goal with
         | |- context [(?a - ?b)%nat] =>
             let n := count_S a b in replace (a - b)%nat with n by lia
         end.

Ltac unfold_patterns :=
  unfold match_at, closing_tag_re, npc_expression_re, player_emotion_re, bare_arg_re,
    color_for_re, color_for_chars_re, color_line_re, color_bare_re, color_bracket_re,
    lit, sp, hex, plus, times.

Ltac list_of_len l H :=
  repeat (let x := fresh "d" in destruct l as [|x l]; [discriminate H|]);
  destruct l; [clear H|discriminate H].

Lemma keeps_color_line pos rest ds :
  length ds = 6%nat -> Forall (fun d => is_HEX d = true) ds ->
  let t := u "<Color Line " ++ 91 :: ds ++ [93; 62] in
  exists g, match_at color_line_re pos (t ++ rest) = Some (length t, g)
            /\ color_line_repl g = t.
Proof.
  intros Hlen HHEX t. subst t. pose proof (upper_HEX _ HHEX) as Hup.
  list_of_len ds Hlen. unfold_patterns. numerals. hex_facts.
  run_match. fix_sub. cbn [take]. eexists. split; [reflexivity|].
  unfold color_line_repl. cbn [group Nat.eqb]. rewrite Hup. by numerals.
Qed.

Lemma keeps_color_for_chars pos rest d6 d2 :
  length d6 = 6%nat -> Forall (fun d => is_HEX d = true) d6 ->
  length d2 = 2%nat -> Forall (fun d => is_HEX d = true) d2 ->
  let t := u "<Color " ++ 91 :: d6 ++ 93 :: u " for " ++ 91 :: d2 ++ 93 :: u " chars>" in
  match_at color_for_re pos (t ++ rest) = None
  /\ match_at color_bracket_re pos (t ++ rest) = None
  /\ exists g, match_at color_for_chars_re pos (t ++ rest) = Some (length t, g)
               /\ color_for_repl g = t.
Proof.
  intros L6 H6 L2 H2 t. subst t.
  pose proof (upper_HEX _ H6) as U6. pose proof (upper_HEX _ H2) as U2.
  list_of_len d6 L6. list_of_len d2 L2. hex_facts.
  split; [|split].
  - unfold_patterns. numerals. by run_match.
  - unfold_patterns. numerals. by run_match.
  - unfold_patterns. numerals. run_match. fix_sub. cbn [take].
    eexists. split; [reflexivity|].
    unfold color_for_repl, hexarg. cbn [group Nat.eqb]. rewrite U6, U2. by numerals.
Qed.

Ltac keeps_by_computation := intros pos rest; left; vm_compute; reflexivity.

(** No substitution of [_normalize_control_tags] changes the text of a
    well-formed tag. *)
Lemma keeps_tag_text op args :
  well_formed (Tag op args) = true ->
  Forall (fun rf => keeps_tag rf (tag_text op args)) normalizers.
Proof.
  intros H.
  apply well_formed_tag_cases in H
    as [(-> & desc & Hin & Hc & H0)|[(v & -> & Hin & Hv)|(rgb & n & -> & -> & Hrgb & Hn)]].
  - plain_tag_cases Hin Hc H0.
    all: unfold normalizers;
      repeat first [apply Forall_nil_2 | apply Forall_cons_2; [keeps_by_computation|]].
  - one_number_cases Hin Hv.
    all: lazymatch goal with |- context [tag_text ?op [?x]] => one_number_shape op x Hv end.
    all: unfold normalizers;
      repeat first
        [ apply Forall_nil_2
        | apply Forall_cons_2;
          [first [ keeps_by_computation
                 | intros pos rest; right; exact (keeps_color_line pos rest ds Hlen HHEX) ]|] ].
  - rewrite color_text.
    destruct (fmt_0X_spec 6 rgb) as (L6 & H6 & _); [lia|done|].
    destruct (fmt_0X_spec 2 n) as (L2 & H2 & _); [lia|done|].
    generalize dependent (fmt_0X 6 rgb). intros d6 L6 H6.
    generalize dependent (fmt_0X 2 n). intros d2 L2 H2.
    unfold normalizers.
    do 8 (apply Forall_cons_2; [keeps_by_computation|]).
    apply Forall_cons_2.
    { intros pos rest. left. exact (proj1 (keeps_color_for_chars pos rest d6 d2 L6 H6 L2 H2)). }
    apply Forall_cons_2.
    { intros pos rest. right.
      exact (proj2 (proj2 (keeps_color_for_chars pos rest d6 d2 L6 H6 L2 H2))). }
    do 2 (apply Forall_cons_2; [keeps_by_computation|]).
    apply Forall_cons_2; [|apply Forall_nil_2].
    intros pos rest. left.
    exact (proj1 (proj2 (keeps_color_for_chars pos rest d6 d2 L6 H6 L2 H2))).
Qed.
(** ** The round trip: encoding a text of items *)

Lemma render_cons it items : render (it :: items) = item_text it ++ render items.
Proof. done. Qed.

Lemma well_formed_lit c :
  well_formed (Lit c) = true -> has_glyph c /\ c <> 60 /\ c <> 10.
Proof.
  cbn [well_formed]. unfold has_glyph.
  destruct (REVERSE_CHARACTER_MAP !! [c]) as [byte|]; [|done].
  intros H. apply andb_prop in H as [H H10]. apply andb_prop in H as [_ H60].
  apply negb_true_iff, N.eqb_neq in H10, H60. done.
Qed.

(** One substitution of the normaliser on a text of items. *)
Lemma sub_go_items rf pos items :
  starts_with 60 rf.1 = true ->
  (forall op args, well_formed (Tag op args) = true -> keeps_tag rf (tag_text op args)) ->
  Forall (fun it => well_formed it = true) items ->
  sub_go rf.1 rf.2 None pos 0 (render items) = render items.
Proof.
  intros Hr Hk Hwf. revert pos.
  induction Hwf as [|[c|op args] items Hit _ IH]; intros pos; [done| |].
  - apply well_formed_lit in Hit as (_ & H60 & _). rewrite render_cons. cbn [item_text app].
    rewrite sub_go_nomatch by (apply (match_at_starts_with 60); [done|cbn; congruence]).
    by rewrite IH.
  - rewrite render_cons. cbn [item_text].
    destruct (tag_text_is_tag _ _ Hit) as (body & Ht & Hne & Hbody).
    destruct (Hk _ _ Hit pos (render items)) as [Hnone|(g & Hsome & Hg)].
    + rewrite Ht in *. cbn [app] in *. rewrite sub_go_nomatch by done.
      rewrite (sub_go_prefix 60), IH; [done|done|].
      apply Forall_app. split; [|by repeat constructor].
      eapply Forall_impl; [done|]. by intros c (? & _).
    + rewrite <- Hg at 2. rewrite Ht in *. cbn [app length] in *.
      rewrite (sub_go_match _ _ _ _ _ _ _ (body ++ [62]) (render items) Hsome); [|done|done].
      by rewrite IH.
Qed.

Lemma normalizers_start : Forall (fun rf => starts_with 60 rf.1 = true) normalizers.
Proof. unfold normalizers. repeat constructor. Qed.

(** [_normalize_control_tags] leaves a text of well-formed items alone. *)
Lemma normalize_control_tags_items items :
  Forall (fun it => well_formed it = true) items ->
  _normalize_control_tags (render items) = render items.
Proof.
  intros Hwf.
  change (_normalize_control_tags (render items))
    with (foldl (fun t rf => sub rf.1 rf.2 t) (render items) normalizers).
  assert (Forall (fun rf => starts_with 60 rf.1 = true
                            /\ forall op args, well_formed (Tag op args) = true ->
                                               keeps_tag rf (tag_text op args)) normalizers) as H.
  { apply Forall_forall. intros rf Hrf. split.
    - pose proof normalizers_start as Hs. rewrite Forall_forall in Hs. by apply Hs.
    - intros op args Hw. pose proof (keeps_tag_text _ _ Hw) as Hk.
      rewrite Forall_forall in Hk. by apply Hk. }
  induction H as [|rf l [Hs Hk] _ IH]; [done|].
  cbn [foldl]. unfold sub at 2. by rewrite sub_go_items.
Qed.

Lemma printable_not_replaced c sd : printable c = true -> sd ∈ replacements -> c <> sd.1.
Proof.
  intros Hc Hsd ->. unfold replacements in Hsd.
  repeat (apply elem_of_cons in Hsd as [->|Hsd]; [by vm_compute in Hc|]).
  by apply elem_of_nil in Hsd.
Qed.

Lemma printable_keeps c : printable c = true -> keeps c = true.
Proof. intros Hc. unfold keeps. unfold printable in Hc. rewrite Hc. by rewrite orb_true_r. Qed.

(** The characters of a text of well-formed items are glyphs or printable
    ASCII characters. *)
Lemma render_chars items :
  Forall (fun it => well_formed it = true) items ->
  Forall (fun c => has_glyph c \/ printable c = true) (render items).
Proof.
  induction 1 as [|[c|op args] items Hit _ IH]; [done| |]; rewrite render_cons; cbn [item_text].
  - apply well_formed_lit in Hit as (Hg & _). constructor; [by left|done].
  - destruct (tag_text_is_tag _ _ Hit) as (body & -> & _ & Hbody).
    apply Forall_app. split; [|done].
    constructor; [by right|]. apply Forall_app. split; [|by repeat constructor; right].
    eapply Forall_impl; [done|]. intros c (_ & _ & ?). by right.
Qed.

Lemma normalize_visible_text_items items :
  Forall (fun it => well_formed it = true) items ->
  _sanitize_for_charset (_normalize_visible_text (render items)) = render items.
Proof.
  intros Hwf%render_chars. rewrite normalize_visible_text_glyphs.
  - apply sanitize_kept. eapply Forall_impl; [done|].
    intros c [Hc|Hc]; [by apply has_glyph_keeps|by apply printable_keeps].
  - eapply Forall_impl; [done|].
    intros c [Hc|Hc] sd Hsd; [by apply has_glyph_not_replaced|by apply printable_not_replaced].
Qed.

(** [re.split] on a text of items gives the runs of characters and the
    tags between them. *)
Lemma split_go_items pos cur items :
  Forall (fun it => well_formed it = true) items ->
  split_go tag_re pos 0 cur (render items) = tokens (reverse cur) items.
Proof.
  intros Hwf. revert pos cur.
  induction Hwf as [|[c|op args] items Hit _ IH]; intros pos cur; [done| |].
  - apply well_formed_lit in Hit as (_ & H60 & _). rewrite render_cons. cbn [item_text app].
    cbn [split_go tokens].
    rewrite (match_at_starts_with 60); [|done|cbn; congruence].
    by rewrite IH, reverse_cons.
  - rewrite render_cons. cbn [item_text tokens].
    destruct (tag_text_is_tag _ _ Hit) as (body & -> & Hne & Hbody).
    cbn [app]. rewrite <- app_assoc. cbn [app split_go].
    rewrite match_tag_re; [|done|eapply Forall_impl; [done|]; by intros c (_ & ? & _)].
    cbn [group Nat.eqb]. do 2 f_equal.
    change (62 :: render items) with ([62] ++ render items). rewrite app_assoc.
    replace (length body + 1)%nat with (length (body ++ [62])) by (rewrite length_app; cbn; lia).
    by rewrite split_go_skip, IH.
Qed.
(** ** The round trip: runs of characters on one line *)

(** [s.split(' ')] cuts a text at its spaces and at nothing else. *)
Lemma split_spec (s : str) :
  exists w ws, Py.split 32 s = w :: ws /\ s = join_words (w :: ws)
               /\ Forall (Forall (fun c => c <> 32)) (w :: ws).
Proof.
  induction s as [|c s (w & ws & Hs & Hj & Hw)].
  - exists [], []. repeat split; by repeat constructor.
  - cbn [Py.split]. rewrite Hs. destruct (N.eqb_spec c 32) as [->|Hc].
    + exists [], (w :: ws). split; [done|]. split; [by rewrite Hj|by constructor].
    + exists (c :: w), ws. split; [done|]. apply Forall_cons in Hw as [Hw Hws]. split.
      * rewrite Hj. by destruct ws.
      * constructor; [by constructor|done].
Qed.

Lemma join_words_Forall (P : N -> Prop) ws :
  Forall P (join_words ws) -> Forall (Forall P) ws.
Proof.
  induction ws as [|w ws IH]; [done|]. destruct ws as [|w' ws]; [by repeat constructor|].
  change (join_words (w :: w' :: ws)) with (w ++ 32 :: join_words (w' :: ws)).
  intros [Hw H]%Forall_app. apply Forall_cons in H as [_ H]. constructor; [done|by apply IH].
Qed.

Lemma join_words_length w ws :
  length (join_words (w :: ws))
  = (length w + sum_list_with (fun w' => S (length w')) ws)%nat.
Proof.
  revert w. induction ws as [|w' ws IH]; intros w; [cbn; lia|].
  change (join_words (w :: w' :: ws)) with (w ++ 32 :: join_words (w' :: ws)).
  rewrite length_app. cbn [length sum_list_with]. rewrite IH. lia.
Qed.

Lemma glyphs_app a b : glyphs (a ++ b) = glyphs a ++ glyphs b.
Proof. unfold glyphs. by rewrite fmap_app. Qed.

Lemma glyphs_join_words w ws :
  glyphs (join_words (w :: ws))
  = glyphs w ++ concat ((fun w' => 0x20 :: glyphs w') <$> ws).
Proof.
  revert w. induction ws as [|w' ws IH]; intros w; [cbn; by rewrite app_nil_r|].
  change (join_words (w :: w' :: ws)) with (w ++ [32] ++ join_words (w' :: ws)).
  rewrite !glyphs_app, IH. done.
Qed.

(** The words after the first one on a line that has room for them all:
    each follows a space, and no line break is emitted. *)
Lemma encode_words_line enc cc k ws :
  Forall (Forall word_char) ws -> (0 < cc)%nat ->
  (cc + sum_list_with (fun w => S (length w)) ws <= 30)%nat ->
  foldl (fun st iw => encode_word st iw.1 iw.2) (enc, cc)
        (imap (fun i w => (S (k + i), w)) ws)
  = (enc ++ concat ((fun w => 0x20 :: glyphs w) <$> ws),
     (cc + sum_list_with (fun w => S (length w)) ws)%nat).
Proof.
  intros Hws. revert enc cc k.
  induction Hws as [|w ws Hw _ IH]; intros enc cc k Hcc Hfit.
  - cbn. by rewrite app_nil_r, Nat.add_0_r.
  - cbn [imap foldl fst snd sum_list_with fmap list_fmap concat] in *.
    rewrite encode_word_word by done. cbv zeta.
    replace (0 <? S (k + 0))%nat with true by done.
    destruct (Nat.ltb_spec 0 cc) as [_|]; [|lia]. cbn [andb].
    destruct (Nat.ltb_spec 30 (cc + 1 + length w)) as [|_]; [lia|].
    rewrite (imap_ext _ (fun i w => (S (S k + i), w))) by (intros; cbn; f_equal; lia).
    rewrite IH by lia. cbn [replicate app]. rewrite <- !app_assoc. cbn [app].
    f_equal. lia.
Qed.

(** A run of characters that fits the current line and does not start it
    with a space is encoded glyph by glyph. *)
Lemma encode_literal_run enc cc run :
  Forall (fun c => well_formed (Lit c) = true) run ->
  (cc + length run <= 30)%nat -> (cc = 0%nat -> head run <> Some 32) ->
  encode_literal (enc, cc) run = (enc ++ glyphs run, (cc + length run)%nat).
Proof.
  intros Hrun Hfit Hsp. unfold encode_literal.
  destruct (split_spec run) as (w & ws & -> & Hj & Hw32).
  assert (Forall (Forall word_char) (w :: ws)) as Hwc.
  { rewrite Hj in Hrun. apply join_words_Forall in Hrun.
    apply Forall_forall. intros x Hx. rewrite Forall_forall in Hrun, Hw32.
    specialize (Hrun x Hx). specialize (Hw32 x Hx).
    apply Forall_forall. intros c Hc. rewrite Forall_forall in Hrun, Hw32.
    destruct (well_formed_lit c (Hrun c Hc)) as (? & ? & ?).
    repeat split; try done. by apply Hw32. }
  rewrite Hj, glyphs_join_words, join_words_length in *.
  apply Forall_cons in Hwc as [Hw Hws].
  cbn [imap foldl fst snd]. rewrite encode_word_word by done. cbv zeta.
  change (0 <? 0)%nat with false. cbn [andb replicate app].
  destruct ((0 <? cc)%nat && (30 <? cc + 0 + length w)%nat) eqn:Hwrap.
  { apply andb_prop in Hwrap as [_ Hwrap]. apply Nat.ltb_lt in Hwrap. lia. }
  destruct ws as [|w' ws].
  { cbn. rewrite app_nil_r. f_equal. lia. }
  rewrite (imap_ext _ (fun i w => (S (0 + i), w))) by done.
  rewrite encode_words_line; [rewrite <- app_assoc; f_equal; lia|done| |lia].
  destruct cc as [|cc]; [|lia]. destruct w as [|c w]; [|cbn; lia].
  exfalso. by apply Hsp.
Qed.

Lemma encode_token_run enc cc run :
  Forall (fun c => well_formed (Lit c) = true) run ->
  (cc + length run <= 30)%nat -> (cc = 0%nat -> head run <> Some 32) ->
  encode_token (enc, cc) run = Ok (enc ++ glyphs run, (cc + length run)%nat).
Proof.
  intros Hrun Hfit Hsp. destruct run as [|c run].
  - cbn. by rewrite app_nil_r, Nat.add_0_r.
  - unfold encode_token.
    apply Forall_cons in Hrun as Hc. destruct Hc as [Hc _].
    apply well_formed_lit in Hc as (_ & H60 & _). apply N.eqb_neq in H60.
    change (startswith (u "<") (c :: run)) with ((c =? 60) && true).
    rewrite H60. cbn [andb]. by rewrite encode_literal_run.
Qed.

Lemma encode_token_tag enc cc op args :
  well_formed (Tag op args) = true ->
  encode_token (enc, cc) (tag_text op args) = Ok (enc ++ item_bytes (Tag op args), cc).
Proof.
  intros H. destruct (tag_text_is_tag _ _ H) as (body & Ht & _).
  unfold encode_token. rewrite encode_tag_text by done. rewrite Ht.
  change (startswith (u "<") (60 :: body ++ [62])) with true.
  unfold endswith. change (60 :: body ++ [62]) with ((60 :: body) ++ [62]).
  rewrite reverse_app. done.
Qed.

(** The tokens of a text of items that fits one line, from any state of
    that line. *)
Lemma encode_tokens enc cc cur items :
  Forall (fun c => well_formed (Lit c) = true) cur ->
  Forall (fun it => well_formed it = true) items ->
  (cc + length cur + length (visible_chars items) <= 30)%nat ->
  (cc = 0%nat -> head (cur ++ visible_chars items) <> Some 32) ->
  foldl (fun acc token => st ← acc; encode_token st token) (Ok (enc, cc)) (tokens cur items)
  = Ok (enc ++ glyphs cur ++ concat (item_bytes <$> items),
        (cc + length cur + length (visible_chars items))%nat).
Proof.
  intros Hcur Hwf. revert enc cc cur Hcur.
  induction Hwf as [|[c|op args] items Hit _ IH]; intros enc cc cur Hcur Hfit Hsp.
  - cbn [tokens foldl visible_chars fmap list_fmap concat length] in *. res_simpl.
    rewrite app_nil_r in *. rewrite encode_token_run; [|done|lia|done].
    do 2 f_equal. lia.
  - cbn [tokens visible_chars fmap list_fmap concat item_bytes length] in *.
    rewrite IH.
    + rewrite glyphs_app, <- !app_assoc, length_app. cbn [length]. do 2 f_equal. lia.
    + apply Forall_app. split; [done|by constructor].
    + rewrite length_app. cbn. lia.
    + by rewrite <- app_assoc.
  - cbn [tokens foldl visible_chars fmap list_fmap concat] in *. res_simpl.
    rewrite encode_token_run; [|done|lia|].
    2:{ intros Hz. specialize (Hsp Hz). destruct cur; [|done]. by intros [=]. }
    res_simpl. rewrite encode_token_tag by done.
    rewrite IH; [|done|cbn; lia|].
    + rewrite <- !app_assoc. cbn [glyphs fmap list_fmap app length]. do 2 f_equal. lia.
    + intros Hz. destruct cur; [|cbn in Hz; lia]. apply Hsp. lia.
Qed.

(** Encoding a text of well-formed items that fits one line gives the
    bytes of the items and the terminator. *)
Lemma encode_ac_text_items items :
  Forall (fun it => well_formed it = true) items -> one_line items = true ->
  encode_ac_text (render items) = Ok (encoding items).
Proof.
  intros Hwf Hline. unfold one_line in Hline. apply andb_prop in Hline as [Hfit Hsp].
  apply Nat.leb_le in Hfit. apply negb_true_iff in Hsp.
  unfold encode_ac_text. cbv zeta.
  rewrite normalize_control_tags_items, normalize_visible_text_items by done.
  unfold Re.split. rewrite split_go_items by done. cbn [reverse rev_append].
  change (reverse []) with (@nil N).
  rewrite (encode_tokens [] 0 [] items); [done|done|done|cbn; lia|].
  intros _. cbn [app]. destruct (visible_chars items) as [|c v]; [done|].
  intros [= ->]. done.
Qed.
(** ** Properties of the codec *)

(** X1. Round trip on texts of well-formed items. A well-formed item is a
    character, a single code point to which the reverse glyph table gives a
    byte other than the terminator byte 0x00 (so not the glyph of byte
    0x00, the inverted exclamation mark) and which is neither the opening
    angle bracket nor the line feed; or a tag of the control-code table
    that takes no argument bytes, other than End Conversation (opcode
    0x00); or a tag with one numeric argument in a bracket of its own
    (opcodes 0x03, 0x05, 0x0E to 0x12, 0x53, 0x54, 0x5A) whose value fits
    the argument bytes of the opcode; or the colour tag 0x50 with a colour
    of three bytes and a count of one byte. When the visible characters of
    such a text are at most 30 and do not start with a space, the text is
    encoded without an exception to the bytes of its items followed by the
    terminator, and these bytes decode to the same text: the same
    characters and the same tags, arguments in the same zero-padded
    upper-case hexadecimal. *)
Theorem encode_decode_round_trip (items : list item) :
  Forall (fun it => well_formed it = true) items -> one_line items = true ->
  encode_ac_text (render items) = Ok (encoding items)
  /\ parse_ac_text (encoding items) = Ok (render items).
Proof.
  intros Hwf Hline. split; [by apply encode_ac_text_items|by apply parse_ac_text_encoding].
Qed.

Lemma encode_decode_round_trip_witness :
  let items := [Lit 72; Lit 105; Lit 33; Tag 0x03 [0x1E]; Lit 32; Lit 0x266A;
                Tag 0x50 [0xFF8000; 2]; Lit 79; Lit 75; Tag 0x0F [0x01A2];
                Tag 0x05 [0x00C0FF]; Tag 0x04 []; Tag 0x02 []] in
  render items
  = u "Hi!<Pause [1E]> " ++ [0x266A]
    ++ u "<Color [FF8000] for [02] chars>OK<Choice 1 Jump [01A2]><Color Line [00C0FF]>"
    ++ u "<Press A><Clear Text>"
  /\ encode_ac_text (render items) = Ok (encoding items)
  /\ parse_ac_text (encoding items) = Ok (render items).
Proof.
  intros items. split; [by vm_compute|].
  apply (encode_decode_round_trip items); [|by vm_compute].
  apply Forall_forall. intros it Hit. unfold items in Hit.
  repeat (apply elem_of_cons in Hit as [->|Hit]; [by vm_compute|]).
  by apply elem_of_nil in Hit.
Defined.

(** X2. Decoding the bytes of well-formed items followed by the terminator
    gives the text of the items, whatever their number and whatever follows
    the terminator in the buffer. *)
Theorem parse_stops_at_terminator (items : list item) (rest : bytes) :
  Forall (fun it => well_formed it = true) items ->
  parse_ac_text (concat (item_bytes <$> items) ++ 0x00 :: rest) = Ok (render items).
Proof. apply parse_ac_text_items. Qed.

Lemma parse_stops_at_terminator_witness :
  parse_ac_text ([0x48; 0x69; 0x7F; 0x03; 0x0A; 0x7F; 0x04; 0x00; 0x41; 0x7F])
  = Ok (u "Hi<Pause [0A]><Press A>").
Proof.
  apply (parse_stops_at_terminator [Lit 72; Lit 105; Tag 0x03 [0x0A]; Tag 0x04 []] [0x41; 0x7F]).
  repeat (constructor; [by vm_compute|]). constructor.
Defined.

(** X3. [parse_ac_text] returns a text for every buffer: it raises no
    exception, whatever the bytes, and the loop ends within as many turns
    as the buffer has bytes. *)
Theorem parse_ac_text_never_raises (data : bytes) :
  exists text, parse_ac_text data = Ok text.
Proof. apply parse_ac_text_returns. Qed.

(** ** Lines of at most 30 columns *)

Lemma split_app_sep_at sep (w rest : str) :
  Forall (fun c => c <> sep) w -> Py.split sep (w ++ sep :: rest) = w :: Py.split sep rest.
Proof.
  induction 1 as [|c w Hsp _ IH].
  - cbn. rewrite N.eqb_refl. by destruct (split_cons_inv sep rest) as (? & ? & ->).
  - cbn [app Py.split]. rewrite IH. apply N.eqb_neq in Hsp. by rewrite Hsp.
Qed.

Lemma split_no_sep sep (w : str) : Forall (fun c => c <> sep) w -> Py.split sep w = [w].
Proof.
  induction 1 as [|c w Hsp _ IH]; [done|].
  cbn. rewrite IH. apply N.eqb_neq in Hsp. by rewrite Hsp.
Qed.

Lemma glyphs_length w : length (glyphs w) = length w.
Proof. unfold glyphs. by rewrite length_fmap. Qed.

Lemma glyphs_no_break_Forall w : Forall word_char w -> Forall (fun b => b <> 0xCD) (glyphs w).
Proof.
  intros Hw. apply Forall_forall. intros b Hb ->. by apply (glyphs_no_break w).
Qed.

(** The lines of the words after the first, [line] being the bytes already
    on the current line. *)
Lemma wrap_rest_lines line ws :
  Forall is_word ws -> Forall (fun w => (length w <= 30)%nat) ws ->
  Forall (fun b => b <> 0xCD) line -> (length line <= 30)%nat ->
  Forall (fun l => (length l <= 30)%nat) (Py.split 0xCD (line ++ wrap_rest (length line) ws)).
Proof.
  intros Hws. revert line. induction Hws as [|w ws [_ Hw] _ IH]; intros line Hlen Hline Hfit.
  - cbn [wrap_rest]. rewrite app_nil_r, split_no_sep by done. by constructor.
  - apply Forall_cons in Hlen as [Hwl Hlen]. cbn [wrap_rest].
    pose proof (glyphs_no_break_Forall w Hw) as Hg.
    destruct (Nat.ltb_spec 30 (length line + 1 + length w)) as [Hwrap|Hroom].
    + rewrite split_app_sep_at by done. constructor; [done|].
      rewrite <- (glyphs_length w). apply IH; [done|done|by rewrite glyphs_length].
    + change (line ++ 32 :: glyphs w ++ wrap_rest (length line + 1 + length w) ws)
        with (line ++ [32] ++ glyphs w ++ wrap_rest (length line + 1 + length w) ws).
      rewrite !app_assoc, <- (app_assoc line).
      replace (length line + 1 + length w)%nat with (length (line ++ [32] ++ glyphs w))
        by (rewrite !length_app, glyphs_length; cbn; lia).
      apply IH; [done| |].
      * apply Forall_app. split; [done|]. apply Forall_app. split; [|done].
        by constructor.
      * rewrite !length_app, glyphs_length. cbn. lia.
Qed.

(** X4. Words of at most 30 characters joined by single spaces are encoded
    to lines of at most 30 bytes: between two line-break bytes, before the
    first and after the last, the encoded text never holds more than 30
    glyphs. *)
Theorem encoded_lines_fit (ws : list str) :
  Forall is_word ws -> Forall (fun w => (length w <= 30)%nat) ws ->
  exists out, encode_ac_text (join_words ws) = Ok (out ++ [0x00])
              /\ Forall (fun line => (length line <= 30)%nat) (Py.split 0xCD out).
Proof.
  intros Hws Hlen. exists (wrap_words ws). split; [by apply encode_ac_text_words|].
  destruct Hws as [|w ws [_ Hw] Hws]; [by repeat constructor|].
  apply Forall_cons in Hlen as [Hwl Hlen]. cbn [wrap_words].
  rewrite <- (glyphs_length w). apply wrap_rest_lines; [done|done| |by rewrite glyphs_length].
  by apply glyphs_no_break_Forall.
Qed.

Lemma encoded_lines_fit_witness :
  exists out,
    encode_ac_text (join_words [u "The"; u "quick"; u "brown"; u "fox"; u "jumps"; u "over";
                                u "the"; u "lazy"; u "dog"; u "again"; u "and"; u "again"])
    = Ok (out ++ [0x00])
    /\ Forall (fun line => (length line <= 30)%nat) (Py.split 0xCD out).
Proof.
  assert (forall w : str,
            forallb (fun c => bool_decide (has_glyph c) && negb (c =? 32)
                              && negb (c =? 10) && negb (c =? 60)) w = true ->
            Forall word_char w) as Hwc.
  { intros w Hw. apply Forall_forall. intros c Hc. rewrite forallb_forall in Hw.
    apply list_elem_of_In, Hw in Hc.
    repeat (apply andb_prop in Hc as [Hc ?]).
    repeat split; [by apply bool_decide_eq_true_1 in Hc|..];
      apply N.eqb_neq; by apply negb_true_iff. }
  apply encoded_lines_fit.
  - repeat (constructor; [split; [done|apply Hwc; by vm_compute]|]). constructor.
  - repeat (constructor; [vm_compute; lia|]). constructor.
Defined.

(** ** Tags and visible text *)

Lemma strip_control_codes_items_go pos items :
  Forall (fun it => well_formed it = true) items ->
  sub_go _CONTROL_TAG_RE (fun _ => []) None pos 0 (render items) = visible_chars items.
Proof.
  intros Hwf. revert pos.
  induction Hwf as [|[c|op args] items Hit _ IH]; intros pos; [done| |].
  - apply well_formed_lit in Hit as (_ & H60 & _). rewrite render_cons. cbn [item_text app].
    rewrite sub_go_nomatch by (apply (match_at_starts_with 60); [done|cbn; congruence]).
    cbn [visible_chars]. by rewrite IH.
  - rewrite render_cons. cbn [item_text visible_chars].
    destruct (tag_text_is_tag _ _ Hit) as (body & -> & Hne & Hbody).
    cbn [app]. rewrite <- app_assoc. cbn [app].
    erewrite (sub_go_match _ _ pos 60 _ _ _ (body ++ [62]) (render items)).
    + cbn [app]. apply IH.
    + apply match_control_tag; [done|]. eapply Forall_impl; [done|]. by intros c (_ & ? & _).
    + by rewrite <- app_assoc.
    + rewrite length_app. cbn. lia.
Qed.

(** ** The typographic characters *)

Lemma replace_elem c src dst (s : str) :
  c ∈ replace src dst s -> (c ∈ s /\ c <> src) \/ c ∈ dst.
Proof.
  unfold replace. intros (x & Hc & Hx)%list_elem_of_bind.
  destruct (N.eqb_spec x src) as [Heq|Hne]; [by right|].
  apply list_elem_of_singleton in Hc. subst c. by left.
Qed.

Lemma foldl_replace_absent (l : list (char * str)) (text : str) c :
  Forall (fun sd => c ∉ sd.2) l -> c ∈ l.*1 \/ c ∉ text ->
  c ∉ foldl (fun text sd => replace sd.1 sd.2 text) text l.
Proof.
  intros Hl. revert text. induction Hl as [|sd l Hsd _ IH]; intros text Hc.
  - cbn. destruct Hc as [Hc|Hc]; [by apply elem_of_nil in Hc|done].
  - cbn [foldl]. apply IH. rewrite fmap_cons in Hc.
    destruct (decide (c = sd.1)) as [->|Hne].
    + right. intros [[_ H]|H]%replace_elem; done.
    + destruct Hc as [Hc|Hc].
      * apply elem_of_cons in Hc as [Hc|Hc]; [done|by left].
      * right. intros [[H _]|H]%replace_elem; done.
Qed.

(** X5. On a text of well-formed items, [_strip_control_codes] removes the
    tags and nothing else: what is left is the visible characters in
    order, and the visible text [observe_text] works with is these
    characters stripped of surrounding whitespace. *)
Theorem strip_control_codes_visible (items : list item) :
  Forall (fun it => well_formed it = true) items ->
  _strip_control_codes (render items) = visible_chars items
  /\ visible_text (render items) = strip (visible_chars items).
Proof.
  intros Hwf. unfold visible_text, _strip_control_codes, sub.
  by rewrite strip_control_codes_items_go.
Qed.

Lemma strip_control_codes_visible_witness :
  _strip_control_codes (u "<Pause [0A]> Hi <Color Line [00FF00]>there<Press A>")
  = u " Hi there"
  /\ visible_text (u "<Pause [0A]> Hi <Color Line [00FF00]>there<Press A>") = u "Hi there".
Proof.
  pose proof (strip_control_codes_visible
                ([Tag 0x03 [0x0A]; Lit 32; Lit 72; Lit 105; Lit 32; Tag 0x05 [0x00FF00]]
                 ++ (Lit <$> u "there") ++ [Tag 0x04 []])) as H.
  apply H. apply Forall_forall. intros it Hit.
  repeat (apply elem_of_cons in Hit as [->|Hit]; [by vm_compute|]).
  by apply elem_of_nil in Hit.
Defined.

(** X6. The reverse glyph table is the exact inverse of the glyph table: a
    text is sent to a byte if and only if the byte is decoded to that
    text. *)
Theorem reverse_glyph_table_inverse (g : str) (b : N) :
  REVERSE_CHARACTER_MAP !! g = Some b <-> CHARACTER_MAP !! b = Some g.
Proof. apply REVERSE_CHARACTER_MAP_spec. Qed.

(** X7. The reverse control-code table sends the description of every
    opcode, its bracketed arguments blanked, back to the opcode, except
    for the three Set Demo Order opcodes 0x0A, 0x0B and 0x0C, which share
    one description: all three are sent to 0x0C. *)
Theorem reverse_control_codes_inverse (op : N) (desc : str) :
  CONTROL_CODES !! op = Some desc ->
  REVERSE_CONTROL_CODES !! blank_args desc
  = Some (if (op =? 0x0A) || (op =? 0x0B) then 0x0C else op).
Proof.
  intros H. apply (dict_lookup _ _ _ CONTROL_CODES_keys_NoDup) in H.
  unfold CONTROL_CODES_items in H.
  repeat (apply elem_of_cons in H as [[= -> ->]|H]; [by vm_compute|]).
  by apply elem_of_nil in H.
Qed.

Lemma reverse_control_codes_inverse_witness :
  REVERSE_CONTROL_CODES !! blank_args (u "<Set Demo Order [{:02X}, {:02X}, {:02X}]>") = Some 0x0C
  /\ REVERSE_CONTROL_CODES !! blank_args (u "<Color [{:06X}] for [{:02X}] chars>") = Some 0x50.
Proof.
  split.
  - apply (reverse_control_codes_inverse 0x0A). by vm_compute.
  - apply (reverse_control_codes_inverse 0x50). by vm_compute.
Defined.

(** X8. Whatever the text, after [_normalize_visible_text] and
    [_sanitize_for_charset] none of the typographic characters (curly
    quotes, dashes, ellipsis, no-break space) is left, and every character
    is a line break, a glyph of the table or printable ASCII. *)
Theorem sanitized_text_charset (text : str) :
  let clean := _sanitize_for_charset (_normalize_visible_text text) in
  Forall (fun c => c ∉ replacements.*1) clean
  /\ Forall (fun c => c = 10 \/ has_glyph c \/ printable c = true) clean.
Proof.
  cbv zeta. unfold _sanitize_for_charset. split.
  - apply Forall_forall. intros c Hc Hsrc.
    apply list_elem_of_filter in Hc as [_ Hc]. revert Hc.
    apply foldl_replace_absent; [|by left].
    unfold replacements in *. cbn [fmap list_fmap fst] in Hsrc.
    repeat (apply elem_of_cons in Hsrc as [->|Hsrc];
            [repeat (constructor; [by apply (bool_decide_unpack _); vm_compute|]); constructor|]).
    by apply elem_of_nil in Hsrc.
  - apply Forall_forall. intros c Hc. apply list_elem_of_filter in Hc as [Hk _].
    unfold keeps in Hk. apply orb_prop in Hk as [Hk|Hk]; [|by right; right].
    apply orb_prop in Hk as [Hk|Hk].
    + left. by apply N.eqb_eq.
    + right. left. by apply bool_decide_eq_true_1 in Hk.
Qed.

(** ** [_read_dialogue_once] *)

Lemma range0_positive max_size chunk_size :
  (0 < chunk_size)%Z ->
  range0 max_size chunk_size
  = Ok ((fun k => (Z.of_nat k * chunk_size)%Z) <$> seq 0 (turns max_size chunk_size)).
Proof.
  intros H. unfold range0, turns.
  destruct (Z.eqb_spec chunk_size 0) as [|_]; [lia|].
  by destruct (Z.ltb_spec 0 chunk_size) as [_|]; [|lia].
Qed.

(** The loop passes over chunks that are neither empty nor hold a marker. *)
Lemma read_chunks_go read_memory target end_markers chunk_size k a m full :
  (forall j, (a <= j < a + k)%nat ->
             chunk_at read_memory target chunk_size j <> []
             /\ has_marker end_markers (chunk_at read_memory target chunk_size j) = false) ->
  (k <= m)%nat ->
  read_chunks read_memory target end_markers chunk_size
    ((fun k => (Z.of_nat k * chunk_size)%Z) <$> seq a m) full
  = read_chunks read_memory target end_markers chunk_size
      ((fun k => (Z.of_nat k * chunk_size)%Z) <$> seq (a + k) (m - k))
      (full ++ concat (chunk_at read_memory target chunk_size <$> seq a k)).
Proof.
  revert a m full. induction k as [|k IH]; intros a m full Hgood Hk.
  - cbn. by rewrite Nat.add_0_r, Nat.sub_0_r, app_nil_r.
  - destruct m as [|m]; [lia|]. cbn [seq fmap list_fmap read_chunks concat].
    destruct (Hgood a) as [Hne Hm]; [lia|]. unfold chunk_at in Hne, Hm.
    destruct (read_memory (target + Z.of_nat a * chunk_size)%Z chunk_size) as [|b chunk] eqn:E;
      [done|].
    unfold has_marker in Hm. rewrite Hm.
    rewrite IH by (try lia; intros j Hj; apply Hgood; lia).
    unfold chunk_at at 2. rewrite E. rewrite <- app_assoc.
    by replace (S a + k)%nat with (a + S k)%nat by lia.
Qed.

Lemma read_chunks_length read_memory target end_markers chunk_size offsets full :
  (forall a, Z.of_nat (length (read_memory a chunk_size)) <= chunk_size)%Z ->
  (Z.of_nat (length (read_chunks read_memory target end_markers chunk_size offsets full))
   <= Z.of_nat (length full) + Z.of_nat (length offsets) * chunk_size)%Z.
Proof.
  intros Hread. revert full. induction offsets as [|i offsets IH]; intros full.
  - cbn. lia.
  - cbn [read_chunks length]. specialize (Hread (target + i)%Z).
    destruct (read_memory (target + i)%Z chunk_size) as [|b chunk] eqn:E.
    + cbn in Hread. nia.
    + destruct (existsb _ end_markers).
      * rewrite length_app. nia.
      * specialize (IH (full ++ b :: chunk)). rewrite length_app in IH. nia.
Qed.

(** X9. [_read_dialogue_once] with a positive chunk size reads the chunks
    at offsets 0, chunk_size, 2 chunk_size, ... below max_size, and returns
    the chunks read before the first one that is empty, or up to and
    including the first one that holds a marker whole, or all of them when
    there is no such chunk. A marker is looked for in each chunk alone. A
    zero chunk size raises [ValueError]. *)
Theorem read_dialogue_once_chunks (read_memory : Z -> Z -> bytes) (target : Z)
    (end_markers : list bytes) (max_size chunk_size : Z) (k : nat) :
  (0 < chunk_size)%Z ->
  (forall j, (j < k)%nat ->
             chunk_at read_memory target chunk_size j <> []
             /\ has_marker end_markers (chunk_at read_memory target chunk_size j) = false) ->
  let chunk := chunk_at read_memory target chunk_size in
  let result := _read_dialogue_once read_memory target end_markers max_size chunk_size in
  ((k < turns max_size chunk_size)%nat -> chunk k = [] ->
   result = Ok (concat (chunk <$> seq 0 k)))
  /\ ((k < turns max_size chunk_size)%nat -> chunk k <> [] ->
      has_marker end_markers (chunk k) = true ->
      result = Ok (concat (chunk <$> seq 0 (S k))))
  /\ (k = turns max_size chunk_size -> result = Ok (concat (chunk <$> seq 0 k)))
  /\ _read_dialogue_once read_memory target end_markers max_size 0 = Raise ValueError.
Proof.
  intros Hc Hgood chunk result. subst chunk result. unfold _read_dialogue_once.
  rewrite range0_positive by done. res_simpl.
  split; [|split; [|split; [|done]]].
  - intros Hk Hempty.
    rewrite (read_chunks_go _ _ _ _ k 0) by (try lia; intros j Hj; apply Hgood; lia).
    destruct (turns max_size chunk_size - k)%nat as [|m] eqn:Em; [lia|].
    cbn [seq fmap list_fmap read_chunks Nat.add app]. unfold chunk_at in Hempty.
    by rewrite Hempty.
  - intros Hk Hne Hm. rewrite seq_S, fmap_app, concat_app.
    rewrite (read_chunks_go _ _ _ _ k 0) by (try lia; intros j Hj; apply Hgood; lia).
    destruct (turns max_size chunk_size - k)%nat as [|m] eqn:Em; [lia|].
    cbn [seq fmap list_fmap read_chunks Nat.add app]. unfold chunk_at in Hne, Hm.
    destruct (read_memory (target + Z.of_nat k * chunk_size)%Z chunk_size) as [|b c] eqn:E;
      [done|].
    unfold has_marker in Hm. rewrite Hm.
    fold (chunk_at read_memory target chunk_size k) in E. rewrite ?E.
    cbn [fmap list_fmap concat]. fold (chunk_at read_memory target chunk_size k) in E.
    by rewrite ?E, ?app_nil_r.
  - intros ->.
    rewrite (read_chunks_go _ _ _ _ (turns max_size chunk_size) 0)
      by (try lia; intros j Hj; apply Hgood; lia).
    by rewrite Nat.sub_diag.
Qed.

Lemma read_dialogue_once_chunks_witness :
  let memory (a size : Z) : bytes :=
    if (a =? 100)%Z then [0x48; 0x69; 0x7F] else if (a =? 103)%Z then [0x00; 0x7F; 0x0D]
    else [0x41; 0x42; 0x43] in
  _read_dialogue_once memory 100 [[0x7F; 0x00]; [0x7F; 0x0D]] 12 3
  = Ok [0x48; 0x69; 0x7F; 0x00; 0x7F; 0x0D].
Proof.
  intros memory.
  destruct (read_dialogue_once_chunks memory 100 [[0x7F; 0x00]; [0x7F; 0x0D]] 12 3 1)
    as (_ & H & _); [lia| |].
  - intros j Hj. assert (j = 0%nat) as -> by lia. by vm_compute.
  - apply H; [vm_compute; lia|by vm_compute|by vm_compute].
Defined.

(** X10. When the transport never answers more bytes than it is asked for,
    [_read_dialogue_once] with a positive chunk size returns fewer than
    max_size + chunk_size bytes: it can overshoot max_size, by less than
    one chunk. *)
Theorem read_dialogue_once_bound (read_memory : Z -> Z -> bytes) (target : Z)
    (end_markers : list bytes) (max_size chunk_size : Z) :
  (0 < chunk_size)%Z -> (0 <= max_size)%Z ->
  (forall a, Z.of_nat (length (read_memory a chunk_size)) <= chunk_size)%Z ->
  exists data, _read_dialogue_once read_memory target end_markers max_size chunk_size = Ok data
               /\ (Z.of_nat (length data) < max_size + chunk_size)%Z.
Proof.
  intros Hc Hm Hread. unfold _read_dialogue_once.
  rewrite range0_positive by done. res_simpl. eexists. split; [done|].
  pose proof (read_chunks_length read_memory target end_markers chunk_size
                ((fun k => (Z.of_nat k * chunk_size)%Z) <$> seq 0 (turns max_size chunk_size))
                [] Hread) as Hlen.
  rewrite length_fmap, length_seq in Hlen. cbn [length] in Hlen.
  unfold turns in Hlen. rewrite Z2Nat.id in Hlen by (apply Z.div_pos; lia).
  pose proof (Z.mul_div_le (max_size + chunk_size - 1) chunk_size Hc) as Hq.
  unfold turns. rewrite Z.mul_comm in Hq. lia.
Qed.

Lemma read_dialogue_once_bound_witness :
  exists data,
    _read_dialogue_once (fun _ size => replicate (Z.to_nat size) 0x41) 0 [[0x7F; 0x00]] 10 4
    = Ok data
    /\ (Z.of_nat (length data) < 10 + 4)%Z.
Proof.
  apply read_dialogue_once_bound; [lia|lia|].
  intros a. rewrite length_replicate. lia.
Defined.

(** ** The clean-up of a generated text *)

Lemma startswith_app p s : startswith p (p ++ s) = true.
Proof. induction p as [|c p IH]; [done|]. cbn. by rewrite N.eqb_refl, IH. Qed.

Lemma contains_app_r needle hay : contains needle (hay ++ needle) = true.
Proof.
  induction hay as [|c hay IH].
  - cbn [app]. pose proof (startswith_app needle []) as H. rewrite app_nil_r in H.
    destruct needle; cbn [contains]; by rewrite H.
  - cbn [app contains]. rewrite IH. by rewrite orb_true_r.
Qed.

Lemma strip_nil : strip [] = [].
Proof. done. Qed.

(** X11. Whatever the generator answered, [_postprocess] returns a text
    that is not empty, and if that text holds a Press A tag or a line feed
    it also holds a Clear Text tag. An empty answer gives the ellipsis
    followed by Press A and Clear Text. *)
Theorem postprocess_postconditions (text : str) :
  let result := Prompt._postprocess text in
  result <> []
  /\ (contains (u "<Press A>") result = true \/ contains [10] result = true ->
      contains (u "<Clear Text>") result = true)
  /\ Prompt._postprocess [] = Prompt.ELLIPSIS :: u "<Press A><Clear Text>".
Proof.
  cbv zeta. split; [|split; [|done]].
  - unfold Prompt._postprocess. destruct text as [|c text]; [done|].
    cbv zeta.
    set (t := Prompt._trim_lines _).
    assert (match strip t with [] => [Prompt.ELLIPSIS] | _ => t end <> []) as Hne.
    { destruct (strip t) eqn:E; [done|]. intros Ht. by rewrite Ht in E. }
    destruct (_ && _); [|done]. intros H. by apply app_eq_nil in H as [H _].
  - unfold Prompt._postprocess. destruct text as [|c text]; [by intros _; vm_compute|].
    cbv zeta.
    set (t := match strip _ with [] => [Prompt.ELLIPSIS] | _ => _ end).
    destruct (contains (u "<Clear Text>") t) eqn:Hct.
    + rewrite andb_false_r. by intros _.
    + rewrite andb_true_r.
      destruct (contains (u "<Press A>") t || contains [10] t) eqn:Hp.
      * intros _. apply contains_app_r.
      * apply orb_false_elim in Hp as [-> ->]. by intros [|].
Qed.

Lemma postprocess_postconditions_witness :
  contains (u "<Clear Text>") (Prompt._postprocess (u "  Hi there!<Press A>Bye  ")) = true.
Proof.
  apply (postprocess_postconditions (u "  Hi there!<Press A>Bye  ")). left. by vm_compute.
Defined.

(** ** [_trim_lines] keeps the words *)

Import Prompt.

Lemma split_ws_go_sep cur s1 c s2 :
  isspace c = true ->
  split_ws_go cur (s1 ++ c :: s2) = split_ws_go cur s1 ++ split_ws_go [] s2.
Proof.
  intros Hc. revert cur. induction s1 as [|x s1 IH]; intros cur.
  - cbn. rewrite Hc. by destruct cur.
  - cbn. destruct (isspace x); [|apply IH]. rewrite IH. by destruct cur.
Qed.

Lemma split_ws_go_end cur s c :
  isspace c = true -> split_ws_go cur (s ++ [c]) = split_ws_go cur s.
Proof. intros Hc. rewrite split_ws_go_sep by done. cbn. by rewrite app_nil_r. Qed.

Lemma split_ws_lstrip s : split_ws (lstrip s) = split_ws s.
Proof.
  unfold split_ws. induction s as [|c s IH]; [done|].
  cbn [lstrip]. destruct (isspace c) eqn:Hc; [|done].
  cbn [split_ws_go]. by rewrite Hc.
Qed.

Lemma split_ws_trailing s tail :
  Forall (fun c => isspace c = true) tail -> split_ws (s ++ tail) = split_ws s.
Proof.
  intros Ht. revert s. induction Ht as [|c tail Hc _ IH]; intros s.
  - by rewrite app_nil_r.
  - change (s ++ c :: tail) with (s ++ [c] ++ tail). rewrite app_assoc, IH.
    by apply split_ws_go_end.
Qed.

Lemma lstrip_split s :
  exists ws, s = ws ++ lstrip s /\ Forall (fun c => isspace c = true) ws.
Proof.
  induction s as [|c s (ws & Hs & Hws)]; [by exists []|].
  cbn. destruct (isspace c) eqn:Hc.
  - exists (c :: ws). split; [by rewrite Hs at 1|by constructor].
  - by exists [].
Qed.

Lemma split_ws_rstrip s : split_ws (rstrip s) = split_ws s.
Proof.
  unfold rstrip. destruct (lstrip_split (reverse s)) as (ws & Hs & Hws).
  transitivity (split_ws (reverse (ws ++ lstrip (reverse s)))).
  - rewrite reverse_app, split_ws_trailing; [done|]. by apply Forall_reverse.
  - by rewrite <- Hs, reverse_involutive.
Qed.

Lemma split_ws_strip s : split_ws (strip s) = split_ws s.
Proof. unfold strip. by rewrite split_ws_rstrip, split_ws_lstrip. Qed.

(** A word of [s.split()]: not empty, without whitespace. *)
Lemma split_ws_go_words cur s :
  Forall (fun c => isspace c = false) cur ->
  Forall (fun w => w <> [] /\ Forall (fun c => isspace c = false) w) (split_ws_go cur s).
Proof.
  revert cur. induction s as [|c s IH]; intros cur Hcur.
  - cbn. destruct cur as [|x cur]; [done|]. constructor; [|done].
    split; [|by apply Forall_reverse]. intros H%(f_equal length).
    rewrite length_reverse in H. done.
  - cbn. destruct (isspace c) eqn:Hc.
    + destruct cur as [|x cur]; [by apply IH|]. constructor; [|by apply IH].
      split; [|by apply Forall_reverse]. intros H%(f_equal length).
      rewrite length_reverse in H. done.
    + apply IH. by constructor.
Qed.

Lemma split_ws_go_word cur w :
  Forall (fun c => isspace c = false) w ->
  split_ws_go cur w = match reverse cur ++ w with [] => [] | x => [x] end.
Proof.
  intros Hw. revert cur. induction Hw as [|c w Hc _ IH]; intros cur.
  - cbn. rewrite app_nil_r. destruct cur as [|x cur]; [done|].
    destruct (reverse (x :: cur)) eqn:E; [|done].
    apply (f_equal length) in E. by rewrite length_reverse in E.
  - cbn. rewrite Hc, IH. by rewrite reverse_cons, <- app_assoc.
Qed.

Lemma split_ws_word w :
  w <> [] -> Forall (fun c => isspace c = false) w -> split_ws w = [w].
Proof. intros Hne Hw. unfold split_ws. rewrite split_ws_go_word by done. by destruct w. Qed.

Lemma split_ws_join sep l :
  isspace sep = true -> split_ws (join [sep] l) = l ≫= split_ws.
Proof.
  intros Hsep. induction l as [|x l IH]; [done|].
  destruct l as [|y l]; [cbn; by rewrite app_nil_r|].
  change (join [sep] (x :: y :: l)) with (x ++ sep :: join [sep] (y :: l)).
  unfold split_ws at 1. rewrite split_ws_go_sep by done.
  fold (split_ws x). fold (split_ws (join [sep] (y :: l))). by rewrite IH.
Qed.

Lemma is_linebreak_isspace c : is_linebreak c = true -> isspace c = true.
Proof.
  unfold is_linebreak. intros H.
  repeat (apply orb_prop in H as [H|H]); apply N.eqb_eq in H; by subst c.
Qed.

Lemma split_ws_skip c s : isspace c = true -> split_ws (c :: s) = split_ws s.
Proof. intros Hc. unfold split_ws. cbn. by rewrite Hc. Qed.

Lemma splitlines_go_words n cur s :
  (length s <= n)%nat ->
  splitlines_go cur s ≫= split_ws = split_ws (reverse cur ++ s).
Proof.
  revert cur s. induction n as [|n IH]; intros cur s Hn.
  - destruct s; [|cbn in Hn; lia]. cbn. rewrite app_nil_r.
    destruct cur as [|x cur]; [done|]. cbn. by rewrite app_nil_r.
  - destruct s as [|c s].
    { cbn. rewrite app_nil_r. destruct cur as [|x cur]; [done|]. cbn. by rewrite app_nil_r. }
    cbn [length] in Hn. cbn [splitlines_go].
    destruct (N.eqb_spec c 13) as [->|Hcr].
    + unfold split_ws at 2. rewrite split_ws_go_sep by done. fold (split_ws (reverse cur)).
      destruct s as [|d s]; [cbn; by rewrite app_nil_r|].
      destruct (N.eqb_spec d 10) as [->|Hd].
      * cbn [mbind list_bind mbind]. rewrite (IH [] s) by (cbn in Hn; lia).
        cbn [reverse rev_append app]. change (reverse []) with (@nil N). cbn [app].
        fold (split_ws (10 :: s)). by rewrite (split_ws_skip 10).
      * assert (match d with 10 => reverse cur :: splitlines_go [] s
                | _ => reverse cur :: splitlines_go [] (d :: s) end
                = reverse cur :: splitlines_go [] (d :: s)) as ->.
        { destruct d as [|p]; [done|]. do 4 (destruct p as [p|p|]; try done). }
        cbn [mbind list_bind]. rewrite (IH [] (d :: s)) by (cbn in *; lia). done.
    + destruct (is_linebreak c) eqn:Hlb.
      * cbn [mbind list_bind]. rewrite (IH [] s) by lia.
        unfold split_ws at 3. rewrite split_ws_go_sep by (by apply is_linebreak_isspace).
        done.
      * rewrite (IH (c :: cur) s) by lia. by rewrite reverse_cons, <- app_assoc.
Qed.

Lemma splitlines_words s : splitlines s ≫= split_ws = split_ws s.
Proof. unfold splitlines. by rewrite (splitlines_go_words (length s)). Qed.

(** The words held by the pair (buf, parts) of the soft wrap. *)
Lemma wrap_word_words buf parts word :
  word <> [] -> Forall (fun c => isspace c = false) word ->
  let '(buf', parts') := wrap_word (buf, parts) word in
  (parts' ≫= split_ws) ++ split_ws buf' = (parts ≫= split_ws) ++ split_ws buf ++ [word].
Proof.
  intros Hne Hw. unfold wrap_word.
  destruct (30 <? _)%nat.
  - rewrite (split_ws_word word) by done. destruct buf as [|x buf]; [done|].
    rewrite bind_app. cbn [mbind list_bind]. by rewrite app_nil_r, <- app_assoc.
  - destruct buf as [|x buf]; [by rewrite (split_ws_word word)|].
    f_equal. change ((x :: buf) ++ u " " ++ word) with ((x :: buf) ++ 32 :: word).
    unfold split_ws at 1. rewrite split_ws_go_sep by done.
    fold (split_ws word). by rewrite (split_ws_word word).
Qed.

Lemma foldl_wrap_word_words ws buf parts :
  Forall (fun w => w <> [] /\ Forall (fun c => isspace c = false) w) ws ->
  let '(buf', parts') := foldl wrap_word (buf, parts) ws in
  (parts' ≫= split_ws) ++ split_ws buf' = (parts ≫= split_ws) ++ split_ws buf ++ ws.
Proof.
  intros Hws. revert buf parts. induction Hws as [|w ws [Hne Hw] _ IH]; intros buf parts.
  - cbn. by rewrite app_nil_r.
  - cbn [foldl]. pose proof (wrap_word_words buf parts w Hne Hw) as H1.
    destruct (wrap_word (buf, parts) w) as [buf1 parts1].
    specialize (IH buf1 parts1). destruct (foldl wrap_word (buf1, parts1) ws) as [buf2 parts2].
    rewrite IH, app_assoc, H1. by rewrite <- !app_assoc.
Qed.

Lemma trim_line_words line : trim_line line ≫= split_ws = split_ws line.
Proof.
  unfold trim_line. cbv zeta. destruct (length (strip line) <=? 90)%nat.
  - cbn. by rewrite app_nil_r, split_ws_strip.
  - pose proof (foldl_wrap_word_words (split_ws (strip line)) [] []
                  (split_ws_go_words [] _ (Forall_nil_2 _))) as H.
    destruct (foldl wrap_word ([], []) (split_ws (strip line))) as [buf parts].
    cbn in H. rewrite split_ws_strip in H. rewrite <- H.
    destruct buf as [|x buf]; [by rewrite app_nil_r|].
    rewrite bind_app. cbn. by rewrite app_nil_r.
Qed.

Lemma trim_lines_words s : split_ws (_trim_lines s) = split_ws s.
Proof.
  unfold _trim_lines. rewrite split_ws_join by done.
  rewrite <- (splitlines_words s).
  induction (splitlines s) as [|l ls IH]; [done|].
  cbn [mbind list_bind]. rewrite bind_app, IH. by rewrite trim_line_words.
Qed.

(** ** [_trim_lines] and the width of the lines *)

Lemma wrap_word_widths (Q : str -> Prop) buf parts word :
  (forall p, (length p <= 30)%nat -> Q p) -> Q word ->
  (buf = [] \/ Q buf) -> Forall Q parts ->
  let '(buf', parts') := wrap_word (buf, parts) word in
  (buf' = [] \/ Q buf') /\ Forall Q parts'.
Proof.
  intros Hshort Hw Hbuf Hparts. unfold wrap_word.
  destruct (Nat.ltb_spec 30 (length buf + match buf with [] => 0 | _ => 1 end + length word))
    as [Hwrap|Hfit].
  - split; [by right|]. destruct buf as [|x buf]; [done|].
    apply Forall_app. split; [done|]. constructor; [|done]. by destruct Hbuf.
  - split; [|done]. right. destruct buf as [|x buf]; [done|].
    apply Hshort. rewrite !length_app. cbn [length u] in *. cbn. lia.
Qed.

Lemma foldl_wrap_word_widths (Q : str -> Prop) ws buf parts :
  (forall p, (length p <= 30)%nat -> Q p) -> Forall Q ws ->
  (buf = [] \/ Q buf) -> Forall Q parts ->
  let '(buf', parts') := foldl wrap_word (buf, parts) ws in
  (buf' = [] \/ Q buf') /\ Forall Q parts'.
Proof.
  intros Hshort Hws. revert buf parts. induction Hws as [|w ws Hw _ IH]; intros buf parts Hb Hp.
  - done.
  - cbn [foldl]. pose proof (wrap_word_widths Q buf parts w Hshort Hw Hb Hp) as H1.
    destruct (wrap_word (buf, parts) w) as [buf1 parts1]. destruct H1 as [Hb1 Hp1].
    by apply IH.
Qed.

(** The pieces of one line: the stripped line when it has at most 90
    characters, otherwise pieces of at most 30 characters or single words. *)
Lemma trim_line_widths line :
  Forall (fun p => (length p <= 90)%nat \/ p ∈ split_ws line) (trim_line line).
Proof.
  unfold trim_line. cbv zeta.
  destruct (Nat.leb_spec (length (strip line)) 90) as [Hshort|Hlong].
  - constructor; [by left|done].
  - pose proof (foldl_wrap_word_widths
                  (fun p => (length p <= 90)%nat \/ p ∈ split_ws line)
                  (split_ws (strip line)) [] []) as H.
    destruct (foldl wrap_word ([], []) (split_ws (strip line))) as [buf parts].
    destruct H as [Hb Hp].
    + intros p Hp. left. lia.
    + apply Forall_forall. intros w Hw. right. by rewrite <- split_ws_strip.
    + by left.
    + done.
    + destruct buf as [|x buf]; [done|]. apply Forall_app. split; [done|].
      constructor; [|done]. by destruct Hb.
Qed.

(** No piece holds a line feed. *)
Lemma splitlines_go_no_break cur s :
  Forall (fun c => is_linebreak c = false) cur ->
  Forall (Forall (fun c => is_linebreak c = false)) (splitlines_go cur s).
Proof.
  revert cur. induction s as [s IH] using (induction_ltof1 _ (@length _)); intros cur Hcur.
  unfold ltof in *. destruct s as [|c s]; cbn [splitlines_go].
  - destruct cur; [done|]. constructor; [by apply Forall_reverse|done].
  - destruct (N.eqb_spec c 13) as [->|Hcr].
    + destruct s as [|d s].
      * constructor; [by apply Forall_reverse|done].
      * assert (Forall (Forall (fun c => is_linebreak c = false))
                  (reverse cur :: splitlines_go [] s)) as H1.
        { constructor; [by apply Forall_reverse|]. apply IH; [cbn; lia|done]. }
        assert (Forall (Forall (fun c => is_linebreak c = false))
                  (reverse cur :: splitlines_go [] (d :: s))) as H2.
        { constructor; [by apply Forall_reverse|]. apply IH; [cbn; lia|done]. }
        destruct d as [|p]; [done|]. do 4 (destruct p as [p|p|]; try done).
    + destruct (is_linebreak c) eqn:Hlb.
      * constructor; [by apply Forall_reverse|]. apply IH; [cbn; lia|done].
      * apply IH; [cbn; lia|]. by constructor.
Qed.

Lemma lstrip_Forall (P : N -> Prop) s : Forall P s -> Forall P (lstrip s).
Proof.
  induction 1 as [|c s Hc Hs IH]; [done|]. cbn. destruct (isspace c); [done|by constructor].
Qed.

Lemma strip_Forall (P : N -> Prop) s : Forall P s -> Forall P (strip s).
Proof.
  intros H. unfold strip, rstrip. apply Forall_reverse, lstrip_Forall, Forall_reverse.
  by apply lstrip_Forall.
Qed.

Lemma wrap_word_no_feed buf parts word :
  Forall (fun c => c <> 10) word -> Forall (fun c => c <> 10) buf ->
  Forall (Forall (fun c => c <> 10)) parts ->
  let '(buf', parts') := wrap_word (buf, parts) word in
  Forall (fun c => c <> 10) buf' /\ Forall (Forall (fun c => c <> 10)) parts'.
Proof.
  intros Hw Hb Hp. unfold wrap_word. destruct (30 <? _)%nat.
  - split; [done|]. destruct buf; [done|]. apply Forall_app. split; [done|by constructor].
  - split; [|done]. destruct buf as [|x buf]; [done|].
    apply Forall_app. split; [done|]. apply Forall_app. split; [|done].
    by repeat constructor.
Qed.

Lemma foldl_wrap_word_no_feed ws buf parts :
  Forall (Forall (fun c => c <> 10)) ws -> Forall (fun c => c <> 10) buf ->
  Forall (Forall (fun c => c <> 10)) parts ->
  let '(buf', parts') := foldl wrap_word (buf, parts) ws in
  Forall (fun c => c <> 10) buf' /\ Forall (Forall (fun c => c <> 10)) parts'.
Proof.
  intros Hws. revert buf parts. induction Hws as [|w ws Hw _ IH]; intros buf parts Hb Hp.
  - done.
  - cbn [foldl]. pose proof (wrap_word_no_feed buf parts w Hw Hb Hp) as H1.
    destruct (wrap_word (buf, parts) w) as [buf1 parts1]. destruct H1 as [Hb1 Hp1].
    by apply IH.
Qed.

Lemma trim_line_no_feed line :
  Forall (fun c => is_linebreak c = false) line ->
  Forall (Forall (fun c => c <> 10)) (trim_line line).
Proof.
  intros Hline.
  assert (Forall (fun c => c <> 10) line) as Hl.
  { eapply Forall_impl; [done|]. by intros c Hc ->. }
  unfold trim_line. cbv zeta. destruct (length (strip line) <=? 90)%nat.
  - constructor; [by apply strip_Forall|done].
  - pose proof (foldl_wrap_word_no_feed (split_ws (strip line)) [] []) as H.
    destruct (foldl wrap_word ([], []) (split_ws (strip line))) as [buf parts].
    destruct H as [Hb Hp]; [|done|done|].
    + pose proof (split_ws_go_words [] (strip line) (Forall_nil_2 _)) as Hw.
      eapply Forall_impl; [exact Hw|]. intros w [_ Hws].
      eapply Forall_impl; [exact Hws|]. by intros c Hc ->.
    + destruct buf as [|x buf]; [done|]. apply Forall_app. split; [done|by constructor].
Qed.

Lemma split_join_feed l :
  l <> [] -> Forall (Forall (fun c => c <> 10)) l -> Py.split 10 (join [10] l) = l.
Proof.
  intros Hne Hl. induction Hl as [|x l Hx Hl IH]; [done|].
  destruct l as [|y l]; [by apply split_no_sep|].
  change (join [10] (x :: y :: l)) with (x ++ 10 :: join [10] (y :: l)).
  by rewrite split_app_sep_at, IH.
Qed.

(** X12. [_trim_lines] keeps the words of a text: split at whitespace, the
    result gives the same words in the same order as the text; only the
    whitespace between the words changes. *)
Theorem trim_lines_keeps_words (s : str) :
  Prompt.split_ws (Prompt._trim_lines s) = Prompt.split_ws s.
Proof. apply trim_lines_words. Qed.

(** X13. Every line of the text [_trim_lines] returns has at most 90
    characters, unless it is a single word of the text: a line longer than
    90 characters is cut at spaces into pieces of at most 30 characters,
    and no word is cut. *)
Theorem trim_lines_widths (s : str) :
  Forall (fun line => (length line <= 90)%nat \/ line ∈ Prompt.split_ws s)
         (Py.split 10 (Prompt._trim_lines s)).
Proof.
  unfold _trim_lines.
  assert (Forall (fun p => ((length p <= 90)%nat \/ p ∈ split_ws s)
                           /\ Forall (fun c => c <> 10) p)
                 (splitlines s ≫= trim_line)) as H.
  { apply Forall_forall. intros p (line & Hp & Hline)%list_elem_of_bind.
    pose proof (splitlines_go_no_break [] s (Forall_nil_2 _)) as Hnb.
    rewrite Forall_forall in Hnb. specialize (Hnb line Hline).
    pose proof (trim_line_widths line) as Hw. rewrite Forall_forall in Hw.
    pose proof (trim_line_no_feed line Hnb) as Hf. rewrite Forall_forall in Hf.
    split; [|by apply Hf]. destruct (Hw p Hp) as [?|Hin]; [by left|right].
    rewrite <- splitlines_words. apply list_elem_of_bind. by exists line. }
  destruct (splitlines s ≫= trim_line) as [|p l] eqn:E.
  - cbn. constructor; [left; cbn; lia|done].
  - rewrite split_join_feed; [|done|].
    + eapply Forall_impl; [exact H|]. by intros x [? _].
    + eapply Forall_impl; [exact H|]. by intros x [_ ?].
Qed.

(** ** The two decoders *)

Lemma AC_ENCODING_keys_NoDup : NoDup ReadDialogue.AC_ENCODING_items.*1.
Proof. apply (bool_decide_unpack _). by vm_compute. Qed.

Lemma shared_byte_spec b :
  shared_byte b = true ->
  exists g, ReadDialogue.AC_ENCODING !! b = Some g /\ CHARACTER_MAP !! b = Some g
            /\ plain_byte b /\ length g = 1%nat.
Proof.
  unfold shared_byte.
  destruct (ReadDialogue.AC_ENCODING !! b) as [g|] eqn:E1; [|done].
  destruct (CHARACTER_MAP !! b) as [g'|] eqn:E2; [|done].
  intros H. apply andb_prop in H as [Hg H0]. apply bool_decide_eq_true_1 in Hg as <-.
  apply negb_true_iff in H0. exists g. split; [done|]. split; [done|].
  split; [split; [by apply N.eqb_neq|]|].
  - intros ->. by rewrite CHARACTER_MAP_no_prefix in E2.
  - pose proof (dict_forall (fun k v => (k =? 0) || bool_decide (length v = 1%nat)) _ _ _
                  AC_ENCODING_keys_NoDup eq_refl E1) as H.
    cbv beta in H. rewrite H0 in H. by apply bool_decide_eq_true_1 in H.
Qed.

Lemma decode_dialogue_shared run tail :
  Forall (fun b => shared_byte b = true) run ->
  ReadDialogue.decode_dialogue (run ++ tail)
  = concat (glyph_text <$> run) ++ ReadDialogue.decode_dialogue tail
  /\ length (concat (glyph_text <$> run)) = length run.
Proof.
  induction 1 as [|b run Hb _ [IH IHl]]; [done|].
  apply shared_byte_spec in Hb as (g & E1 & E2 & [H0 _] & Hg).
  cbn [app ReadDialogue.decode_dialogue fmap list_fmap concat length].
  assert (glyph_text b = g) as -> by (unfold glyph_text; by rewrite E2).
  apply N.eqb_neq in H0. rewrite H0, E1, IH.
  cbn [default from_option id]. rewrite <- app_assoc, length_app, IHl, Hg. done.
Qed.

(** X14. On a buffer of bytes that the basic table of [read_dialogue.py]
    and the glyph table decode alike, ended by the terminator or by the end
    of the buffer, [decode_dialogue] and [parse_ac_text] return the same
    text: one character for each byte before the terminator, and nothing of
    what follows it. *)
Theorem decoders_agree (run rest : bytes) :
  Forall (fun b => shared_byte b = true) run ->
  parse_ac_text run = Ok (ReadDialogue.decode_dialogue run)
  /\ parse_ac_text (run ++ 0x00 :: rest) = Ok (ReadDialogue.decode_dialogue (run ++ 0x00 :: rest))
  /\ length (ReadDialogue.decode_dialogue (run ++ 0x00 :: rest)) = length run.
Proof.
  intros Hrun.
  assert (Forall plain_byte run) as Hplain.
  { eapply Forall_impl; [done|]. by intros b (g & _ & _ & ? & _)%shared_byte_spec. }
  split; [|split].
  - destruct (decode_dialogue_shared run [] Hrun) as [Hd _]. rewrite !app_nil_r in Hd.
    rewrite Hd. pose proof (parse_ac_text_plain_then run [] (glyph_text <$> run) Hplain) as Hp.
    rewrite app_nil_r in Hp. apply Hp. cbn [length parse_loop].
    by rewrite Nat.ltb_irrefl.
  - destruct (decode_dialogue_shared run (0 :: rest) Hrun) as [-> _].
    cbn [ReadDialogue.decode_dialogue]. rewrite app_nil_r.
    apply (parse_ac_text_plain_then run (0 :: rest) (glyph_text <$> run) Hplain).
    cbn [length parse_loop].
    destruct (Nat.ltb_spec (length run) (length (run ++ 0 :: rest))) as [_|Hge].
    2:{ rewrite length_app in Hge. cbn in Hge. lia. }
    unfold parse_step. rewrite (index_Some _ (length run) 0) by (by apply list_lookup_middle).
    done.
  - destruct (decode_dialogue_shared run (0 :: rest) Hrun) as [-> Hl].
    cbn [ReadDialogue.decode_dialogue]. by rewrite app_nil_r.
Qed.

Lemma decoders_agree_witness :
  parse_ac_text [0x48; 0x65; 0x6C; 0x6C; 0x6F; 0x21; 0x00; 0x23; 0x41]
  = Ok (ReadDialogue.decode_dialogue [0x48; 0x65; 0x6C; 0x6C; 0x6F; 0x21; 0x00; 0x23; 0x41])
  /\ ReadDialogue.decode_dialogue [0x48; 0x65; 0x6C; 0x6C; 0x6F; 0x21; 0x00; 0x23; 0x41]
     = u "Hello!".
Proof.
  split; [|by vm_compute].
  apply (decoders_agree [0x48; 0x65; 0x6C; 0x6C; 0x6F; 0x21] [0x23; 0x41]).
  repeat (constructor; [by vm_compute|]). constructor.
Defined.

(** X15. A space at the start of a text is not encoded: words joined by
    single spaces and preceded by a space are encoded to the same bytes as
    without that space, so the decoded text has lost it. *)
Theorem leading_space_dropped (ws : list str) :
  ws <> [] -> Forall is_word ws ->
  encode_ac_text (32 :: join_words ws) = Ok (wrap_words ws ++ [0x00])
  /\ encode_ac_text (32 :: join_words ws) = encode_ac_text (join_words ws).
Proof.
  intros Hne Hws.
  assert (encode_ac_text (32 :: join_words ws) = Ok (wrap_words ws ++ [0x00])) as H;
    [|by rewrite H, encode_ac_text_words].
  rewrite encode_ac_text_plain; [|done|].
  2:{ constructor; [|by apply join_words_plain]. split; [|done]. by vm_compute; eexists. }
  do 2 f_equal. unfold encode_literal.
  change (32 :: join_words ws) with ([] ++ 32 :: join_words ws).
  rewrite (split_app_sep [] (join_words ws)) by done.
  rewrite split_join_words_all by done.
  destruct Hws as [|w ws [Hw0 Hw] Hws]; [done|].
  cbn [imap foldl fst snd wrap_words compose].
  rewrite (encode_word_word [] 0 0 []) by done. cbv zeta. cbn [Nat.ltb Nat.leb andb].
  cbn [length replicate app glyphs fmap list_fmap Nat.add].
  rewrite (encode_word_word [] 0 1 w) by done. cbv zeta. cbn [Nat.ltb Nat.leb andb].
  cbn [replicate app Nat.add].
  rewrite (imap_ext _ (fun i w => (S (1 + i), w))) by done.
  rewrite encode_words_rest; [done| |done]. destruct w; [done|cbn; lia].
Qed.

Lemma leading_space_dropped_witness :
  encode_ac_text (u " Hello there") = Ok (glyphs (u "Hello there") ++ [0x00])
  /\ parse_ac_text (glyphs (u "Hello there") ++ [0x00]) = Ok (u "Hello there").
Proof.
  split; [|by vm_compute].
  assert (forall w : str,
            forallb (fun c => bool_decide (has_glyph c) && negb (c =? 32)
                              && negb (c =? 10) && negb (c =? 60)) w = true ->
            Forall word_char w) as Hwc.
  { intros w Hw. apply Forall_forall. intros c Hc. rewrite forallb_forall in Hw.
    apply list_elem_of_In, Hw in Hc.
    repeat (apply andb_prop in Hc as [Hc ?]).
    repeat split; [by apply bool_decide_eq_true_1 in Hc|..];
      apply N.eqb_neq; by apply negb_true_iff. }
  apply (leading_space_dropped [u "Hello"; u "there"]); [done|].
  constructor; [split; [done|apply Hwc; by vm_compute]|].
  constructor; [split; [done|apply Hwc; by vm_compute]|constructor].
Defined.

(** X16. A poll that reads a text holding the End Conversation tag, new
    for its address or with every tick printed, resets the conversation
    state of the address to its defaults and does nothing else: nothing is
    written, no generator is called, the gate and the in-flight flags are
    as before, whether a suppression window is running or not. *)
Theorem end_conversation_poll (print_all : bool) (SUPPRESS_SECONDS : Z) (inp : PollInput)
    (addr : N) (ws : WatchState) (text : str) (last : option str)
    (state : ConversationState) :
  raw inp <> [] -> parse_ac_text (raw inp) = Ok text ->
  contains END_CONVERSATION text = true ->
  last_text_by_addr ws !! addr = Some last ->
  conversation_state ws !! addr = Some state ->
  print_all = true \/ Some text <> last ->
  exists ws', poll print_all SUPPRESS_SECONDS inp addr ws = Ok (ws', [])
              /\ conversation_state ws' !! addr = Some reset
              /\ generation_in_progress ws' = generation_in_progress ws
              /\ lock_held ws' = lock_held ws.
Proof.
  intros Hraw Htext Hend Hlast Hstate Hnew.
  assert (print_all || bool_decide (Some text <> last) = true) as Hcond.
  { destruct Hnew as [->|Hne]; [done|]. rewrite (bool_decide_eq_true_2 _ Hne).
    by rewrite orb_true_r. }
  assert (observe_text state text = reset) as Hobs.
  { unfold observe_text. by rewrite Hend. }
  assert (exists ws', poll_begin print_all inp addr ws = Ok (ws', [], Finished)
                      /\ conversation_state ws' !! addr = Some reset
                      /\ generation_in_progress ws' = generation_in_progress ws
                      /\ lock_held ws' = lock_held ws) as (ws' & Hp & Hs & Hg & Hl).
  { unfold poll_begin. destruct (raw inp) as [|b r] eqn:Er; [done|].
    rewrite Htext, (getitem_Some _ _ _ Hlast). res_simpl. rewrite Hcond.
    rewrite (getitem_Some _ _ _ Hstate). res_simpl. rewrite Hobs.
    destruct (_ <? _)%Z.
    { rewrite Hend. eexists. split; [done|]. split; [|done].
      cbn [conversation_state set_state]. apply lookup_insert_eq. }
    change (ready_for_chatty reset) with false. change (menu_injected reset) with false.
    change (menu_skip_logged reset) with false. cbn [andb negb].
    assert (forall st, chatty_requested st = false ->
              exists ws', generation_gate inp addr text st ws [] = Ok (ws', [], Finished)
                          /\ conversation_state ws' !! addr = Some reset
                          /\ generation_in_progress ws' = generation_in_progress ws
                          /\ lock_held ws' = lock_held ws) as Hgate.
    { intros st Hst. unfold generation_gate. rewrite Hst. cbn [andb].
      eexists. split; [done|]. split; [|done].
      unfold not_generated. rewrite Hend. cbn [conversation_state set_state].
      apply lookup_insert_eq. }
    rewrite andb_true_r. destruct (contains OPEN_CHOICE_MENU text); by apply Hgate. }
  exists ws'. split; [|done]. by apply poll_Finished.
Qed.

Lemma end_conversation_poll_witness :
  exists ws',
    poll false 25 (reads (u "Bye!<End Conversation>") 5 []) 1
         (set_suppress_until 1 30%Z (init [1; 2]))
    = Ok (ws', [])
    /\ conversation_state ws' !! 1 = Some reset
    /\ generation_in_progress ws' = generation_in_progress (set_suppress_until 1 30%Z (init [1; 2]))
    /\ lock_held ws' = lock_held (set_suppress_until 1 30%Z (init [1; 2])).
Proof.
  apply (end_conversation_poll false 25 _ 1 _ (u "Bye!<End Conversation>") None reset).
  - by vm_compute.
  - by vm_compute.
  - by vm_compute.
  - by vm_compute.
  - by vm_compute.
  - right. done.
Defined.

(** ** [_strip_forbidden_codes] on a text of items *)

Lemma match_angle_block pos body rest :
  body <> [] -> (length body <= 40)%nat -> Forall (fun c => c <> 62) body ->
  match_at angle_block_re pos (60 :: body ++ 62 :: rest)
  = Some (S (length body + 1), [(0%nat, 60 :: body ++ [62])]).
Proof.
  intros Hne Hlen Hb. unfold match_at, angle_block_re. cbn -[rep].
  erewrite (rep_greedy_run_hi _ 1 (Some 40%nat) (S pos) body 62 rest).
  - done.
  - eapply Forall_impl; [done|]. intros c Hc. unfold not_char. cbn.
    by destruct (N.eqb_spec c 62).
  - done.
  - destruct body; [done|cbn; lia].
  - by intros h [= <-].
  - cbn. replace (S (S (pos + length body)) - pos)%nat with (S (length body + 1)) by lia.
    cbn. change (62 :: rest) with ([62] ++ rest). rewrite app_assoc.
    rewrite take_app_length' by (rewrite length_app; cbn; lia). done.
Qed.

(** No tag of the table is longer than the 42 characters the pattern
    allows. *)
Lemma tag_text_length op args :
  well_formed (Tag op args) = true -> (length (tag_text op args) <= 42)%nat.
Proof.
  intros H.
  apply well_formed_tag_cases in H
    as [(-> & desc & Hin & Hc & H0)|[(v & -> & Hin & Hv)|(rgb & n & -> & -> & Hrgb & Hn)]].
  - plain_tag_cases Hin Hc H0; vm_compute; lia.
  - one_number_cases Hin Hv.
    all: lazymatch goal with |- context [tag_text ?op [?x]] => one_number_shape op x Hv end.
    all: rewrite length_app; cbn [length]; rewrite length_app, Hlen; cbn [length]; lia.
  - rewrite color_text.
    destruct (fmt_0X_spec 6 rgb) as (L6 & _ & _); [lia|done|].
    destruct (fmt_0X_spec 2 n) as (L2 & _ & _); [lia|done|].
    numerals. rewrite length_app. cbn [length]. rewrite length_app, L6. cbn [length].
    rewrite length_app. cbn [length]. rewrite length_app, L2. cbn [length]. lia.
Qed.

Lemma render_filter_cons (P : item -> bool) it items :
  render (filter (fun it => P it = true) (it :: items))
  = (if P it then item_text it else []) ++ render (filter (fun it => P it = true) items).
Proof.
  destruct (P it) eqn:E.
  - by rewrite filter_cons_True.
  - rewrite filter_cons_False; [done|]. by rewrite E.
Qed.

Lemma strip_forbidden_codes_go pos items :
  Forall (fun it => well_formed it = true) items ->
  sub_go angle_block_re repl None pos 0 (render items)
  = render (filter (fun it => safe_item it = true) items).
Proof.
  intros Hwf. revert pos.
  induction Hwf as [|[c|op args] items Hit _ IH]; intros pos; [done| |].
  - apply well_formed_lit in Hit as (_ & H60 & _).
    rewrite render_filter_cons, render_cons. cbn [item_text app safe_item].
    rewrite sub_go_nomatch by (apply (match_at_starts_with 60); [done|cbn; congruence]).
    by rewrite IH.
  - rewrite render_filter_cons, render_cons. cbn [item_text safe_item].
    pose proof (tag_text_length _ _ Hit) as Hlen.
    destruct (tag_text_is_tag _ _ Hit) as (body & Ht & Hne & Hbody).
    rewrite Ht in *. cbn [app]. rewrite <- app_assoc. cbn [app].
    assert (match_at angle_block_re pos (60 :: body ++ 62 :: render items)
            = Some (S (length body + 1), [(0%nat, 60 :: body ++ [62])])) as Hm.
    { apply match_angle_block; [done| |].
      - cbn [length] in Hlen. rewrite length_app in Hlen. cbn in Hlen. lia.
      - eapply Forall_impl; [done|]. by intros c (_ & ? & _). }
    rewrite (sub_go_match _ _ pos 60 _ _ _ (body ++ [62]) (render items) Hm).
    + rewrite IH. f_equal.
    + by rewrite <- app_assoc.
    + rewrite length_app. cbn. lia.
Qed.

(** X17. On a text of well-formed items, [_strip_forbidden_codes] keeps
    every visible character and keeps a tag exactly when its text starts
    with an entry of [CONTROL_SAFE] less the closing bracket (Press A,
    Clear Text and the three pauses); every other tag of the table is
    removed whole. *)
Theorem strip_forbidden_codes_items (items : list item) :
  Forall (fun it => well_formed it = true) items ->
  Prompt._strip_forbidden_codes (render items)
  = render (filter (fun it => safe_item it = true) items).
Proof. intros Hwf. unfold _strip_forbidden_codes, sub. by apply strip_forbidden_codes_go. Qed.

Lemma strip_forbidden_codes_items_witness :
  Prompt._strip_forbidden_codes
    (u "Hi<Pause [0A]><Pause [0B]>!<Open Choice Menu><Choice 1 Jump [0001]><Press A><Clear Text>")
  = u "Hi<Pause [0A]>!<Press A><Clear Text>".
Proof.
  apply (strip_forbidden_codes_items
           [Lit 72; Lit 105; Tag 0x03 [0x0A]; Tag 0x03 [0x0B]; Lit 33; Tag 0x0D [];
            Tag 0x0F [1]; Tag 0x04 []; Tag 0x02 []]).
  repeat (constructor; [by vm_compute|]). constructor.
Defined.

(** ** More on [ConversationState] *)

Lemma count_line_unlock v s :
  let s' := count_line v s in
  ((2 <= lines_seen s)%nat -> ready_for_chatty s = true) ->
  (ready_for_chatty s = true -> (1 <= lines_seen s)%nat) ->
  ((2 <= lines_seen s')%nat -> ready_for_chatty s' = true)
  /\ (ready_for_chatty s' = true -> (1 <= lines_seen s')%nat).
Proof.
  cbv zeta. intros H2 H1. rewrite count_line_lines_seen. split; [|lia].
  intros Hl. unfold count_line. cbn.
  destruct (lines_seen s) as [|n] eqn:E; [lia|]. done.
Qed.

Lemma observe_text_unlock s t :
  ((2 <= lines_seen s)%nat -> ready_for_chatty s = true) ->
  (ready_for_chatty s = true -> (1 <= lines_seen s)%nat) ->
  ((2 <= lines_seen (observe_text s t))%nat -> ready_for_chatty (observe_text s t) = true)
  /\ (ready_for_chatty (observe_text s t) = true -> (1 <= lines_seen (observe_text s t))%nat).
Proof.
  intros H2 H1. unfold observe_text.
  destruct (contains END_CONVERSATION t); [cbn; split; [lia|done]|].
  destruct (awaiting_choice_resolution s && negb (contains OPEN_CHOICE_MENU t)).
  { destruct (strip _) as [|n l]; [done|]. case_bool_decide; [|done].
    pose proof (count_line_unlock (n :: l)
                  (set_chatty_requested true
                     (set_menu_skip_logged false
                        (set_menu_injected false (set_awaiting_choice_resolution false s))))
                  H2 H1) as Hc.
    cbv zeta in Hc. exact Hc. }
  destruct (contains OPEN_CHOICE_MENU t).
  { destruct (negb (ready_for_chatty s) && (1 <=? lines_seen s)%nat) eqn:E; [|by split].
    apply andb_prop in E as [_ E]. apply Nat.leb_le in E. cbn. by split. }
  destruct (strip _) as [|n l]; [done|]. case_bool_decide; [|done].
  pose proof (count_line_unlock (n :: l) s H2 H1) as Hc. cbv zeta in Hc.
  unfold count_line in *. cbn in *. by destruct (lines_seen s) as [|[|k]].
Qed.

(** X18. In every state reached from the defaults by observing texts, the
    chatty option is unlocked once two lines have been counted, and it is
    never unlocked before a line has been counted: [ready_for_chatty]
    implies [lines_seen >= 1], and [lines_seen >= 2] implies
    [ready_for_chatty]. *)
Theorem chatty_unlock_invariant (texts : list str) :
  let s := foldl observe_text reset texts in
  ((2 <= lines_seen s)%nat -> ready_for_chatty s = true)
  /\ (ready_for_chatty s = true -> (1 <= lines_seen s)%nat).
Proof.
  cbv zeta.
  assert (forall s,
            ((2 <= lines_seen s)%nat -> ready_for_chatty s = true) ->
            (ready_for_chatty s = true -> (1 <= lines_seen s)%nat) ->
            ((2 <= lines_seen (foldl observe_text s texts))%nat ->
             ready_for_chatty (foldl observe_text s texts) = true)
            /\ (ready_for_chatty (foldl observe_text s texts) = true ->
                (1 <= lines_seen (foldl observe_text s texts))%nat)) as H.
  { induction texts as [|t texts IH]; intros s H2 H1; [done|].
    cbn [foldl]. destruct (observe_text_unlock s t H2 H1). by apply IH. }
  apply H; cbn; [lia|done].
Qed.

Lemma chatty_unlock_invariant_witness :
  (1 <= lines_seen (foldl observe_text reset
                      [u "Hello there!"; u "<Open Choice Menu>Yes<Choice 1 Jump [0001]>"]))%nat.
Proof.
  apply (chatty_unlock_invariant
           [u "Hello there!"; u "<Open Choice Menu>Yes<Choice 1 Jump [0001]>"]).
  by vm_compute.
Defined.

(** ** More on the codec *)

(** X19. Bytes that are neither the terminator nor the prefix byte are
    decoded one by one, each to its glyph or, when the table has none, to
    the bracketed placeholder with its two hexadecimal digits; no byte is
    skipped and nothing raises, whatever the bytes. *)
Theorem parse_plain_bytes (run : bytes) :
  Forall plain_byte run ->
  parse_ac_text run = Ok (concat (glyph_text <$> run))
  /\ Forall (fun b => glyph_text b <> []) run.
Proof.
  intros Hrun. split.
  - pose proof (parse_ac_text_plain_then run [] (glyph_text <$> run) Hrun) as Hp.
    rewrite app_nil_r in Hp. apply Hp. cbn [length parse_loop]. by rewrite Nat.ltb_irrefl.
  - apply Forall_forall. intros b _. unfold glyph_text.
    destruct (CHARACTER_MAP !! b) as [g|] eqn:E; cbn [default from_option id].
    + pose proof (dict_forall (fun k v => negb (bool_decide (v = []))) _ _ _
                    CHARACTER_MAP_keys_NoDup eq_refl E) as H.
      cbv beta in H. apply negb_true_iff in H. by apply bool_decide_eq_false_1 in H.
    + done.
Qed.

Lemma parse_plain_bytes_witness :
  parse_ac_text [0x48; 0x80; 0x69; 0xFF] = Ok (u "H[?80]i[?FF]").
Proof.
  apply (parse_plain_bytes [0x48; 0x80; 0x69; 0xFF]).
  repeat (constructor; [by split|]). constructor.
Defined.

Lemma no_tag_after_cleaning (s : str) :
  Forall (fun c => c <> 60) s ->
  Forall (fun c => c <> 60) (_sanitize_for_charset (_normalize_visible_text s)).
Proof.
  intros Hs. apply Forall_forall. intros c Hc ->.
  apply list_elem_of_filter in Hc as [_ Hc]. revert Hc.
  apply foldl_replace_absent.
  - unfold replacements. repeat (constructor; [by apply (bool_decide_unpack _); vm_compute|]).
    constructor.
  - right. intros Hin. rewrite Forall_forall in Hs. by apply (Hs 60).
Qed.

(** X20. A text without an opening angle bracket is always encoded: no
    exception is raised, whatever its characters. The characters without a
    glyph are left out, and the bytes end with the terminator. *)
Theorem encode_plain_never_raises (s : str) :
  Forall (fun c => c <> 60) s ->
  exists data, encode_ac_text s = Ok (data ++ [0x00]).
Proof.
  intros Hs. unfold encode_ac_text. cbv zeta.
  rewrite normalize_control_tags_plain by done.
  rewrite (split_absent 60) by (done || by apply no_tag_after_cleaning).
  pose proof (no_tag_after_cleaning s Hs) as Hc.
  destruct (_sanitize_for_charset (_normalize_visible_text s)) as [|c t] eqn:E.
  - by exists [].
  - cbn [foldl]. res_simpl. unfold encode_token.
    apply Forall_cons in Hc as [Hc _]. apply N.eqb_neq in Hc.
    change (startswith (u "<") (c :: t)) with ((c =? 60) && true). rewrite Hc.
    cbn [andb]. res_simpl. by eexists.
Qed.

Lemma encode_plain_never_raises_witness :
  exists data, encode_ac_text (u "caf" ++ [0xE9; 0x2019] ++ u "s [ok] > $5 " ++ [0x4E2D]) = Ok (data ++ [0x00]).
Proof.
  apply encode_plain_never_raises.
  apply (bool_decide_unpack _). by vm_compute.
Defined.

(** ** More on the watch loop *)

Lemma observe_text_request s t :
  chatty_requested (observe_text s t) = true ->
  contains END_CONVERSATION t = false
  /\ awaiting_choice_resolution (observe_text s t) = awaiting_choice_resolution s && contains OPEN_CHOICE_MENU t
  /\ (chatty_requested s = true
      \/ (awaiting_choice_resolution s = true /\ contains OPEN_CHOICE_MENU t = false
          /\ visible_text t <> [])).
Proof.
  unfold observe_text, visible_text.
  destruct (contains END_CONVERSATION t); [done|].
  destruct (awaiting_choice_resolution s) eqn:Ha;
    destruct (contains OPEN_CHOICE_MENU t) eqn:Hm; cbn [andb negb].
  - destruct (negb (ready_for_chatty s) && _); cbn; rewrite ?Ha; intros H; by repeat split; left.
  - destruct (strip (_strip_control_codes t)) as [|c v] eqn:Hv.
    + cbn. intros H. by repeat split; left.
    + intros _. split; [done|]. split; [|by right].
      destruct (bool_decide _); [|done]. unfold count_line. cbv zeta.
      by destruct (2 <=? _)%nat.
  - destruct (negb (ready_for_chatty s) && _); cbn; rewrite ?Ha; intros H; by repeat split; left.
  - destruct (strip (_strip_control_codes t)) as [|c v] eqn:Hv.
    + rewrite Ha. intros H. by repeat split; left.
    + destruct (bool_decide _).
      * unfold count_line. cbv zeta. destruct (2 <=? _)%nat; cbn; rewrite ?Ha;
          intros H; by repeat split; left.
      * rewrite Ha. intros H. by repeat split; left.
Qed.

Lemma generation_gate_request inp addr text state ws evs ws' evs' text' :
  generation_gate inp addr text state ws evs = Ok (ws', evs', Calling text') ->
  text' = text /\ chatty_requested state = true /\ awaiting_choice_resolution state = false
  /\ conversation_state ws' !! addr = Some (set_chatty_requested false state).
Proof.
  unfold generation_gate. intros H.
  destruct (chatty_requested state) eqn:Hc; [|done].
  destruct (awaiting_choice_resolution state) eqn:Ha; [done|].
  destruct (default false (generation_in_progress ws !! addr)); [done|].
  destruct (lock_held ws); [done|]. cbn [andb negb] in H.
  destruct (write_dialogue_to_address _ _ _) as [[ok wevs]| |]; res_simpl in H; try done.
  injection H as <- <- <-. repeat split. cbn. by rewrite lookup_insert_eq.
Qed.

(** X21. The generator is called only on request. When a poll of an address
    reaches the call of the generator, the text it decoded is the text
    passed on, it has no end-of-conversation marker, and the suppression
    window of the address is over. The request comes from the state kept
    for the address: either it was still pending there, or the address was
    waiting for the answer to a rewritten menu and the text has visible
    characters and no menu marker. No menu answer is awaited any more, and
    the state stored at the call has the request cleared. *)
Theorem generation_only_on_request (print_all : bool) (inp : PollInput) (addr : N)
    (ws ws' : WatchState) (evs : list event) (text : str) :
  poll_begin print_all inp addr ws = Ok (ws', evs, Calling text) ->
  exists state state',
    conversation_state ws !! addr = Some state
    /\ parse_ac_text (raw inp) = Ok text
    /\ contains END_CONVERSATION text = false
    /\ (default 0 (suppress_until_by_addr ws !! addr) <= now_ts inp)%Z
    /\ (chatty_requested state = true
        \/ (awaiting_choice_resolution state = true /\ contains OPEN_CHOICE_MENU text = false
            /\ visible_text text <> []))
    /\ (awaiting_choice_resolution state && contains OPEN_CHOICE_MENU text) = false
    /\ conversation_state ws' !! addr = Some state'
    /\ chatty_requested state' = false.
Proof.
  unfold poll_begin. intros H.
  destruct (raw inp); [done|].
  destruct (parse_ac_text _) as [t| |]; res_simpl in H; try done.
  destruct (getitem (last_text_by_addr ws) addr) as [last| |]; res_simpl in H; try done.
  destruct (print_all || _); [|done].
  unfold getitem in H.
  destruct (conversation_state ws !! addr) as [state|] eqn:Hst; res_simpl in H; try done.
  destruct (_ <? _)%Z eqn:Hnow.
  { by destruct (contains END_CONVERSATION t). }
  apply Z.ltb_ge in Hnow.
  assert (forall st evs0,
            chatty_requested st = chatty_requested (observe_text state t) ->
            awaiting_choice_resolution st = awaiting_choice_resolution (observe_text state t) ->
            generation_gate inp addr t st ws evs0 = Ok (ws', evs, Calling text) ->
            exists state0 state',
              Some state = Some state0
              /\ (Ok t : res str) = Ok text
              /\ contains END_CONVERSATION text = false
              /\ (default 0 (suppress_until_by_addr ws !! addr) <= now_ts inp)%Z
              /\ (chatty_requested state0 = true
                  \/ (awaiting_choice_resolution state0 = true
                      /\ contains OPEN_CHOICE_MENU text = false /\ visible_text text <> []))
              /\ (awaiting_choice_resolution state0 && contains OPEN_CHOICE_MENU text) = false
              /\ conversation_state ws' !! addr = Some state'
              /\ chatty_requested state' = false) as Hgate.
  { intros st evs0 Hc Ha Hg.
    apply generation_gate_request in Hg as (-> & Hreq & Haw & Hs').
    rewrite Hc in Hreq. apply observe_text_request in Hreq as (Hend & Hawait & Hwhy).
    rewrite Ha, Hawait in Haw.
    exists state, (set_chatty_requested false st). by repeat split. }
  destruct (_ && _ && _).
  - destruct (_inject_feeling_chatty_option t) as [modified|];
      [|eapply Hgate; [..|exact H]; reflexivity].
    destruct (_ && _); [|eapply Hgate; [..|exact H]; reflexivity].
    destruct (encode_ac_text modified) as [encoded| |]; res_simpl in H; try done.
    destruct (parse_ac_text encoded) as [predicted| |]; res_simpl in H; try done.
    destruct (write_dialogue_to_address _ _ _) as [[ok wevs]| |]; res_simpl in H; try done.
    destruct ok; [done|eapply Hgate; [..|exact H]; reflexivity].
  - destruct (_ && _ && _ && _); (eapply Hgate; [..|exact H]; reflexivity).
Qed.

Lemma generation_only_on_request_witness :
  exists state,
    conversation_state (state_of (run false 25 (init [1; 2]) (take 2 conversation))) !! 1
    = Some state
    /\ awaiting_choice_resolution state = true /\ chatty_requested state = false
    /\ visible_text (u "Sure!") <> [].
Proof.
  destruct (generation_only_on_request false (reads (u "Sure!") 3 (u "Hi")) 1
              (state_of (run false 25 (init [1; 2]) (take 2 conversation)))
              (fst (fst (match poll_begin false (reads (u "Sure!") 3 (u "Hi")) 1
                           (state_of (run false 25 (init [1; 2]) (take 2 conversation)))
                         with Ok r => r | _ => (init [], [], Finished) end)))
              [EvWrite 1 (bytes_of loading_text)] (u "Sure!"))
    as (state & state' & Hs & _ & _ & _ & Hwhy & _).
  { by vm_compute. }
  exists state. split; [exact Hs|].
  assert (chatty_requested state = false) as Hc.
  { revert Hs. vm_compute. by intros [= <-]. }
  destruct Hwhy as [Hreq|(Ha & _ & Hv)]; [congruence|]. by repeat split.
Defined.

(** X22. A generation that fails does not wedge the watcher. When the
    generator raises, or returns a text that cannot be encoded, the
    exception is caught: the poll returns without a write after the call,
    the gate is released and the in-flight flag of the address cleared, the
    suppression deadlines stay as they were, the text read before the call
    becomes the last text of the address, and the state kept for the
    address has no injected menu, no awaited answer and no request left. *)
Theorem generation_failure_recovered (SUPPRESS_SECONDS : Z) (inp : PollInput) (addr : N)
    (text : str) (ws : WatchState) (state : ConversationState) :
  conversation_state ws !! addr = Some state ->
  (exists e, llm_text inp = Raise e
             \/ exists combined, llm_text inp = Ok combined /\ encode_ac_text combined = Raise e) ->
  exists ws' state',
    poll_finish SUPPRESS_SECONDS inp addr text ws = Ok (ws', [])
    /\ lock_held ws' = false
    /\ generation_in_progress ws' !! addr = Some false
    /\ suppress_until_by_addr ws' = suppress_until_by_addr ws
    /\ last_text_by_addr ws' !! addr = Some (Some text)
    /\ conversation_state ws' !! addr = Some state'
    /\ menu_injected state' = false /\ awaiting_choice_resolution state' = false
    /\ chatty_requested state' = false.
Proof.
  intros Hst (e & Hfail).
  assert (generate_and_write SUPPRESS_SECONDS inp addr ws = Ok None) as Hg.
  { unfold generate_and_write. destruct Hfail as [->|(combined & -> & He)]; [done|].
    res_simpl. unfold write_dialogue_to_address. rewrite He.
    by destruct (_ && _). }
  unfold poll_finish. rewrite Hg. res_simpl. unfold getitem. rewrite Hst. res_simpl.
  unfold not_generated. cbv zeta.
  destruct (contains END_CONVERSATION text);
    (eexists _, _; split; [reflexivity|];
     unfold set_state, set_last_text, set_lock, set_in_progress;
     cbn [lock_held generation_in_progress suppress_until_by_addr last_text_by_addr
          conversation_state];
     rewrite !lookup_insert_eq; repeat split).
Qed.

Lemma generation_failure_recovered_witness :
  exists ws',
    poll_finish 25 {| raw := []; now_ts := 3; inject_io := io_ok; loading_io := io_ok;
                      llm_text := Ok (u "<Play Sound Effect [Thunder]>"); generated_io := io_ok; now_written := 4 |}
                1 (u "Sure!") (set_lock true (set_in_progress 1 true (init [1; 2])))
    = Ok (ws', [])
    /\ lock_held ws' = false.
Proof.
  destruct (generation_failure_recovered 25
              {| raw := []; now_ts := 3; inject_io := io_ok; loading_io := io_ok;
                 llm_text := Ok (u "<Play Sound Effect [Thunder]>"); generated_io := io_ok; now_written := 4 |}
              1 (u "Sure!") (set_lock true (set_in_progress 1 true (init [1; 2]))) reset)
    as (ws' & st' & Hp & Hl & _).
  - by vm_compute.
  - exists IndexError. right. exists (u "<Play Sound Effect [Thunder]>"). split; [reflexivity|by vm_compute].
  - exists ws'. split; [exact Hp|exact Hl].
Defined.

(** ** Tags written without brackets *)

Lemma is_hex_cases c : is_hex c = true -> c ∈ u "0123456789ABCDEFabcdef".
Proof.
  intros H. assert (c < 103) as Hlt.
  { unfold is_hex in H. apply orb_prop in H as [H|H]; [apply orb_prop in H as [H|H]|];
      apply andb_prop in H as [_ H]; apply N.leb_le in H; lia. }
  rewrite <- (N2Nat.id c) in *. generalize dependent (N.to_nat c). intros k H Hlt.
  do 103 (destruct k as [|k]; [first [by vm_compute in H | vm_compute; set_solver]|]). lia.
Qed.

(** X23. The three tags with a one-byte argument may be written with a bare
    number: the tag name, one space and one or two hexadecimal digits in
    either case, without brackets. The tag is first rewritten to its
    bracketed form with two upper-case digits, and the text is encoded as
    the prefix byte, the opcode of the tag, the value of the digits and the
    terminator. *)
Theorem bare_number_shorthand (name : string) (op : N) (d : str) :
  (name, op) ∈ [("Pause"%string, 0x03); ("Line Type"%string, 0x53);
                ("Play Sound Effect"%string, 0x59)] ->
  (1 <= length d <= 2)%nat -> forallb is_hex d = true ->
  _normalize_control_tags (u "<" ++ u name ++ [32] ++ d ++ u ">")
  = u "<" ++ u name ++ u " [" ++ zfill 2 (upper d) ++ u "]>"
  /\ encode_ac_text (u "<" ++ u name ++ [32] ++ d ++ u ">")
     = Ok [PREFIX_BYTE; op; int16 d; 0x00].
Proof.
  intros Hname Hlen Hd.
  pose (hexchars := u "0123456789ABCDEFabcdef").
  pose (ds := ((fun c => [c]) <$> hexchars) ++ (c1 ← hexchars; (fun c2 => [c1; c2]) <$> hexchars)).
  pose (ok := fun (name : string) (op : N) (d : str) =>
          bool_decide (_normalize_control_tags (u "<" ++ u name ++ [32] ++ d ++ u ">")
                       = u "<" ++ u name ++ u " [" ++ zfill 2 (upper d) ++ u "]>")
          && match encode_ac_text (u "<" ++ u name ++ [32] ++ d ++ u ">") with
             | Ok b => bool_decide (b = [PREFIX_BYTE; op; int16 d; 0x00])
             | _ => false
             end).
  assert (d ∈ ds) as Hin.
  { destruct d as [|c1 [|c2 [|c3 d]]]; cbn in Hlen; try lia.
    - apply andb_prop in Hd as [H1 _]. apply is_hex_cases in H1.
      apply elem_of_app. left. apply list_elem_of_fmap. by exists c1.
    - apply andb_prop in Hd as [H1 Hd]. apply andb_prop in Hd as [H2 _].
      apply is_hex_cases in H1, H2.
      apply elem_of_app. right. apply list_elem_of_bind. exists c1. split; [|done].
      apply list_elem_of_fmap. by exists c2. }
  assert (forallb (fun nd => forallb (ok nd.1 nd.2) ds)
            [("Pause"%string, 0x03); ("Line Type"%string, 0x53);
             ("Play Sound Effect"%string, 0x59)] = true) as Hall by (by vm_compute).
  rewrite forallb_forall in Hall. apply list_elem_of_In in Hname.
  specialize (Hall _ Hname). cbn [fst snd] in Hall.
  rewrite forallb_forall in Hall. apply list_elem_of_In in Hin. specialize (Hall _ Hin).
  unfold ok in Hall. apply andb_prop in Hall as [Hn He].
  apply bool_decide_eq_true_1 in Hn. split; [exact Hn|].
  destruct (encode_ac_text _) as [b| |]; [|done..].
  apply bool_decide_eq_true_1 in He. by rewrite He.
Qed.

Lemma bare_number_shorthand_witness :
  encode_ac_text (u "<Pause a>") = Ok [PREFIX_BYTE; 0x03; 0x0A; 0x00].
Proof.
  apply (bare_number_shorthand "Pause" 0x03 (u "a")).
  - apply (bool_decide_unpack _). by vm_compute.
  - cbn. lia.
  - reflexivity.
Defined.
